(** * Grover workshop notebooks: circuits and their state-vector semantics

    The notebooks [Grover_Introduction.ipynb] and [Grover_ToyExample.ipynb]
    build quantum circuits by calling PennyLane gate constructors inside
    Python functions.  This development embeds

    - the Python fragments the functions rely on (list subscripts, slices,
      [range], exceptions),
    - the queue of operations a function call leaves behind,
    - the notebook functions themselves,
    - the state-vector semantics of the gates they use, and
    - the text of the functions, as syntax trees run by an interpreter,
      for what depends on names, arguments of any type and exceptions,

    and proves the properties the repository description states. *)

From Stdlib Require Import Floats.
From Stdlib Require Import String ZArith List Bool Lia Reals Lra Psatz.
From Stdlib Require Import FunctionalExtensionality FinFun.
Import ListNotations.

Set Implicit Arguments.
Local Open Scope Z_scope.

(* ================================================================== *)
(** ** Python values, exceptions and sequence operations *)

Module Py.

(** Who raised an exception: the interpreter while evaluating a builtin
    operation, a library (PennyLane, numpy), or a statement written in the
    notebook itself ([raise], [assert]).  [Undetermined] goes with
    [Unmodelled]. *)
Inductive origin := Interpreter | Library | Notebook | Undetermined.

Inductive exn :=
| IndexError                     (* subscript out of range *)
| NameError                      (* unbound name *)
| OverflowError                  (* int() of an infinite float *)
| TypeError                      (* operation on a value of the wrong type *)
| ValueError                     (* PennyLane operators *)
| WireError                      (* PennyLane wires and devices *)
| AssertionError                 (* assert statement *)
| Unmodelled.                    (* not an exception: see below *)

(** [Unmodelled] marks the places where this development does not say
    what happens (a device executing a [MultiControlledX] whose target is
    one of its control wires; [+=] extending a list in place): a result
    with [Unmodelled] says nothing about the program, neither that it
    fails nor that it runs. *)

(** Where the functions on lists of wires below get each class from:
    their only interpreter operation that can fail is the list subscript,
    and the other classes are raised by PennyLane and numpy. *)
Definition origin_of (e : exn) : origin :=
  match e with
  | IndexError | NameError | OverflowError => Interpreter
  | TypeError | ValueError | WireError => Library
  | AssertionError => Notebook
  | Unmodelled => Undetermined
  end.

Inductive res (A : Type) :=
| Ok (a : A)
| Raise (e : exn).
Arguments Ok {A} a.
Arguments Raise {A} e.

Definition bind {A B} (r : res A) (k : A -> res B) : res B :=
  match r with
  | Ok a => k a
  | Raise e => Raise e
  end.

(** [l[i]]: negative indices count from the end. *)
Definition subscript {A} (l : list A) (i : Z) : res A :=
  let n := Z.of_nat (length l) in
  let j := if i <? 0 then i + n else i in
  if (0 <=? j) && (j <? n)
  then match nth_error l (Z.to_nat j) with
       | Some a => Ok a
       | None => Raise IndexError
       end
  else Raise IndexError.

(** [l[:-1]]: never raises, the empty list stays empty. *)
Definition but_last {A} (l : list A) : list A := removelast l.

(** [range(n)] *)
Definition range (n : Z) : list Z := map Z.of_nat (seq 0 (Z.to_nat n)).

End Py.

Import Py.

Notation "'let*' x ':=' r 'in' k" := (Py.bind r (fun x => k))
  (at level 10, x name, r at level 100, k at level 200).

(* ================================================================== *)
(** ** Wire labels

    PennyLane accepts integers and strings as wire labels; the introduction
    notebook uses the former, the toy example the latter. *)

Class Wire (W : Type) := {
  wire_eqb : W -> W -> bool;
  wire_eqb_spec : forall a b, reflect (a = b) (wire_eqb a b)
}.

#[export] Instance Wire_Z : Wire Z :=
  {| wire_eqb := Z.eqb; wire_eqb_spec := Z.eqb_spec |}.

#[export] Instance Wire_string : Wire string :=
  {| wire_eqb := String.eqb; wire_eqb_spec := String.eqb_spec |}.

Section Labels.
Context {W : Type} `{Wire W}.

Definition mem (w : W) (ws : list W) : bool := existsb (wire_eqb w) ws.

Fixpoint distinct (ws : list W) : bool :=
  match ws with
  | [] => true
  | w :: ws' => negb (mem w ws') && distinct ws'
  end.

Lemma wire_eqb_refl w : wire_eqb w w = true.
Proof. destruct (wire_eqb_spec w w); congruence. Qed.

Lemma wire_eqb_neq a b : a <> b -> wire_eqb a b = false.
Proof. destruct (wire_eqb_spec a b); congruence. Qed.

Lemma mem_In w ws : mem w ws = true <-> In w ws.
Proof.
  unfold mem. rewrite existsb_exists. split.
  - intros (x & Hx & E). destruct (wire_eqb_spec w x); congruence.
  - intros Hin. exists w. split; [assumption | apply wire_eqb_refl].
Qed.

Lemma mem_false w ws : mem w ws = false <-> ~ In w ws.
Proof.
  rewrite <- mem_In. destruct (mem w ws); intuition congruence.
Qed.

Lemma distinct_NoDup ws : distinct ws = true <-> NoDup ws.
Proof.
  induction ws as [|w ws IH]; simpl.
  - split; [constructor | reflexivity].
  - rewrite andb_true_iff, negb_true_iff, mem_false, IH.
    split.
    + intros [? ?]. now constructor.
    + intros Hnd. inversion Hnd. now split.
Qed.

End Labels.

(* ================================================================== *)
(** ** PennyLane: operations and the queue of a quantum function *)

Module Qml.

(** The operations the notebooks use.  [MultiControlledX] flips [target]
    when every control wire carries its control value. *)
Inductive op (W : Type) :=
| Hadamard (w : W)
| PauliX (w : W)
| PauliZ (w : W)
| CZ (c t : W)
| CNOT (c t : W)
| MultiControlledX (control_wires : list W) (target : W)
                   (control_values : list bool).

Arguments Hadamard {W} w.
Arguments PauliX {W} w.
Arguments PauliZ {W} w.
Arguments CZ {W} c t.
Arguments CNOT {W} c t.
Arguments MultiControlledX {W} control_wires target control_values.

(** What calling a quantum function leaves behind: the operations it
    queued, in order, or the exception that ended it. *)
Definition circ (W : Type) := res (list (op W)).

Definition queue {W} (o : op W) : circ W := Ok [o].

Definition nothing {W} : circ W := Ok [].

Definition then_ {W} (c1 c2 : circ W) : circ W :=
  match c1 with
  | Raise e => Raise e
  | Ok t1 => match c2 with
             | Raise e => Raise e
             | Ok t2 => Ok (t1 ++ t2)
             end
  end.

(** [for x in xs: body(x)] *)
Fixpoint for_each {A W} (xs : list A) (body : A -> circ W) : circ W :=
  match xs with
  | [] => nothing
  | x :: xs' => then_ (body x) (for_each xs' body)
  end.

(** [for _ in range(n): body] *)
Definition times {W} (n : Z) (body : circ W) : circ W :=
  for_each (Py.range n) (fun _ => body).

Section Constructors.
Context {W : Type} `{Wire W}.

(** [qml.CZ(wires)] and [qml.CNOT(wires=wires)]: two different wires. *)
Definition two_wires (mk : W -> W -> op W) (wires : list W) : res (op W) :=
  match wires with
  | [c; t] => if wire_eqb c t then Raise WireError else Ok (mk c t)
  | _ => Raise ValueError
  end.

Definition qml_CZ := two_wires CZ.
Definition qml_CNOT := two_wires CNOT.

(** [(wires[:-1], wires[-1])] *)
Fixpoint split_last (ws : list W) : option (list W * W) :=
  match ws with
  | [] => None
  | [t] => Some ([], t)
  | w :: ws' =>
      match split_last ws' with
      | Some (cs, t) => Some (w :: cs, t)
      | None => None
      end
  end.

(** [qml.MultiControlledX(control_wires, wires, control_values)].
    Without [control_wires] the last of [wires] is the target and the
    others control it; with [control_wires], [wires] is the one target.
    The library turns both lists into [Wires], which refuses a repeated
    label, before it counts the targets.  A target that is also a control
    wire is not refused: the operator is built.  Absent control values are
    all ones. *)
Definition qml_MultiControlledX (control_wires : option (list W))
           (wires : list W) (control_values : option (list bool))
  : res (op W) :=
  let* ct := match control_wires, wires with
             | None, _ :: _ :: _ =>
                 match split_last wires with
                 | Some (cs, t) =>
                     if distinct cs then Ok (cs, t) else Raise WireError
                 | None => Raise ValueError
                 end
             | None, _ => Raise ValueError
             | Some cs, _ =>
                 if negb (distinct wires) then Raise WireError
                 else if negb (distinct cs) then Raise WireError
                 else match wires with
                      | [t] => Ok (cs, t)
                      | _ => Raise ValueError
                      end
             end in
  let cs := fst ct in
  let t := snd ct in
  let vs := match control_values with
            | Some vs => vs
            | None => repeat true (length cs)
            end in
  if negb (Nat.eqb (length vs) (length cs)) then Raise ValueError
  else Ok (MultiControlledX cs t vs).

End Constructors.

End Qml.

Import Qml.

Notation "c1 ;; c2" := (Qml.then_ c1 c2)
  (at level 61, right associativity).

(* ================================================================== *)
(** ** The simulator: state vectors over the computational basis

    A basis state gives every wire a bit.  All gates of the notebooks have
    amplitudes that are integers divided by a power of [sqrt 2], so a state
    is kept as integer numerators [vec] and the exponent [scale] of the
    common denominator: the amplitude of [x] is [vec x / sqrt 2 ^ scale]. *)

Section StateVector.
Context {W : Type} `{Wire W}.

Definition basis := W -> bool.

Definition upd (x : basis) (q : W) (b : bool) : basis :=
  fun w => if wire_eqb w q then b else x w.

Definition flip (x : basis) (q : W) : basis := upd x q (negb (x q)).

Record state := { scale : nat; vec : basis -> Z }.

Definition sgn (b : bool) : Z := if b then -1 else 1.

Definition controls_hold (cs : list W) (vs : list bool) (x : basis) : bool :=
  forallb (fun cv => Bool.eqb (x (fst cv)) (snd cv)) (combine cs vs).

(** One gate.  Hadamard sends |0> to (|0>+|1>)/sqrt 2 and |1> to
    (|0>-|1>)/sqrt 2; the other gates permute basis states or change
    signs. *)
Definition apply (o : op W) (s : state) : state :=
  match o with
  | Hadamard q =>
      {| scale := S (scale s);
         vec := fun x => vec s (upd x q false)
                         + sgn (x q) * vec s (upd x q true) |}
  | PauliX q =>
      {| scale := scale s; vec := fun x => vec s (flip x q) |}
  | PauliZ q =>
      {| scale := scale s; vec := fun x => sgn (x q) * vec s x |}
  | CZ c t =>
      {| scale := scale s; vec := fun x => sgn (x c && x t) * vec s x |}
  | CNOT c t =>
      {| scale := scale s;
         vec := fun x => vec s (if x c then flip x t else x) |}
  | MultiControlledX cs t vs =>
      {| scale := scale s;
         vec := fun x => vec s (if controls_hold cs vs x
                                then flip x t else x) |}
  end.

Definition apply_tape (t : list (op W)) (s : state) : state :=
  fold_left (fun s o => apply o s) t s.

(** All wires of the device start in |0>. *)
Definition all_zero (ws : list W) (x : basis) : bool :=
  forallb (fun w => negb (x w)) ws.

Definition zero_state (ws : list W) : state :=
  {| scale := 0; vec := fun x => if all_zero ws x then 1 else 0 |}.

(** The basis state |x> of a device with wires [ws]. *)
Definition agree (ws : list W) (x y : basis) : bool :=
  forallb (fun w => Bool.eqb (x w) (y w)) ws.

Definition ket (ws : list W) (x : basis) : state :=
  {| scale := 0; vec := fun y => if agree ws x y then 1 else 0 |}.

(** The device refuses operations on wires it does not have. *)
Definition op_wires (o : op W) : list W :=
  match o with
  | Hadamard q | PauliX q | PauliZ q => [q]
  | CZ c t | CNOT c t => [c; t]
  | MultiControlledX cs t _ => cs ++ [t]
  end.

Definition on_device (ws : list W) (o : op W) : bool :=
  forallb (fun w => mem w ws) (op_wires o).

(** What the device does with one operation before it applies it.  The
    matrix of [MultiControlledX] is computed from its control values, which
    fails with [ValueError] when there is no control wire; a wire the
    device does not have gives [WireError].  What happens to a
    [MultiControlledX] whose target is among its control wires is not
    modelled. *)
Definition executable (o : op W) : bool :=
  match o with
  | MultiControlledX cs t _ =>
      negb (mem t cs) && negb (Nat.eqb (length cs) 0)
  | _ => true
  end.

Definition refusal (ws : list W) (o : op W) : option exn :=
  match o with
  | MultiControlledX cs t _ =>
      if mem t cs then Some Unmodelled
      else if Nat.eqb (length cs) 0 then Some ValueError
      else if on_device ws o then None else Some WireError
  | _ => if on_device ws o then None else Some WireError
  end.

(** The operations are applied one after the other: the first one the
    device refuses ends the run. *)
Fixpoint refused (ws : list W) (t : list (op W)) : option exn :=
  match t with
  | [] => None
  | o :: t' =>
      match refusal ws o with
      | Some e => Some e
      | None => refused ws t'
      end
  end.

Definition run (ws : list W) (c : circ W) : res state :=
  let* t := c in
  match refused ws t with
  | None => Ok (apply_tape t (zero_state ws))
  | Some e => Raise e
  end.

(** Sums over all values of the wires [qs]. *)
Fixpoint sum_over (qs : list W) (f : basis -> Z) (x : basis) : Z :=
  match qs with
  | [] => f x
  | q :: qs' => sum_over qs' f (upd x q false) + sum_over qs' f (upd x q true)
  end.

Fixpoint Rsum_over (qs : list W) (f : basis -> R) (x : basis) : R :=
  match qs with
  | [] => f x
  | q :: qs' =>
      (Rsum_over qs' f (upd x q false) + Rsum_over qs' f (upd x q true))%R
  end.

(** Amplitudes and the Born rule.  [qml.sample(wires=ms)] draws each shot
    from the distribution over the values of [ms]; the wires that are not
    sampled are summed over. *)
Definition amp (s : state) (x : basis) : R :=
  (IZR (vec s x) / sqrt 2 ^ scale s)%R.

Definition weight (s : state) (unsampled : list W) (x : basis) : Z :=
  sum_over unsampled (fun y => vec s y * vec s y) x.

Definition probability (s : state) (unsampled : list W) (x : basis) : R :=
  (IZR (weight s unsampled x) / 2 ^ scale s)%R.

Definition unsampled (ws ms : list W) : list W :=
  filter (fun w => negb (mem w ms)) ws.

(** A QNode: the quantum function runs once on the device, from |0..0>, and
    [qml.sample] is drawn from the final state.  The result is given as the
    probability of each outcome on the sampled wires. *)
Definition qnode (device : list W) (c : circ W) (sampled : list W)
  : res (basis -> R) :=
  let* s := run device c in
  Ok (probability s (unsampled device sampled)).

(** The values of the wires [ws] as a bit list, e.g. 0110. *)
Fixpoint of_bits (ws : list W) (bits : list bool) : basis :=
  match ws, bits with
  | w :: ws', b :: bits' => upd (of_bits ws' bits') w b
  | _, _ => fun _ => false
  end.

End StateVector.

(* ================================================================== *)
(** ** Grover_ToyExample.ipynb: the functions of Task 1 *)

Module ToyExample.

Section Functions.
Context {W : Type} `{Wire W}.

Definition diffuser (qubits : list W) : circ W :=
  (* Apply transformation |s> -> |00..0> (H-gates) *)
  for_each qubits (fun qubit => queue (Hadamard qubit)) ;;
  (* Apply transformation |00..0> -> |11..1> (X-gates) *)
  for_each qubits (fun qubit => queue (PauliX qubit)) ;;
  (* Do multi-controlled-Z gate *)
  (let* t := subscript qubits (-1) in queue (Hadamard t)) ;;
  (let* t := subscript qubits (-1) in
   let* g := qml_MultiControlledX (Some (but_last qubits)) [t] None in
   queue g) ;;
  (let* t := subscript qubits (-1) in queue (Hadamard t)) ;;
  (* Apply transformation |11..1> -> |00..0> *)
  for_each qubits (fun qubit => queue (PauliX qubit)) ;;
  (* Apply transformation |00..0> -> |s> *)
  for_each qubits (fun qubit => queue (Hadamard qubit)).

Definition xor (input_qubits output_qubits : list W) : circ W :=
  (let* a := subscript input_qubits 0 in
   let* o := subscript output_qubits 0 in
   let* g := qml_CNOT [a; o] in
   queue g) ;;
  (let* b := subscript input_qubits 1 in
   let* o := subscript output_qubits 0 in
   let* g := qml_CNOT [b; o] in
   queue g).

(** The loop of [clause_circuit], with its counter [i]. *)
Fixpoint clause_loop (clauses : list (list Z))
         (tile_qubits clause_qubits : list W) (i : Z) : circ W :=
  match clauses with
  | [] => nothing
  | clause :: rest =>
      (let* c0 := subscript clause 0 in
       let* t0 := subscript tile_qubits c0 in
       let* c1 := subscript clause 1 in
       let* t1 := subscript tile_qubits c1 in
       let* c := subscript clause_qubits i in
       xor [t0; t1] [c]) ;;
      clause_loop rest tile_qubits clause_qubits (i + 1)
  end.

Definition clause_circuit (clause_list : list (list Z))
           (tile_qubits clause_qubits : list W) : circ W :=
  clause_loop clause_list tile_qubits clause_qubits 0.

Definition oracle (clause_list : list (list Z))
           (tile_qubits clause_qubits result_qubits : list W) : circ W :=
  (* Compute clauses *)
  clause_circuit clause_list tile_qubits clause_qubits ;;
  (* Flip 'output' bit if all clauses are satisfied *)
  (let* g := qml_MultiControlledX (Some clause_qubits) result_qubits None in
   queue g) ;;
  (* Undo clauses *)
  clause_circuit clause_list tile_qubits clause_qubits.

Definition init_states (tile_qubits result_qubits : list W) : circ W :=
  (* Initialize qubits in state |s> *)
  for_each tile_qubits (fun q => queue (Hadamard q)) ;;
  (* Initialize 'r' in state |-> *)
  (let* r := subscript result_qubits 0 in queue (PauliX r)) ;;
  (let* r := subscript result_qubits 0 in queue (Hadamard r)).

Definition grover_iteration (clause_list : list (list Z))
           (tile_qubits clause_qubits result_qubits : list W) : circ W :=
  (* Apply our oracle *)
  oracle clause_list tile_qubits clause_qubits result_qubits ;;
  (* Apply our diffuser *)
  diffuser tile_qubits.

Definition grover (clause_list : list (list Z))
           (tile_qubits clause_qubits result_qubits : list W) : circ W :=
  (* Initialization *)
  init_states tile_qubits result_qubits ;;
  (* One Iteration *)
  grover_iteration clause_list tile_qubits clause_qubits result_qubits.

(** Task 3 asks for the same circuit with [R] iteration steps. *)
Definition grover_steps (R : nat) (clause_list : list (list Z))
           (tile_qubits clause_qubits result_qubits : list W) : circ W :=
  init_states tile_qubits result_qubits ;;
  times (Z.of_nat R)
        (grover_iteration clause_list tile_qubits clause_qubits
                          result_qubits).

End Functions.

Local Open Scope string_scope.

(** Solution 1.1.1 *)
Definition clause_list : list (list Z) :=
  [[0; 1];
   [0; 2];
   [1; 3];
   [2; 3]].

(** Modelled from the spec: [workshop.utils.flatten_list] is imported by the
    notebook but its file is not part of the sources at hand; the notebook
    uses it to "define the final list of all wires" from the three
    registers, so it is taken to concatenate the lists it is given. *)
Definition flatten_list {A} (ls : list (list A)) : list A := concat ls.

(** Solution 1.1.2 *)
Definition tile_qubits : list string := ["t_0"; "t_1"; "t_2"; "t_3"].
Definition clause_qubits : list string := ["c_0"; "c_1"; "c_2"; "c_3"].
Definition result_qubits : list string := ["r_0"].
Definition wires : list string :=
  flatten_list [tile_qubits; clause_qubits; result_qubits].

(** Solution 1.1.4: the device is a name of the notebook, not an argument
    ([shots=1000] only sets how many samples are drawn). *)
Definition device : list string := wires.

Definition execute (circuit : circ string) (wires : list string)
  : res (basis -> R) :=
  qnode device circuit wires.

End ToyExample.

(* ================================================================== *)
(** ** Grover_Introduction.ipynb *)

Module Introduction.

(** *** Two Qubit Example Implementation (Solutions 1.1, 1.3, 1.5) *)
Module TwoQubit.

Definition state_preparation_gates : circ Z :=
  (* Apply the Hadamard gate to both qubits *)
  for_each (range 2) (fun i => queue (Hadamard i)).

Definition oracle_gates : circ Z :=
  let* g := qml_CZ [0; 1] in queue g.

Definition diffusion_gates : circ Z :=
  for_each (range 2) (fun i => queue (Hadamard i) ;; queue (PauliZ i)) ;;
  (let* g := qml_CZ [0; 1] in queue g) ;;
  for_each (range 2) (fun i => queue (Hadamard i)).

Definition single_shot_device : list Z := range 2.

(** The QNode [grover_circuit]: [grover_gates] is its body up to the
    [return], [grover_circuit] the decorated function. *)
Definition grover_gates : circ Z :=
  state_preparation_gates ;;
  oracle_gates ;;
  diffusion_gates.

Definition grover_circuit : res (basis -> R) :=
  qnode single_shot_device grover_gates single_shot_device.

End TwoQubit.

(** *** Higher Dimensional Example (Solutions 2.1, 2.2, 2.3)

    These functions take no arguments; they read the names [n_qubits] and
    [grover_iterations] that other cells of the notebook assign. *)
Module NQubit.

Record globals := {
  n_qubits : Z;
  grover_iterations : Z
}.

(** [qml.device("default.qubit", wires=n_qubits, shots=1)] *)
Definition single_shot_device (g : globals) : list Z := range (n_qubits g).

(** [2**n_qubits] as [np.sqrt] receives it.  A power of two below 2^64 is
    a 64-bit integer, which numpy converts to binary64 without rounding
    (for a negative exponent Python's [**] gives that float already); for
    a larger Python integer numpy has no square root and raises
    [TypeError]. *)
Definition two_pow (n_qubits : Z) : res PrimFloat.float :=
  if 64 <=? n_qubits then Raise TypeError else Ok (Z.ldexp 1 n_qubits).

Definition np_pi : PrimFloat.float := 0x1.921fb54442d18p+1%float.

(** The value inside [np.ceil], computed on binary64 numbers. *)
Definition iterations_value_binary64 (two_pow_n : PrimFloat.float)
  : PrimFloat.float :=
  PrimFloat.sub
    (PrimFloat.div (PrimFloat.mul (PrimFloat.sqrt two_pow_n) np_pi) 4%float)
    0.5%float.

(** [int(np.ceil(x))]: the least integer not below the binary64 number
    [x], which is [m * 2^e] up to its sign.  [int] raises [ValueError] on
    a NaN and [OverflowError] on an infinity. *)
Definition int_ceil (x : PrimFloat.float) : res Z :=
  match Prim2SF x with
  | S754_zero _ => Ok 0
  | S754_finite s m e =>
      let n := if s then Z.neg m else Z.pos m in
      Ok (if 0 <=? e then n * 2 ^ e else - ((- n) / 2 ^ (- e)))
  | S754_infinity _ => Raise OverflowError
  | S754_nan => Raise ValueError
  end.

(** The cell
    [grover_iterations = int(np.ceil(np.sqrt(2**n_qubits)*np.pi/4.0 - 0.5))]:
    the value assigned, or the exception that ends the cell. *)
Definition iterations_cell (n_qubits : Z) : res Z :=
  let* x := two_pow n_qubits in
  int_ceil (iterations_value_binary64 x).

(** Cells assign the names: a cell is a function on the notebook's state.
    A cell that fails before its assignment leaves the name as it was. *)
Definition assign_n_qubits (n : Z) (g : globals) : globals :=
  {| n_qubits := n; grover_iterations := grover_iterations g |}.

Definition assign_grover_iterations (g : globals) : globals :=
  match iterations_cell (n_qubits g) with
  | Ok k => {| n_qubits := n_qubits g; grover_iterations := k |}
  | Raise _ => g
  end.

(** The names after the cells of the notebook ran in order, starting with
    both names at 0: [n_qubits = 4], then the cell that computes
    [grover_iterations]. *)
Definition notebook_globals : globals :=
  assign_grover_iterations
    (assign_n_qubits 4 {| n_qubits := 0; grover_iterations := 0 |}).

Definition state_preparation_gates (g : globals) : circ Z :=
  (* Apply the Hadamard gate to all qubits *)
  for_each (range (n_qubits g)) (fun i => queue (Hadamard i)).

Definition oracle_gates (g : globals) : circ Z :=
  queue (Hadamard (n_qubits g - 1)) ;;
  (let* m := qml_MultiControlledX None [0; 1; 2; 3]
                                  (Some [true; false; false]) in
   queue m) ;;
  queue (Hadamard (n_qubits g - 1)).

Definition diffusion_gates (g : globals) : circ Z :=
  for_each (range (n_qubits g)) (fun i => queue (Hadamard i)) ;;
  for_each (range (n_qubits g)) (fun i => queue (PauliX i)) ;;
  queue (Hadamard (n_qubits g - 1)) ;;
  (let* m := qml_MultiControlledX None (range (n_qubits g)) None in
   queue m) ;;
  queue (Hadamard (n_qubits g - 1)) ;;
  for_each (range (n_qubits g)) (fun i => queue (PauliX i)) ;;
  for_each (range (n_qubits g)) (fun i => queue (Hadamard i)).

(** The QNode [grover_circuit], as in the two-qubit example. *)
Definition grover_gates (g : globals) : circ Z :=
  state_preparation_gates g ;;
  times (grover_iterations g) (oracle_gates g ;; diffusion_gates g).

Definition grover_circuit (g : globals) : res (basis -> R) :=
  qnode (single_shot_device g) (grover_gates g) (single_shot_device g).

End NQubit.

End Introduction.

(* ================================================================== *)
(** ** Gates as operators on amplitude functions *)

Section Operators.
Context {W : Type} `{Wire W}.

Implicit Types (x y : @basis W) (f g : @basis W -> Z) (q t : W).

(** *** Updating a basis state *)

Lemma upd_same x q b : upd x q b q = b.
Proof. unfold upd. now rewrite wire_eqb_refl. Qed.

Lemma upd_other x q b w : w <> q -> upd x q b w = x w.
Proof. intros Hne. unfold upd. now rewrite wire_eqb_neq. Qed.

Lemma upd_upd x q a b : upd (upd x q a) q b = upd x q b.
Proof.
  extensionality w. unfold upd. now destruct (wire_eqb w q).
Qed.

Lemma upd_id x q : upd x q (x q) = x.
Proof.
  extensionality w. unfold upd.
  destruct (wire_eqb_spec w q); congruence.
Qed.

Lemma upd_comm x q q' a b :
  q <> q' -> upd (upd x q a) q' b = upd (upd x q' b) q a.
Proof.
  intros Hne. extensionality w. unfold upd.
  destruct (wire_eqb_spec w q'), (wire_eqb_spec w q); congruence.
Qed.

(** *** The operators *)

Definition Hq q f : basis -> Z :=
  fun x => f (upd x q false) + sgn (x q) * f (upd x q true).

Definition Xq q f : basis -> Z := fun x => f (flip x q).

(** Sum over both values of one wire. *)
Definition Sq q f : basis -> Z :=
  fun x => f (upd x q false) + f (upd x q true).

(** Projection on the part where one wire, or all wires of a list, are 0. *)
Definition Pq q f : basis -> Z := fun x => if x q then 0 else f x.

Definition P (qs : list W) f : basis -> Z :=
  fun x => if all_zero qs x then f x else 0.

Fixpoint Hs (qs : list W) f : basis -> Z :=
  match qs with
  | [] => f
  | q :: qs' => Hs qs' (Hq q f)
  end.

Fixpoint Xs (qs : list W) f : basis -> Z :=
  match qs with
  | [] => f
  | q :: qs' => Xs qs' (Xq q f)
  end.

Lemma sum_over_cons q qs f : sum_over (q :: qs) f = Sq q (sum_over qs f).
Proof. reflexivity. Qed.

Lemma P_cons q qs f : P (q :: qs) f = Pq q (P qs f).
Proof.
  extensionality x. unfold P, Pq. simpl. now destruct (x q).
Qed.

(** *** Hadamard twice, and commutation on different wires *)

Lemma Hq_Hq q f : Hq q (Hq q f) = fun x => 2 * f x.
Proof.
  extensionality x. unfold Hq.
  rewrite !upd_same, !upd_upd.
  assert (E : f x = f (upd x q (x q))) by now rewrite upd_id.
  rewrite E. destruct (x q); unfold sgn; lia.
Qed.

Lemma Hq_comm q q' f : Hq q (Hq q' f) = Hq q' (Hq q f).
Proof.
  destruct (wire_eqb_spec q q') as [-> | Hne]; [reflexivity|].
  extensionality x. unfold Hq.
  rewrite !(upd_other _ _ (w:=q)) by congruence.
  rewrite !(upd_other _ _ (w:=q')) by congruence.
  rewrite !(upd_comm _ _ _ Hne).
  destruct (x q), (x q'); unfold sgn; lia.
Qed.

Lemma Hs_Hq qs : forall q f, Hs qs (Hq q f) = Hq q (Hs qs f).
Proof.
  induction qs as [|p qs IH]; intros q f; simpl; [reflexivity|].
  now rewrite <- IH, (Hq_comm p q).
Qed.

Lemma Hq_scal k q f : Hq q (fun x => k * f x) = fun x => k * Hq q f x.
Proof. extensionality x. unfold Hq. lia. Qed.

Lemma Hq_sub q f g :
  Hq q (fun x => f x - g x) = fun x => Hq q f x - Hq q g x.
Proof. extensionality x. unfold Hq. lia. Qed.

Lemma Hs_scal k qs : forall f,
  Hs qs (fun x => k * f x) = fun x => k * Hs qs f x.
Proof.
  induction qs as [|q qs IH]; intros f; simpl; [reflexivity|].
  now rewrite Hq_scal, IH.
Qed.

Lemma Hs_sub qs : forall f g,
  Hs qs (fun x => f x - g x) = fun x => Hs qs f x - Hs qs g x.
Proof.
  induction qs as [|q qs IH]; intros f g; simpl; [reflexivity|].
  now rewrite Hq_sub, IH.
Qed.

Lemma Hs_Hs qs : forall f,
  Hs qs (Hs qs f) = fun x => 2 ^ Z.of_nat (length qs) * f x.
Proof.
  induction qs as [|q qs IH]; intros f.
  - extensionality x. cbn [Hs length Z.of_nat]. lia.
  - cbn [Hs]. rewrite <- Hs_Hq, IH, Hq_Hq.
    extensionality x.
    replace (Z.of_nat (length (q :: qs))) with (Z.succ (Z.of_nat (length qs)))
      by (simpl length; lia).
    rewrite Z.pow_succ_r by lia. lia.
Qed.

(** *** Projection on zero between two Hadamard layers *)

Lemma all_zero_upd qs x q b :
  ~ In q qs -> all_zero qs (upd x q b) = all_zero qs x.
Proof.
  induction qs as [|w qs IH]; intros Hq; simpl; [reflexivity|].
  rewrite upd_other by (simpl in Hq; intuition congruence).
  rewrite IH by (simpl in Hq; tauto). reflexivity.
Qed.

Lemma Hq_Pq_Hq q f : Hq q (Pq q (Hq q f)) = Sq q f.
Proof.
  extensionality x. unfold Hq, Pq, Sq.
  rewrite !upd_same, !upd_upd. unfold sgn. lia.
Qed.

Lemma Pq_P_comm q qs f : Pq q (P qs f) = P qs (Pq q f).
Proof.
  extensionality x. unfold Pq, P. now destruct (x q), (all_zero qs x).
Qed.

Lemma Hq_P_comm q qs f : ~ In q qs -> Hq q (P qs f) = P qs (Hq q f).
Proof.
  intros Hq'. extensionality x. unfold Hq, P.
  rewrite !all_zero_upd by assumption.
  destruct (all_zero qs x); lia.
Qed.

Lemma Sq_Hq_comm q q' f : q <> q' -> Sq q (Hq q' f) = Hq q' (Sq q f).
Proof.
  intros Hne. extensionality x. unfold Sq, Hq.
  rewrite !(upd_other _ _ (w:=q')) by congruence.
  rewrite !(upd_comm _ _ _ Hne). lia.
Qed.

Lemma Sq_Sq_comm q q' f : Sq q (Sq q' f) = Sq q' (Sq q f).
Proof.
  destruct (wire_eqb_spec q q') as [-> | Hne]; [reflexivity|].
  extensionality x. unfold Sq.
  rewrite !(upd_comm _ _ _ Hne). lia.
Qed.

Lemma Sq_Hs_comm q qs : forall f,
  ~ In q qs -> Sq q (Hs qs f) = Hs qs (Sq q f).
Proof.
  induction qs as [|p qs IH]; intros f Hq'; simpl; [reflexivity|].
  rewrite IH by (simpl in Hq'; tauto).
  rewrite Sq_Hq_comm; [reflexivity | simpl in Hq'; intuition congruence].
Qed.

Lemma Sq_sum_over q qs : forall f,
  Sq q (sum_over qs f) = sum_over qs (Sq q f).
Proof.
  induction qs as [|p qs IH]; intros f; [reflexivity|].
  rewrite !sum_over_cons, Sq_Sq_comm, IH. reflexivity.
Qed.

Lemma Hs_P_Hs qs : forall f,
  NoDup qs -> Hs qs (P qs (Hs qs f)) = sum_over qs f.
Proof.
  induction qs as [|q qs IH]; intros f Hnd.
  - simpl. extensionality x. reflexivity.
  - inversion Hnd as [|? ? Hq' Hnd']; subst.
    cbn [Hs]. rewrite P_cons, Pq_P_comm, Hq_P_comm by assumption.
    rewrite (Hs_Hq qs q f), Hq_Pq_Hq, Sq_Hs_comm by assumption.
    rewrite IH by assumption.
    now rewrite sum_over_cons, Sq_sum_over.
Qed.

(** *** The multi-controlled Z in the middle of the diffuser *)

Definition flip_all (qs : list W) x : basis :=
  fun w => if mem w qs then negb (x w) else x w.

Definition all_one (qs : list W) x : bool := forallb x qs.

(** [MultiControlledX] as an operator. *)
Definition Mx (cs : list W) (vs : list bool) t f : basis -> Z :=
  fun x => f (if controls_hold cs vs x then flip x t else x).

Lemma Xs_flip_all qs : forall f,
  NoDup qs -> Xs qs f = fun x => f (flip_all qs x).
Proof.
  induction qs as [|q qs IH]; intros f Hnd.
  - extensionality x. simpl. f_equal.
  - inversion Hnd as [|? ? Hq' Hnd']; subst.
    cbn [Xs]. rewrite IH by assumption.
    extensionality x. unfold Xq. f_equal.
    extensionality w. unfold flip, upd, flip_all. simpl.
    apply mem_false in Hq'.
    destruct (wire_eqb_spec w q) as [-> | Hne]; simpl.
    + now rewrite Hq'.
    + reflexivity.
Qed.

Lemma flip_all_invol qs x : flip_all qs (flip_all qs x) = x.
Proof.
  extensionality w. unfold flip_all.
  destruct (mem w qs); [apply negb_involutive | reflexivity].
Qed.

Lemma all_one_flip_all qs x : all_one qs (flip_all qs x) = all_zero qs x.
Proof.
  unfold all_one, all_zero.
  assert (G : forall l, (forall w, In w l -> mem w qs = true) ->
            forallb (flip_all qs x) l = forallb (fun w => negb (x w)) l).
  { induction l as [|w l IH]; intros Hl; simpl; [reflexivity|].
    rewrite IH by (intros; apply Hl; now right).
    unfold flip_all at 1. rewrite Hl by now left. reflexivity. }
  apply G. intros w Hw. now apply mem_In.
Qed.

Lemma controls_hold_ones cs x :
  controls_hold cs (repeat true (length cs)) x = all_one cs x.
Proof.
  unfold controls_hold, all_one.
  induction cs as [|c cs IH]; simpl; [reflexivity|].
  rewrite IH. now destruct (x c).
Qed.

Lemma all_one_app cs t x : all_one (cs ++ [t]) x = all_one cs x && x t.
Proof.
  unfold all_one. rewrite forallb_app. simpl. now rewrite andb_true_r.
Qed.

Lemma controls_hold_upd cs : forall vs x t b,
  ~ In t cs -> controls_hold cs vs (upd x t b) = controls_hold cs vs x.
Proof.
  unfold controls_hold.
  induction cs as [|c cs IH]; intros [|v vs] x t b Ht; simpl; try reflexivity.
  rewrite upd_other by (simpl in Ht; intuition congruence).
  rewrite IH by (simpl in Ht; tauto). reflexivity.
Qed.

Lemma Hq_Mx_Hq cs vs t f :
  ~ In t cs ->
  Hq t (Mx cs vs t (Hq t f))
  = fun x => 2 * (sgn (controls_hold cs vs x && x t) * f x).
Proof.
  intros Ht. extensionality x.
  assert (E : f x = f (upd x t (x t))) by now rewrite upd_id.
  unfold Mx, Hq at 1.
  rewrite !controls_hold_upd by assumption.
  destruct (controls_hold cs vs x).
  - unfold flip, Hq. rewrite !upd_same, !upd_upd. rewrite E. simpl negb.
    destruct (x t); cbn [sgn andb]; lia.
  - unfold Hq. rewrite !upd_same, !upd_upd. rewrite E.
    destruct (x t); cbn [sgn andb]; lia.
Qed.

(** The block X.. H MCX H X.. changes the sign of the part where every
    wire is 0, and doubles the numerators. *)
Lemma middle_block cs t f :
  NoDup (cs ++ [t]) ->
  Xs (cs ++ [t])
     (Hq t (Mx cs (repeat true (length cs)) t (Hq t (Xs (cs ++ [t]) f))))
  = fun x => 2 * f x - 4 * P (cs ++ [t]) f x.
Proof.
  intros Hnd.
  assert (Ht : ~ In t cs).
  { apply NoDup_remove_2 with (l' := @nil W) in Hnd.
    now rewrite app_nil_r in Hnd. }
  rewrite Hq_Mx_Hq by assumption.
  rewrite !Xs_flip_all by assumption.
  extensionality x.
  rewrite flip_all_invol, controls_hold_ones, <- all_one_app.
  rewrite all_one_flip_all. unfold P.
  destruct (all_zero (cs ++ [t]) x); unfold sgn; lia.
Qed.

(** The whole diffuser on numerators: 2^(n+1) f - 4 * (sum of f). *)
Lemma diffuser_operator cs t f :
  NoDup (cs ++ [t]) ->
  Hs (cs ++ [t])
     (Xs (cs ++ [t])
         (Hq t (Mx cs (repeat true (length cs)) t
                   (Hq t (Xs (cs ++ [t]) (Hs (cs ++ [t]) f))))))
  = fun x => 2 ^ Z.of_nat (S (length (cs ++ [t]))) * f x
             - 4 * sum_over (cs ++ [t]) f x.
Proof.
  intros Hnd. rewrite middle_block by assumption.
  rewrite Hs_sub, !Hs_scal, Hs_Hs, Hs_P_Hs by assumption.
  extensionality x. rewrite Nat2Z.inj_succ, Z.pow_succ_r by lia. lia.
Qed.

(** *** Sums over the values of a register *)

Lemma Sq_scal k q f : Sq q (fun x => k * f x) = fun x => k * Sq q f x.
Proof. extensionality x. unfold Sq. lia. Qed.

Lemma Sq_sub q f g :
  Sq q (fun x => f x - g x) = fun x => Sq q f x - Sq q g x.
Proof. extensionality x. unfold Sq. lia. Qed.

Lemma Sq_Sq q f : Sq q (Sq q f) = fun x => 2 * Sq q f x.
Proof.
  extensionality x. unfold Sq. rewrite !upd_upd. lia.
Qed.

Lemma sum_over_idem qs : forall f,
  sum_over qs (sum_over qs f)
  = fun x => 2 ^ Z.of_nat (length qs) * sum_over qs f x.
Proof.
  induction qs as [|q qs IH]; intros f.
  - extensionality x. cbn [sum_over length Z.of_nat]. lia.
  - rewrite !sum_over_cons, <- Sq_sum_over, IH, Sq_scal, Sq_scal.
    extensionality x. rewrite Sq_Sq.
    replace (Z.of_nat (length (q :: qs))) with (Z.succ (Z.of_nat (length qs)))
      by (simpl length; lia).
    rewrite Z.pow_succ_r by lia. lia.
Qed.

Lemma sum_over_lin qs a b f g h :
  (forall x, h x = a * f x + b * g x) ->
  forall x, sum_over qs h x = a * sum_over qs f x + b * sum_over qs g x.
Proof.
  intros Hh. induction qs as [|q qs IH]; intros x; simpl.
  - apply Hh.
  - rewrite !IH. lia.
Qed.

Lemma sum_over_idem_at qs f x :
  sum_over qs (sum_over qs f) x
  = 2 ^ Z.of_nat (length qs) * sum_over qs f x.
Proof. now rewrite sum_over_idem. Qed.

End Operators.

(* ================================================================== *)
(** ** Tapes, loops and amplitudes *)

Section Tapes.
Context {W : Type} `{Wire W}.

Implicit Types (s : @state W) (x : @basis W).

Lemma apply_tape_app (t1 t2 : list (op W)) s :
  apply_tape (t1 ++ t2) s = apply_tape t2 (apply_tape t1 s).
Proof. unfold apply_tape. apply fold_left_app. Qed.

Lemma state_eta s : s = {| scale := scale s; vec := vec s |}.
Proof. now destruct s. Qed.

Lemma state_ext s (k : nat) (v : @basis W -> Z) :
  scale s = k -> (forall x, vec s x = v x) ->
  s = {| scale := k; vec := v |}.
Proof.
  intros Hk Hv. rewrite (state_eta s). f_equal; [assumption|].
  now extensionality x.
Qed.

Lemma for_each_queue {A} (G : A -> op W) (xs : list A) :
  for_each xs (fun a => queue (G a)) = Ok (map G xs).
Proof.
  induction xs as [|a xs IH]; simpl; [reflexivity|].
  now rewrite IH.
Qed.

Lemma apply_tape_Hadamards qs : forall s,
  apply_tape (map Hadamard qs) s
  = {| scale := length qs + scale s; vec := Hs qs (vec s) |}.
Proof.
  induction qs as [|q qs IH]; intros s; simpl.
  - apply state_eta.
  - rewrite IH. simpl. f_equal. lia.
Qed.

Lemma apply_tape_PauliXs qs : forall s,
  apply_tape (map PauliX qs) s
  = {| scale := scale s; vec := Xs qs (vec s) |}.
Proof.
  induction qs as [|q qs IH]; intros s; simpl.
  - apply state_eta.
  - now rewrite IH.
Qed.

Lemma subscript_last {A} (l : list A) (a : A) :
  subscript (l ++ [a]) (-1) = Ok a.
Proof.
  unfold subscript. rewrite length_app. cbn [length].
  change (-1 <? 0) with true. cbv iota.
  set (n := Z.of_nat (length l + 1)).
  assert (Hn : n = Z.of_nat (length l) + 1) by lia.
  replace ((0 <=? -1 + n) && (-1 + n <? n)) with true
    by (symmetry; apply andb_true_iff; split;
        [apply Z.leb_le | apply Z.ltb_lt]; lia).
  replace (Z.to_nat (-1 + n)) with (length l) by lia.
  rewrite nth_error_app2, Nat.sub_diag by lia. reflexivity.
Qed.

(** *** The diffuser of the toy example *)

Definition diffuser_tape (cs : list W) (t : W) : list (op W) :=
  map Hadamard (cs ++ [t]) ++ map PauliX (cs ++ [t])
  ++ [Hadamard t; MultiControlledX cs t (repeat true (length cs)); Hadamard t]
  ++ map PauliX (cs ++ [t]) ++ map Hadamard (cs ++ [t]).

Lemma distinct_app_l (cs more : list W) :
  distinct (cs ++ more) = true -> distinct cs = true.
Proof.
  rewrite !distinct_NoDup. induction cs as [|c cs IH]; cbn [app].
  - constructor.
  - intros Hnd. inversion Hnd as [|? ? Hc Hcs]. constructor.
    + intros Hin. apply Hc, in_or_app. now left.
    + now apply IH.
Qed.

(** The constructor called with control wires and one target. *)
Lemma MultiControlledX_one_target cs t :
  distinct cs = true ->
  qml_MultiControlledX (Some cs) [t] None
  = Ok (MultiControlledX cs t (repeat true (length cs))).
Proof.
  intros Hd. unfold qml_MultiControlledX. rewrite Hd.
  cbn [distinct mem existsb negb andb Py.bind fst snd].
  now rewrite repeat_length, Nat.eqb_refl.
Qed.

Lemma MultiControlledX_repeated_control cs t vs :
  distinct cs = false ->
  qml_MultiControlledX (Some cs) [t] vs = Raise WireError.
Proof.
  intros Hd. unfold qml_MultiControlledX. rewrite Hd. reflexivity.
Qed.

Lemma diffuser_queue cs t :
  distinct (cs ++ [t]) = true ->
  ToyExample.diffuser (cs ++ [t]) = Ok (diffuser_tape cs t).
Proof.
  intros Hd. unfold ToyExample.diffuser.
  rewrite !for_each_queue, subscript_last.
  unfold but_last. rewrite removelast_last.
  cbn [Py.bind]. rewrite MultiControlledX_one_target by now apply distinct_app_l in Hd.
  reflexivity.
Qed.

Lemma diffuser_tape_state cs t s :
  NoDup (cs ++ [t]) ->
  apply_tape (diffuser_tape cs t) s
  = {| scale := scale s + 2 * S (length (cs ++ [t]));
       vec := fun x => 2 ^ Z.of_nat (S (length (cs ++ [t]))) * vec s x
                       - 4 * sum_over (cs ++ [t]) (vec s) x |}.
Proof.
  intros Hnd. unfold diffuser_tape.
  rewrite !apply_tape_app, !apply_tape_Hadamards, !apply_tape_PauliXs.
  cbn [apply_tape fold_left apply scale vec].
  rewrite <- (@diffuser_operator _ _ cs t (vec s) Hnd).
  f_equal. lia.
Qed.

End Tapes.

(* ================================================================== *)
(** ** Real amplitudes *)

Section Amplitudes.
Context {W : Type} `{Wire W}.

Implicit Types (s : @state W) (x : @basis W).

Local Open Scope R_scope.

Lemma sqrt2_pow_neq0 n : sqrt 2 ^ n <> 0.
Proof.
  apply pow_nonzero. intros E.
  apply sqrt_eq_0 in E; lra.
Qed.

Lemma sqrt2_pow_double k : sqrt 2 ^ (2 * k) = 2 ^ k.
Proof.
  rewrite pow_mult. f_equal.
  simpl. rewrite Rmult_1_r. apply sqrt_sqrt. lra.
Qed.

Lemma sqrt2_pow_add n k : sqrt 2 ^ (n + 2 * k) = sqrt 2 ^ n * 2 ^ k.
Proof. now rewrite pow_add, sqrt2_pow_double. Qed.

Lemma IZR_pow2 n : IZR (2 ^ Z.of_nat n) = 2 ^ n.
Proof. now rewrite <- pow_IZR. Qed.

Lemma pow2_neq0 n : 2 ^ n <> 0.
Proof. apply pow_nonzero. lra. Qed.

Lemma amp_rescale s s' k v x :
  scale s' = (scale s + 2 * k)%nat ->
  vec s' x = (2 ^ Z.of_nat k * v)%Z ->
  amp s' x = IZR v / sqrt 2 ^ scale s.
Proof.
  intros Hs Hv. unfold amp.
  rewrite Hs, Hv, sqrt2_pow_add, mult_IZR, IZR_pow2.
  field. split; first [apply pow2_neq0 | apply sqrt2_pow_neq0].
Qed.

Lemma Rsum_over_amp qs s : forall x,
  Rsum_over qs (amp s) x = IZR (sum_over qs (vec s) x) / sqrt 2 ^ scale s.
Proof.
  induction qs as [|q qs IH]; intros x; simpl; [reflexivity|].
  rewrite !IH, plus_IZR. field. apply sqrt2_pow_neq0.
Qed.

(** The component of a state along the uniform superposition of the
    wires [qs]: |psi><psi| applied on those wires. *)
Definition mean_over (qs : list W) s x : R :=
  Rsum_over qs (amp s) x / 2 ^ length qs.

(** On the wires [qs] the state is the uniform superposition. *)
Definition uniform_on (qs : list W) s : Prop :=
  forall x q b, In q qs -> amp s (upd x q b) = amp s x.

(** On the wires [qs] the state is orthogonal to it. *)
Definition orthogonal_to_uniform (qs : list W) s : Prop :=
  forall x, Rsum_over qs (amp s) x = 0.

Lemma uniform_mean qs s :
  uniform_on qs s -> forall x, mean_over qs s x = amp s x.
Proof.
  unfold mean_over. intros Hu.
  assert (G : forall l, incl l qs ->
            forall x, Rsum_over l (amp s) x = 2 ^ length l * amp s x).
  { induction l as [|q l IH]; intros Hl x; simpl; [lra|].
    assert (Hq : In q qs) by (apply Hl; now left).
    rewrite !IH by (intros w Hw; apply Hl; now right).
    rewrite !Hu by assumption. lra. }
  intros x. rewrite G by apply incl_refl.
  field. apply pow2_neq0.
Qed.

(** What it means for a tape [t] to reflect about the uniform
    superposition of [qs], up to the global phase [gamma]. *)
Record reflection_about_uniform (qs : list W) (gamma : R)
       (t : list (op W)) : Prop := {
  refl_formula : forall s x,
    amp (apply_tape t s) x = gamma * (2 * mean_over qs s x - amp s x);
  refl_uniform : forall s,
    uniform_on qs s -> forall x, amp (apply_tape t s) x = gamma * amp s x;
  refl_orthogonal : forall s,
    orthogonal_to_uniform qs s ->
    forall x, amp (apply_tape t s) x = - gamma * amp s x;
  refl_twice : forall s x,
    amp (apply_tape t (apply_tape t s)) x = amp s x
}.

(** The same on numerators: [e] counts the doublings beyond 2^n. *)
Definition diffuses (qs : list W) (gamma : Z) (e : nat)
           (t : list (op W)) : Prop :=
  forall s,
    apply_tape t s
    = {| scale := scale s + 2 * (length qs + e);
         vec := fun x =>
                  (gamma * 2 ^ Z.of_nat e
                   * (2 * sum_over qs (vec s) x
                      - 2 ^ Z.of_nat (length qs) * vec s x))%Z |}.

Lemma diffuses_formula qs gamma e t :
  diffuses qs gamma e t ->
  forall s x,
    amp (apply_tape t s) x
    = IZR gamma * (2 * mean_over qs s x - amp s x).
Proof.
  intros Hd s x. rewrite Hd. unfold mean_over.
  rewrite Rsum_over_amp. unfold amp. cbn [scale vec].
  rewrite sqrt2_pow_add, pow_add.
  rewrite !mult_IZR, minus_IZR, !mult_IZR, !IZR_pow2.
  field. repeat split; first [apply pow2_neq0 | apply sqrt2_pow_neq0].
Qed.

Lemma diffuses_twice qs gamma e t :
  (gamma * gamma = 1)%Z ->
  diffuses qs gamma e t ->
  forall s x, amp (apply_tape t (apply_tape t s)) x = amp s x.
Proof.
  intros Hg Hd s x.
  rewrite (Hd (apply_tape t s)), (Hd s). cbn [scale vec].
  set (n := length qs).
  assert (E : IZR (vec s x) / sqrt 2 ^ scale s = amp s x) by reflexivity.
  rewrite <- E.
  apply amp_rescale with (k := (2 * (n + e))%nat); cbn [scale vec]; [lia|].
  rewrite (@sum_over_lin _ _ qs (2 * gamma * 2 ^ Z.of_nat e)%Z
             (- gamma * 2 ^ Z.of_nat e * 2 ^ Z.of_nat n)%Z
             (sum_over qs (vec s)) (vec s))
    by (intros; ring).
  rewrite sum_over_idem_at. fold n.
  replace (Z.of_nat (2 * (n + e)))
    with (Z.of_nat n + Z.of_nat e + (Z.of_nat n + Z.of_nat e))%Z by lia.
  rewrite !Z.pow_add_r by lia.
  transitivity ((gamma * gamma)
                * (2 ^ Z.of_nat n * 2 ^ Z.of_nat e
                   * (2 ^ Z.of_nat n * 2 ^ Z.of_nat e) * vec s x))%Z;
    [ring | rewrite Hg; ring].
Qed.

Lemma diffuses_reflection qs gamma e t :
  (gamma * gamma = 1)%Z ->
  diffuses qs gamma e t ->
  reflection_about_uniform qs (IZR gamma) t.
Proof.
  intros Hg Hd.
  pose proof (diffuses_formula Hd) as F.
  split.
  - exact F.
  - intros s Hu x. rewrite F, (uniform_mean Hu). ring.
  - intros s Ho x. rewrite F. unfold mean_over. rewrite Ho. field.
    apply pow2_neq0.
  - now apply diffuses_twice with (qs := qs) (gamma := gamma) (e := e).
Qed.

End Amplitudes.

(* ================================================================== *)
(** ** The three diffusers *)

Section RangeFacts.

Lemma range_succ n : 1 <= n -> range n = range (n - 1) ++ [n - 1].
Proof.
  intros Hn. unfold range.
  replace (Z.to_nat n) with (S (Z.to_nat (n - 1))) by lia.
  rewrite seq_S, map_app. simpl. do 2 f_equal. lia.
Qed.

Lemma range_NoDup n : NoDup (range n).
Proof.
  unfold range. apply Injective_map_NoDup.
  - intros a b. apply Nat2Z.inj.
  - apply seq_NoDup.
Qed.

Lemma range_length n : length (range n) = Z.to_nat n.
Proof. unfold range. now rewrite length_map, length_seq. Qed.

Lemma In_range_iff (n i : Z) : In i (range n) <-> 0 <= i < n.
Proof.
  unfold range. rewrite in_map_iff. split.
  - intros (j & <- & Hj). apply in_seq in Hj. lia.
  - intros Hi. exists (Z.to_nat i). split; [lia|]. apply in_seq. lia.
Qed.

End RangeFacts.

Section Diffusers.
Context {W : Type} `{Wire W}.

Lemma split_last_app (cs : list W) t : split_last (cs ++ [t]) = Some (cs, t).
Proof.
  induction cs as [|c cs IH]; [reflexivity|].
  cbn [app split_last]. rewrite IH.
  destruct (cs ++ [t]) eqn:E; [|reflexivity].
  destruct cs; discriminate.
Qed.

Lemma qml_MultiControlledX_wires (cs : list W) t :
  cs <> [] -> distinct (cs ++ [t]) = true ->
  qml_MultiControlledX None (cs ++ [t]) None
  = Ok (MultiControlledX cs t (repeat true (length cs))).
Proof.
  intros Hcs Hd. unfold qml_MultiControlledX.
  rewrite split_last_app.
  destruct cs as [|c cs]; [congruence|].
  assert (E : exists c' r, cs ++ [t] = c' :: r).
  { destruct cs; simpl; eauto. }
  destruct E as (c' & r & E). cbn [app]. rewrite E.
  replace (distinct (c :: cs)) with true
    by (symmetry; apply (distinct_app_l (c :: cs) [t] Hd)).
  cbn [Py.bind fst snd].
  rewrite repeat_length, Nat.eqb_refl. reflexivity.
Qed.

Lemma diffuser_diffuses (cs : list W) t :
  NoDup (cs ++ [t]) -> diffuses (cs ++ [t]) (-1) 1 (diffuser_tape cs t).
Proof.
  intros Hnd s. rewrite diffuser_tape_state by assumption.
  f_equal; [lia|].
  extensionality x. rewrite Nat2Z.inj_succ, Z.pow_succ_r by lia.
  change (2 ^ Z.of_nat 1) with 2. ring.
Qed.

Lemma diffuser_reflection_gen (qubits : list W) :
  distinct qubits = true -> qubits <> [] ->
  exists t, ToyExample.diffuser qubits = Ok t
            /\ reflection_about_uniform qubits (-1) t.
Proof.
  intros Hd Hne.
  destruct (exists_last Hne) as (cs & t & ->).
  exists (diffuser_tape cs t). split.
  - now apply diffuser_queue.
  - apply (diffuses_reflection (gamma := -1) (e := 1)); [reflexivity|].
    apply diffuser_diffuses. now apply distinct_NoDup.
Qed.

End Diffusers.

Section IntroductionDiffusers.

Import Introduction.

Lemma nqubit_diffusion_queue (g : NQubit.globals) :
  2 <= NQubit.n_qubits g ->
  NQubit.diffusion_gates g
  = Ok (diffuser_tape (range (NQubit.n_qubits g - 1)) (NQubit.n_qubits g - 1)).
Proof.
  intros Hn. unfold NQubit.diffusion_gates.
  set (n := NQubit.n_qubits g) in *.
  rewrite !for_each_queue.
  rewrite (range_succ (n := n)) by lia.
  rewrite qml_MultiControlledX_wires.
  - reflexivity.
  - intros E. apply (f_equal (@length Z)) in E.
    rewrite range_length in E. simpl in E. lia.
  - rewrite <- range_succ by lia. apply distinct_NoDup, range_NoDup.
Qed.

Lemma range_nonpos n : n <= 0 -> range n = [].
Proof.
  intros Hn. unfold range. now replace (Z.to_nat n) with 0%nat by lia.
Qed.

(** The n-qubit diffuser needs at least two qubits. *)
Lemma nqubit_diffusion_Ok_inv (g : NQubit.globals) t :
  NQubit.diffusion_gates g = Ok t -> 2 <= NQubit.n_qubits g.
Proof.
  intros Ht. destruct (Z_lt_le_dec (NQubit.n_qubits g) 2) as [Hlt|]; [|lia].
  exfalso. unfold NQubit.diffusion_gates in Ht.
  destruct (Z_le_gt_dec (NQubit.n_qubits g) 0) as [H0|H1].
  - rewrite (range_nonpos H0) in Ht. discriminate.
  - replace (NQubit.n_qubits g) with 1 in Ht by lia. discriminate.
Qed.

Definition Zq (q : Z) (f : @basis Z -> Z) : basis -> Z :=
  fun x => (sgn (x q) * f x)%Z.

Lemma Hq_Zq_comm q q' f : q <> q' -> Hq q (Zq q' f) = Zq q' (Hq q f).
Proof.
  intros Hne. extensionality x. unfold Hq, Zq.
  rewrite !(upd_other _ _ (w := q')) by congruence. ring.
Qed.

Definition two_qubit_diffusion_tape : list (op Z) :=
  [Hadamard 0; PauliZ 0; Hadamard 1; PauliZ 1; CZ 0 1;
   Hadamard 0; Hadamard 1].

Lemma two_qubit_diffusion_queue :
  TwoQubit.diffusion_gates = Ok two_qubit_diffusion_tape.
Proof. reflexivity. Qed.

Lemma two_qubit_diffuses : diffuses [0; 1] 1 0 two_qubit_diffusion_tape.
Proof.
  intros s. unfold two_qubit_diffusion_tape, apply_tape.
  cbn [fold_left apply scale vec]. f_equal; [simpl; lia|].
  change (Hs [0; 1]
            (fun x => sgn (x 0 && x 1)
                      * Zq 1 (Hq 1 (Zq 0 (Hq 0 (vec s)))) x)
          = fun x => 1 * 2 ^ Z.of_nat 0
                     * (2 * sum_over [0; 1] (vec s) x
                        - 2 ^ Z.of_nat (length [0; 1]) * vec s x)).
  assert (E : (fun x => sgn (x 0 && x 1)
                        * Zq 1 (Hq 1 (Zq 0 (Hq 0 (vec s)))) x)
              = fun x => 2 * P [0; 1] (Hs [0; 1] (vec s)) x
                         - Hs [0; 1] (vec s) x).
  { rewrite Hq_Zq_comm by lia.
    change (Hq 1 (Hq 0 (vec s))) with (Hs [0; 1] (vec s)).
    extensionality x. unfold Zq, P, all_zero. cbn [forallb].
    destruct (x 0), (x 1); cbn [sgn andb negb]; lia. }
  etransitivity; [exact (f_equal (Hs [0; 1]) E)|].
  rewrite (Hs_sub [0; 1] (fun x => 2 * P [0; 1] (Hs [0; 1] (vec s)) x)).
  rewrite Hs_scal, Hs_Hs, Hs_P_Hs.
  - extensionality x. simpl length. change (2 ^ Z.of_nat 0) with 1.
    lia.
  - apply (range_NoDup 2).
Qed.

End IntroductionDiffusers.

(* ================================================================== *)
(** ** State preparation *)

Section Devices.
Context {W : Type} `{Wire W}.

(** The device runs an operation exactly when it has the wires and the
    operation can be executed. *)
Lemma refusal_None ws (o : op W) :
  refusal ws o = None <-> on_device ws o = true /\ executable o = true.
Proof.
  unfold refusal, executable.
  destruct o as [w|w|w|a b|a b|cs t vs];
    try (destruct (on_device ws _); intuition congruence).
  destruct (mem t cs); [cbn; intuition congruence|].
  destruct (Nat.eqb (length cs) 0); [cbn; intuition congruence|].
  destruct (on_device ws _); cbn; intuition congruence.
Qed.

Lemma refused_None ws (t : list (op W)) :
  refused ws t = None
  <-> forallb (on_device ws) t = true /\ forallb executable t = true.
Proof.
  induction t as [|o t IH]; cbn [refused forallb]; [tauto|].
  rewrite !andb_true_iff.
  destruct (refusal ws o) eqn:E.
  - split; [discriminate|]. intros [[Ho _] [He _]].
    assert (E' : refusal ws o = None) by now apply refusal_None.
    congruence.
  - apply refusal_None in E. tauto.
Qed.

Lemma refused_app ws (t0 t : list (op W)) :
  refused ws (t0 ++ t)
  = match refused ws t0 with Some e => Some e | None => refused ws t end.
Proof.
  induction t0 as [|o t0 IH]; cbn [app refused]; [reflexivity|].
  now destruct (refusal ws o).
Qed.

Lemma run_accepted ws (t : list (op W)) :
  forallb (on_device ws) t = true -> forallb executable t = true ->
  run ws (Ok t) = Ok (apply_tape t (zero_state ws)).
Proof.
  intros Ho He. unfold run. cbn [Py.bind].
  now rewrite (proj2 (refused_None ws t) (conj Ho He)).
Qed.

Lemma executable_Hadamards (qs : list W) :
  forallb executable (map (@Hadamard W) qs) = true.
Proof. now induction qs. Qed.

Lemma executable_PauliXs (qs : list W) :
  forallb executable (map (@PauliX W) qs) = true.
Proof. now induction qs. Qed.

End Devices.

Section Preparation.
Context {W : Type} `{Wire W}.

Lemma Hq_Pq q (h : @basis W -> Z) :
  Hq q (Pq q h) = fun x => h (upd x q false).
Proof.
  extensionality x. unfold Hq, Pq. rewrite !upd_same. lia.
Qed.

(** Hadamards on a register that is all zero spread it evenly; what the
    rest of the state looks like ([g]) is left alone. *)
Lemma Hs_P (qs : list W) : forall g : @basis W -> Z,
  NoDup qs ->
  (forall x q b, In q qs -> g (upd x q b) = g x) ->
  Hs qs (P qs g) = g.
Proof.
  induction qs as [|q qs IH]; intros g Hnd Hg.
  - extensionality x. reflexivity.
  - inversion Hnd as [|? ? Hq' Hnd']; subst.
    cbn [Hs]. rewrite P_cons, Hq_Pq.
    replace (fun x => P qs g (upd x q false)) with (P qs g).
    + apply IH; [assumption|]. intros x p b Hp. apply Hg. now right.
    + extensionality x. unfold P.
      rewrite all_zero_upd by assumption.
      rewrite Hg by now left. reflexivity.
Qed.

Lemma all_zero_app (l1 l2 : list W) x :
  all_zero (l1 ++ l2) x = all_zero l1 x && all_zero l2 x.
Proof. apply forallb_app. Qed.

(** Hadamards on the wires [qs] of a fresh device [qs ++ rest]. *)
Lemma prepare_register (qs rest : list W) :
  NoDup (qs ++ rest) ->
  apply_tape (map Hadamard qs) (zero_state (qs ++ rest))
  = {| scale := length qs;
       vec := fun x => if all_zero rest x then 1 else 0 |}.
Proof.
  intros Hnd. rewrite apply_tape_Hadamards. cbn [scale vec zero_state].
  f_equal; [lia|].
  rewrite <- (Hs_P (qs := qs) (fun x => if all_zero rest x then 1 else 0)).
  - f_equal. extensionality x. unfold P. rewrite all_zero_app.
    now destruct (all_zero qs x).
  - now apply NoDup_app_remove_r in Hnd.
  - intros x q b Hq. rewrite all_zero_upd; [reflexivity|].
    intros Hin. revert Hq Hin. revert q.
    clear -Hnd. induction qs as [|p qs IH]; intros q Hq Hin; [contradiction|].
    simpl in Hnd. inversion Hnd as [|? ? Hp Hnd']; subst.
    destruct Hq as [-> | Hq].
    + apply Hp. apply in_or_app. now right.
    + now apply (IH Hnd' q).
Qed.

Lemma on_device_Hadamards (ws qs : list W) :
  incl qs ws -> forallb (on_device ws) (map Hadamard qs) = true.
Proof.
  intros Hi. apply forallb_forall. intros o Ho.
  apply in_map_iff in Ho as (q & <- & Hq).
  unfold on_device. simpl. rewrite andb_true_r.
  apply mem_In. now apply Hi.
Qed.

Lemma on_device_PauliXs (ws qs : list W) :
  incl qs ws -> forallb (on_device ws) (map PauliX qs) = true.
Proof.
  intros Hi. apply forallb_forall. intros o Ho.
  apply in_map_iff in Ho as (q & <- & Hq).
  unfold on_device. simpl. rewrite andb_true_r.
  apply mem_In. now apply Hi.
Qed.

(** A device that has the wires of the diffuser runs its circuit, when the
    wires differ and at least one of them controls the gate in the
    middle. *)
Lemma diffuser_tape_wires_on_device ws (cs : list W) t :
  incl (cs ++ [t]) ws -> forallb (on_device ws) (diffuser_tape cs t) = true.
Proof.
  intros Hi.
  assert (Ht : mem t ws = true).
  { apply mem_In, Hi, in_or_app. right. now left. }
  assert (HT : forallb (fun w => mem w ws) (cs ++ [t]) = true).
  { apply forallb_forall. intros w Hw. now apply mem_In, Hi. }
  unfold diffuser_tape. rewrite !forallb_app.
  rewrite !on_device_Hadamards, !on_device_PauliXs by assumption.
  unfold on_device. cbn [forallb op_wires andb].
  now rewrite Ht, HT.
Qed.

Lemma diffuser_tape_executable (cs : list W) t :
  NoDup (cs ++ [t]) -> cs <> [] ->
  forallb executable (diffuser_tape cs t) = true.
Proof.
  intros Hnd Hcs. unfold diffuser_tape. rewrite !forallb_app.
  rewrite !executable_Hadamards, !executable_PauliXs.
  cbn [forallb executable andb].
  replace (mem t cs) with false.
  - destruct cs; [congruence|reflexivity].
  - symmetry. apply mem_false. intros Hin.
    apply NoDup_remove_2 with (l' := []) in Hnd. apply Hnd.
    now rewrite app_nil_r.
Qed.

Lemma diffuser_tape_accepted ws (cs : list W) t :
  incl (cs ++ [t]) ws -> NoDup (cs ++ [t]) -> cs <> [] ->
  refused ws (diffuser_tape cs t) = None.
Proof.
  intros Hi Hnd Hcs. apply refused_None. split.
  - now apply diffuser_tape_wires_on_device.
  - now apply diffuser_tape_executable.
Qed.

End Preparation.

(* ================================================================== *)
(** ** Powers of two as real powers *)

Section RealPowers.
Local Open Scope R_scope.

Lemma sqrt2_pos : 0 < sqrt 2.
Proof. apply sqrt_lt_R0. lra. Qed.

Lemma Rpower_half_nat (k : nat) :
  Rpower 2 (- INR k / 2) = / sqrt 2 ^ k.
Proof.
  replace (- INR k / 2) with (- (/ 2 * INR k)) by field.
  rewrite Rpower_Ropp, <- Rpower_mult, Rpower_sqrt by lra.
  now rewrite Rpower_pow by apply sqrt2_pos.
Qed.

Lemma Rpower_neg_nat (k : nat) : Rpower 2 (- INR k) = / 2 ^ k.
Proof.
  rewrite Rpower_Ropp, Rpower_pow by lra. reflexivity.
Qed.

Lemma IZR_to_nat n : (0 <= n)%Z -> IZR n = INR (Z.to_nat n).
Proof.
  intros Hn. rewrite INR_IZR_INZ, Z2Nat.id by assumption. reflexivity.
Qed.

End RealPowers.

(* ================================================================== *)
(** ** Properties of the notebooks *)

Section StatePreparation.
Import Introduction.
Local Open Scope R_scope.

Lemma uniform_state_amp {W} `{Wire W} (k : nat) (x : @basis W) :
  amp {| scale := k; vec := fun _ => 1%Z |} x = / sqrt 2 ^ k.
Proof. unfold amp. cbn [scale vec]. field. apply sqrt2_pow_neq0. Qed.

Lemma nqubit_preparation_state (g : NQubit.globals) :
  run (NQubit.single_shot_device g) (NQubit.state_preparation_gates g)
  = Ok {| scale := Z.to_nat (NQubit.n_qubits g); vec := fun _ => 1%Z |}.
Proof.
  unfold NQubit.state_preparation_gates, NQubit.single_shot_device.
  rewrite for_each_queue.
  rewrite run_accepted
    by (apply on_device_Hadamards, incl_refl || apply executable_Hadamards).
  pose proof (@prepare_register Z _ (range (NQubit.n_qubits g)) []) as E.
  rewrite app_nil_r in E. rewrite E by apply range_NoDup.
  now rewrite range_length.
Qed.

End StatePreparation.

(* ================================================================== *)
(** ** Classical gates

    [PauliX], [CNOT] and [MultiControlledX] permute the basis states: each
    computes a new value for its target from the old values. *)

Section Classical.
Context {W : Type} `{Wire W}.

Implicit Types (x y : @basis W) (s : @state W).

Definition classical (o : op W) x : basis :=
  match o with
  | PauliX q => upd x q (negb (x q))
  | CNOT c t => upd x t (xorb (x t) (x c))
  | MultiControlledX cs t vs => upd x t (xorb (x t) (controls_hold cs vs x))
  | Hadamard _ | PauliZ _ | CZ _ _ => x
  end.

(** A classical gate the device accepts: its wires exist and the target is
    not among the controls. *)
Definition is_classical (ws : list W) (o : op W) : bool :=
  match o with
  | PauliX q => mem q ws
  | CNOT c t => mem c ws && mem t ws && negb (wire_eqb c t)
  | MultiControlledX cs t vs =>
      forallb (fun c => mem c ws) cs && mem t ws && negb (mem t cs)
  | Hadamard _ | PauliZ _ | CZ _ _ => false
  end.

Definition classical_tape (t : list (op W)) x : basis :=
  fold_left (fun x o => classical o x) t x.

Lemma conditional_flip (c : bool) x t :
  (if c then flip x t else x) = upd x t (xorb (x t) c).
Proof.
  destruct c; unfold flip.
  - now rewrite xorb_true_r.
  - now rewrite xorb_false_r, upd_id.
Qed.

Lemma vec_apply_classical ws o s x :
  is_classical ws o = true ->
  vec (apply o s) x = vec s (classical o x).
Proof.
  destruct o as [q|q|q|c t|c t|cs t vs]; simpl; try discriminate; intros _.
  - reflexivity.
  - now rewrite conditional_flip.
  - now rewrite conditional_flip.
Qed.

Lemma scale_apply_classical ws o s :
  is_classical ws o = true -> scale (apply o s) = scale s.
Proof.
  destruct o as [q|q|q|c t|c t|cs t vs]; simpl; try discriminate;
    reflexivity.
Qed.

Lemma agree_spec ws x y :
  agree ws x y = true <-> forall w, In w ws -> x w = y w.
Proof.
  unfold agree. rewrite forallb_forall. split; intros Ha w Hw.
  - apply eqb_prop. now apply Ha.
  - rewrite (Ha w Hw). apply eqb_reflx.
Qed.

Lemma controls_hold_agree ws cs : forall vs x y,
  (forall w, In w ws -> x w = y w) ->
  forallb (fun c => mem c ws) cs = true ->
  controls_hold cs vs x = controls_hold cs vs y.
Proof.
  unfold controls_hold.
  induction cs as [|c cs IH]; intros [|v vs] x y Ha Hc; simpl; try reflexivity.
  simpl in Hc. apply andb_true_iff in Hc as [Hc1 Hc2].
  rewrite (Ha c) by now apply mem_In.
  now rewrite (IH vs x y Ha Hc2).
Qed.

(** Classical gates are involutions that respect agreement on the device. *)
Lemma classical_involutive ws o x :
  is_classical ws o = true -> classical o (classical o x) = x.
Proof.
  destruct o as [q|q|q|c t|c t|cs t vs]; simpl; try discriminate; intros Hc.
  - rewrite upd_same, upd_upd, negb_involutive. apply upd_id.
  - apply andb_true_iff in Hc as [_ Hne]. apply negb_true_iff in Hne.
    destruct (wire_eqb_spec c t) as [|Hne']; [discriminate|].
    rewrite upd_same, upd_upd, (upd_other _ _ (w := c)) by assumption.
    rewrite xorb_assoc, xorb_nilpotent, xorb_false_r. apply upd_id.
  - apply andb_true_iff in Hc as [_ Hne]. apply negb_true_iff in Hne.
    apply mem_false in Hne.
    rewrite upd_same, upd_upd, controls_hold_upd by assumption.
    rewrite xorb_assoc, xorb_nilpotent, xorb_false_r. apply upd_id.
Qed.

Lemma classical_agree ws o x y :
  is_classical ws o = true ->
  (forall w, In w ws -> x w = y w) ->
  forall w, In w ws -> classical o x w = classical o y w.
Proof.
  destruct o as [q|q|q|c t|c t|cs t vs]; simpl; try discriminate;
    intros Hc Ha w Hw; unfold upd.
  - apply mem_In in Hc.
    destruct (wire_eqb w q); [now rewrite (Ha q Hc) | now apply Ha].
  - apply andb_true_iff in Hc as [Hc _]. apply andb_true_iff in Hc as [Hc Ht].
    apply mem_In in Hc, Ht.
    destruct (wire_eqb w t); [now rewrite (Ha t Ht), (Ha c Hc) | now apply Ha].
  - apply andb_true_iff in Hc as [Hc _]. apply andb_true_iff in Hc as [Hc Ht].
    apply mem_In in Ht.
    destruct (wire_eqb w t); [|now apply Ha].
    now rewrite (Ha t Ht), (@controls_hold_agree ws cs vs x y Ha Hc).
Qed.

Lemma apply_ket ws o x :
  is_classical ws o = true ->
  apply o (ket ws x) = ket ws (classical o x).
Proof.
  intros Hc.
  assert (E : vec (apply o (ket ws x)) = vec (ket ws (classical o x))).
  { extensionality y. rewrite (vec_apply_classical _ _ _ _ Hc).
    cbn [ket vec].
    assert (E : agree ws x (classical o y) = agree ws (classical o x) y).
    { apply eq_true_iff_eq. rewrite !agree_spec. split; intros Ha w Hw.
      - rewrite <- (classical_involutive ws o y Hc).
        now apply (classical_agree ws o _ _ Hc Ha).
      - rewrite <- (classical_involutive ws o x Hc).
        apply (classical_agree ws o _ _ Hc Ha w Hw). }
    now rewrite E. }
  rewrite (state_eta (apply o (ket ws x))).
  rewrite (scale_apply_classical _ _ _ Hc), E. reflexivity.
Qed.

Lemma apply_tape_ket ws (t : list (op W)) : forall x,
  forallb (is_classical ws) t = true ->
  apply_tape t (ket ws x) = ket ws (classical_tape t x).
Proof.
  induction t as [|o t IH]; intros x Hc; [reflexivity|].
  simpl in Hc. apply andb_true_iff in Hc as [Ho Ht].
  simpl. rewrite apply_ket by assumption. now apply IH.
Qed.

(** The same gates on any state: the new amplitude of [x] is the old one
    of the basis state that is sent to [x]. *)
Definition pull (t : list (op W)) x : basis :=
  fold_right classical x t.

Lemma apply_tape_classical ws (t : list (op W)) :
  forallb (is_classical ws) t = true ->
  forall s, apply_tape t s
            = {| scale := scale s; vec := fun x => vec s (pull t x) |}.
Proof.
  induction t as [|o t IH]; intros Hc s.
  - apply state_eta.
  - simpl in Hc. apply andb_true_iff in Hc as [Ho Ht].
    cbn [apply_tape fold_left]. fold (apply_tape t (apply o s)).
    rewrite IH by assumption.
    rewrite (scale_apply_classical _ _ _ Ho). f_equal.
    extensionality x. now rewrite (vec_apply_classical _ _ _ _ Ho).
Qed.

(** Wires outside the device keep their value. *)
Lemma classical_frame ws o x w :
  is_classical ws o = true -> mem w ws = false -> classical o x w = x w.
Proof.
  intros Hc Hw. apply mem_false in Hw.
  destruct o as [q|q|q|c t|c t|cs t vs]; simpl in *; try discriminate.
  - apply mem_In in Hc. apply upd_other. congruence.
  - apply andb_true_iff in Hc as [Hc _]. apply andb_true_iff in Hc as [_ Ht].
    apply mem_In in Ht. apply upd_other. congruence.
  - apply andb_true_iff in Hc as [Hc _]. apply andb_true_iff in Hc as [_ Ht].
    apply mem_In in Ht. apply upd_other. congruence.
Qed.

Lemma classical_tape_frame ws (t : list (op W)) w : forall x,
  forallb (is_classical ws) t = true -> mem w ws = false ->
  classical_tape t x w = x w.
Proof.
  induction t as [|o t IH]; intros x Hc Hw; [reflexivity|].
  simpl in Hc. apply andb_true_iff in Hc as [Ho Ht].
  simpl. rewrite IH by assumption. now apply classical_frame with (ws := ws).
Qed.

Lemma pull_frame ws (t : list (op W)) w x :
  forallb (is_classical ws) t = true -> mem w ws = false ->
  pull t x w = x w.
Proof.
  induction t as [|o t IH]; intros Hc Hw; [reflexivity|].
  simpl in Hc. apply andb_true_iff in Hc as [Ho Ht].
  simpl. rewrite classical_frame with (ws := ws) by assumption. now apply IH.
Qed.

End Classical.

(** Case analysis on every bit of [x] that the goal mentions. *)
Ltac all_bits x :=
  repeat match goal with
         | |- context [x ?q] => destruct (x q)
         end.

(** Two basis states are compared wire by wire: on each wire of the device
    [ws] by evaluation, elsewhere by the frame lemma [Hframe]. *)
Ltac by_wire ws w x Hframe :=
  extensionality w;
  let Hw := fresh "Hw" in
  destruct (mem w ws) eqn:Hw;
  [ apply mem_In in Hw; simpl in Hw;
    repeat (destruct Hw as [<- | Hw]; [vm_compute; all_bits x; reflexivity|]);
    contradiction
  | rewrite Hframe by (assumption || reflexivity);
    symmetry; apply upd_other;
    intros ->; discriminate ].

(* ================================================================== *)
(** ** The toy example: oracle *)

Section ToyOracle.
Import ToyExample.
Local Open Scope string_scope.

Implicit Types (x y : @basis string).

Definition clause_tape : list (op string) :=
  [CNOT "t_0" "c_0"; CNOT "t_1" "c_0";
   CNOT "t_0" "c_1"; CNOT "t_2" "c_1";
   CNOT "t_1" "c_2"; CNOT "t_3" "c_2";
   CNOT "t_2" "c_3"; CNOT "t_3" "c_3"].

Definition oracle_tape : list (op string) :=
  clause_tape
  ++ [MultiControlledX clause_qubits "r_0" [true; true; true; true]]
  ++ clause_tape.

Lemma clause_circuit_queue :
  clause_circuit clause_list tile_qubits clause_qubits = Ok clause_tape.
Proof. reflexivity. Qed.

Lemma oracle_queue :
  oracle clause_list tile_qubits clause_qubits result_qubits = Ok oracle_tape.
Proof. reflexivity. Qed.

(** The value of tile [i]. *)
Definition tile x (i : Z) : bool :=
  match subscript tile_qubits i with
  | Ok t => x t
  | Raise _ => false
  end.

(** Every clause of [clause_list] holds: its two tiles differ. *)
Definition satisfies x : bool :=
  forallb (fun clause =>
             match clause with
             | [i; j] => xorb (tile x i) (tile x j)
             | _ => false
             end) clause_list.

(** What the multi-controlled X of the oracle sees on the clause wires
    when they did not start at zero. *)
Definition checked x : bool :=
  xorb (x "c_0") (xorb (x "t_0") (x "t_1"))
  && xorb (x "c_1") (xorb (x "t_0") (x "t_2"))
  && xorb (x "c_2") (xorb (x "t_1") (x "t_3"))
  && xorb (x "c_3") (xorb (x "t_2") (x "t_3")).

Lemma oracle_tape_classical : forallb (is_classical wires) oracle_tape = true.
Proof. reflexivity. Qed.

Lemma oracle_classical x :
  classical_tape oracle_tape x = upd x "r_0" (xorb (x "r_0") (checked x)).
Proof.
  by_wire wires w x (@classical_tape_frame _ _ wires).
Qed.

Lemma oracle_pull y :
  pull oracle_tape y = upd y "r_0" (xorb (y "r_0") (checked y)).
Proof.
  by_wire wires w y (@pull_frame _ _ wires).
Qed.

Lemma checked_satisfies x :
  all_zero clause_qubits x = true -> checked x = satisfies x.
Proof.
  vm_compute. all_bits x; intros Hz; try discriminate; reflexivity.
Qed.

Lemma satisfies_solutions x :
  satisfies x = true
  <-> map x tile_qubits = [false; true; true; false]
      \/ map x tile_qubits = [true; false; false; true].
Proof.
  vm_compute. all_bits x;
    split; intros Hs; try discriminate; auto;
    destruct Hs; discriminate.
Qed.

End ToyOracle.

(* ================================================================== *)
(** ** Loops over a constant body *)

Section Loops.
Context {W : Type} `{Wire W}.

Lemma for_each_const {A} (xs : list A) (tb : list (op W)) :
  for_each xs (fun _ => Ok tb) = Ok (concat (repeat tb (length xs))).
Proof.
  induction xs as [|a xs IH]; simpl; [reflexivity|].
  now rewrite IH.
Qed.

Lemma times_queue (n : Z) (body : circ W) (tb : list (op W)) :
  body = Ok tb -> times n body = Ok (concat (repeat tb (Z.to_nat n))).
Proof.
  intros ->. unfold times. now rewrite for_each_const, range_length.
Qed.

Lemma then_queue (c1 c2 : circ W) (t1 t2 : list (op W)) :
  c1 = Ok t1 -> c2 = Ok t2 -> (c1 ;; c2) = Ok (t1 ++ t2).
Proof. now intros -> ->. Qed.

Lemma concat_repeat_snoc {A} (l : list A) (n : nat) :
  concat (repeat l (S n)) = concat (repeat l n) ++ l.
Proof.
  induction n as [|n IH]; simpl.
  - now rewrite app_nil_r.
  - simpl in IH. rewrite IH at 1. now rewrite app_assoc.
Qed.

Lemma forallb_concat_repeat {A} (p : A -> bool) (l : list A) (n : nat) :
  forallb p l = true -> forallb p (concat (repeat l n)) = true.
Proof.
  intros Hl. induction n as [|n IH]; simpl; [reflexivity|].
  now rewrite forallb_app, Hl, IH.
Qed.

Lemma sum_over_factor (qs : list W) (k f : @basis W -> Z) :
  (forall x q v, In q qs -> k (upd x q v) = k x) ->
  forall x, sum_over qs (fun y => k y * f y) x = k x * sum_over qs f x.
Proof.
  induction qs as [|q qs IH]; intros Hk x; simpl; [reflexivity|].
  rewrite !IH by (intros; apply Hk; now right).
  rewrite !Hk by now left. lia.
Qed.

Lemma sum_over_const (qs : list W) (c : Z) : forall x : @basis W,
  sum_over qs (fun _ => c) x = 2 ^ Z.of_nat (length qs) * c.
Proof.
  induction qs as [|q qs IH]; intros x.
  - cbn [sum_over length Z.of_nat]. lia.
  - cbn [sum_over]. rewrite !IH.
    replace (Z.of_nat (length (q :: qs))) with (Z.succ (Z.of_nat (length qs)))
      by (simpl length; lia).
    rewrite Z.pow_succ_r by lia. lia.
Qed.

(** Counting the basis states that satisfy [p]. *)
Lemma sum_over_pick (qs : list W) (p : @basis W -> bool) (a b : Z) x :
  sum_over qs (fun y => if p y then a else b) x
  = (a - b) * sum_over qs (fun y => if p y then 1 else 0) x
    + b * 2 ^ Z.of_nat (length qs).
Proof.
  rewrite (@sum_over_lin _ _ qs (a - b) b
             (fun y => if p y then 1 else 0) (fun _ => 1)).
  - rewrite sum_over_const. lia.
  - intros y. destruct (p y); lia.
Qed.

End Loops.

(* ================================================================== *)
(** ** The toy example: Grover iterations *)

Section ToyGrover.
Import ToyExample.
Local Open Scope string_scope.
Local Open Scope list_scope.

Implicit Types (x y : @basis string).

Definition init_tape : list (op string) :=
  map Hadamard tile_qubits ++ [PauliX "r_0"; Hadamard "r_0"].

Definition iteration_tape : list (op string) :=
  oracle_tape ++ diffuser_tape ["t_0"; "t_1"; "t_2"] "t_3".

Lemma init_states_queue :
  init_states tile_qubits result_qubits = Ok init_tape.
Proof. reflexivity. Qed.

Lemma grover_iteration_queue :
  grover_iteration clause_list tile_qubits clause_qubits result_qubits
  = Ok iteration_tape.
Proof. reflexivity. Qed.

Lemma grover_queue :
  grover clause_list tile_qubits clause_qubits result_qubits
  = Ok (init_tape ++ iteration_tape).
Proof. reflexivity. Qed.

Lemma grover_steps_queue (R : nat) :
  grover_steps R clause_list tile_qubits clause_qubits result_qubits
  = Ok (init_tape ++ concat (repeat iteration_tape R)).
Proof.
  unfold grover_steps. apply then_queue; [reflexivity|].
  rewrite (times_queue _ grover_iteration_queue). now rewrite Nat2Z.id.
Qed.

(** The states the iterations pass through: clause wires at zero, the
    result wire in |->, amplitude [a] on the tile values that satisfy the
    clauses and [b] on the others. *)
Definition guard x : Z :=
  if all_zero clause_qubits x then sgn (x "r_0") else 0.

Definition pick (a b : Z) x : Z := if satisfies x then a else b.

Definition shaped (k : nat) (a b : Z) : @state string :=
  {| scale := k; vec := fun x => guard x * pick a b x |}.

Lemma guard_upd_result x v :
  guard (upd x "r_0" v) = if all_zero clause_qubits x then sgn v else 0.
Proof. vm_compute. all_bits x; destruct v; reflexivity. Qed.

Lemma satisfies_upd_result x v : satisfies (upd x "r_0" v) = satisfies x.
Proof. vm_compute. all_bits x; reflexivity. Qed.

Lemma guard_upd_tile x q v : In q tile_qubits -> guard (upd x q v) = guard x.
Proof.
  intros Hq. simpl in Hq.
  repeat (destruct Hq as [<- | Hq]; [vm_compute; all_bits x; reflexivity|]).
  contradiction.
Qed.

Lemma satisfies_upd_ancilla x q v :
  In q (clause_qubits ++ result_qubits) ->
  satisfies (upd x q v) = satisfies x.
Proof.
  intros Hq. simpl in Hq.
  repeat (destruct Hq as [<- | Hq]; [vm_compute; all_bits x; reflexivity|]).
  contradiction.
Qed.

Lemma init_state : apply_tape init_tape (zero_state wires) = shaped 5 1 1.
Proof.
  unfold init_tape. rewrite apply_tape_app.
  change wires with (tile_qubits ++ (clause_qubits ++ result_qubits)).
  rewrite prepare_register by (apply distinct_NoDup; reflexivity).
  unfold shaped. cbn [apply_tape fold_left apply scale vec length tile_qubits].
  f_equal. extensionality x.
  vm_compute. all_bits x; reflexivity.
Qed.

Lemma oracle_shaped k a b :
  apply_tape oracle_tape (shaped k a b) = shaped k (- a) b.
Proof.
  rewrite (apply_tape_classical _ _ oracle_tape_classical).
  unfold shaped. cbn [scale vec]. f_equal.
  extensionality x. rewrite oracle_pull.
  rewrite guard_upd_result. unfold pick. rewrite satisfies_upd_result.
  unfold guard.
  destruct (all_zero clause_qubits x) eqn:E; [|reflexivity].
  rewrite (checked_satisfies _ E).
  destruct (satisfies x), (x "r_0"); cbn [xorb sgn]; lia.
Qed.

Lemma solutions_count x :
  sum_over tile_qubits (fun y => if satisfies y then 1 else 0) x = 2.
Proof. vm_compute. reflexivity. Qed.

Lemma diffuser_shaped k a b :
  apply_tape (diffuser_tape ["t_0"; "t_1"; "t_2"] "t_3") (shaped k a b)
  = shaped (k + 10) (32 * a - 4 * (2 * a + 14 * b))
                    (32 * b - 4 * (2 * a + 14 * b)).
Proof.
  rewrite diffuser_tape_state by (apply distinct_NoDup; reflexivity).
  unfold shaped. cbn [scale vec]. f_equal.
  extensionality x.
  change (["t_0"; "t_1"; "t_2"] ++ ["t_3"]) with tile_qubits.
  rewrite (sum_over_factor tile_qubits guard (pick a b) guard_upd_tile).
  unfold pick at 2. rewrite sum_over_pick, solutions_count.
  change (2 ^ Z.of_nat (S (length tile_qubits))) with 32.
  change (2 ^ Z.of_nat (length tile_qubits)) with 16.
  unfold pick. destruct (satisfies x); ring.
Qed.

Lemma iteration_shaped k a b :
  apply_tape iteration_tape (shaped k a b)
  = shaped (k + 10) (- 24 * a - 56 * b) (8 * a - 24 * b).
Proof.
  unfold iteration_tape.
  rewrite apply_tape_app, oracle_shaped, diffuser_shaped.
  f_equal; ring.
Qed.

(** Numerators after [R] iterations. *)
Fixpoint amplitudes (R : nat) : Z * Z :=
  match R with
  | O => (1, 1)
  | S R' => let (a, b) := amplitudes R' in
            (- 24 * a - 56 * b, 8 * a - 24 * b)
  end.

Lemma steps_state (R : nat) :
  apply_tape (init_tape ++ concat (repeat iteration_tape R)) (zero_state wires)
  = shaped (5 + 10 * R) (fst (amplitudes R)) (snd (amplitudes R)).
Proof.
  induction R as [|R IH].
  - simpl concat. rewrite app_nil_r. apply init_state.
  - rewrite concat_repeat_snoc, app_assoc, apply_tape_app, IH.
    rewrite iteration_shaped. cbn [amplitudes].
    destruct (amplitudes R) as [a b]. cbn [fst snd]. f_equal. lia.
Qed.

Lemma steps_on_device (R : nat) :
  forallb (on_device device) (init_tape ++ concat (repeat iteration_tape R))
  = true.
Proof.
  rewrite forallb_app. apply andb_true_iff. split; [reflexivity|].
  apply forallb_concat_repeat. reflexivity.
Qed.

Lemma run_steps (R : nat) :
  run device
      (grover_steps R clause_list tile_qubits clause_qubits result_qubits)
  = Ok (shaped (5 + 10 * R) (fst (amplitudes R)) (snd (amplitudes R))).
Proof.
  rewrite grover_steps_queue.
  rewrite run_accepted; [f_equal; apply steps_state | apply steps_on_device |].
  rewrite forallb_app. apply andb_true_iff. split; [reflexivity|].
  apply forallb_concat_repeat. reflexivity.
Qed.

(** *** What [execute] samples on the tile wires *)

Lemma unsampled_tiles :
  unsampled device tile_qubits = clause_qubits ++ result_qubits.
Proof. reflexivity. Qed.

Lemma guard_square_sum x :
  sum_over (clause_qubits ++ result_qubits) (fun y => guard y * guard y) x = 2.
Proof. vm_compute. reflexivity. Qed.

Lemma weight_shaped k a b x :
  weight (shaped k a b) (clause_qubits ++ result_qubits) x
  = 2 * (pick a b x * pick a b x).
Proof.
  unfold weight, shaped. cbn [vec].
  replace (fun y => guard y * pick a b y * (guard y * pick a b y))
    with (fun y => (pick a b y * pick a b y) * (guard y * guard y))
    by (extensionality y; ring).
  rewrite (sum_over_factor (clause_qubits ++ result_qubits)
             (fun y => pick a b y * pick a b y)
             (fun y => guard y * guard y)).
  - rewrite guard_square_sum. ring.
  - intros y q v Hq. unfold pick.
    now rewrite satisfies_upd_ancilla by assumption.
Qed.

(** The two solutions as outcomes on the tile wires. *)
Definition solution_0110 : @basis string :=
  of_bits tile_qubits [false; true; true; false].
Definition solution_1001 : @basis string :=
  of_bits tile_qubits [true; false; false; true].

Definition success_probability (d : @basis string -> R) : R :=
  (d solution_0110 + d solution_1001)%R.

Lemma execute_steps (R : nat) :
  execute (grover_steps R clause_list tile_qubits clause_qubits result_qubits)
          tile_qubits
  = Ok (probability
          (shaped (5 + 10 * R) (fst (amplitudes R)) (snd (amplitudes R)))
          (clause_qubits ++ result_qubits)).
Proof.
  unfold execute, qnode. rewrite run_steps. cbn [Py.bind].
  now rewrite unsampled_tiles.
Qed.

Lemma success_shaped k a b :
  success_probability (probability (shaped k a b)
                                   (clause_qubits ++ result_qubits))
  = (4 * (IZR a * IZR a) / 2 ^ k)%R.
Proof.
  unfold success_probability, probability. rewrite !weight_shaped.
  cbn [scale shaped].
  change (pick a b solution_0110) with a.
  change (pick a b solution_1001) with a.
  rewrite !mult_IZR. field. apply pow2_neq0.
Qed.

End ToyGrover.

(* ================================================================== *)
(** ** The closed form of the success probability *)

Section ClosedForm.
Local Open Scope R_scope.

(** [N] basis states, [M] solutions. *)
Definition grover_angle (N M : R) : R := acos (sqrt ((N - M) / N)).

Definition theta : R := grover_angle 16 2.

Lemma cos_theta_sqr : cos theta * cos theta = 7 / 8.
Proof.
  unfold theta, grover_angle.
  assert (H0 : 0 <= (16 - 2) / 16) by lra.
  assert (H1 : sqrt ((16 - 2) / 16) <= 1).
  { rewrite <- sqrt_1. apply sqrt_le_1; lra. }
  pose proof (sqrt_pos ((16 - 2) / 16)) as H2.
  rewrite cos_acos by lra.
  rewrite sqrt_sqrt by assumption. lra.
Qed.

Lemma sin_theta_sqr : sin theta * sin theta = 1 / 8.
Proof.
  pose proof (sin2_cos2 theta) as E. unfold Rsqr in E.
  pose proof cos_theta_sqr. lra.
Qed.

Lemma amplitudes_closed_form (R : nat) :
  let a := IZR (fst (amplitudes R)) / 32 ^ R in
  let b := IZR (snd (amplitudes R)) / 32 ^ R in
  a * sin theta = (-1) ^ R * sin ((2 * INR R + 1) * theta)
  /\ b * cos theta = (-1) ^ R * cos ((2 * INR R + 1) * theta).
Proof.
  induction R as [|R IH].
  - simpl. split.
    + replace ((2 * 0 + 1) * theta) with theta by ring. field.
    + replace ((2 * 0 + 1) * theta) with theta by ring. field.
  - cbn zeta in IH |- *. destruct IH as [IHa IHb].
    cbn [amplitudes]. destruct (amplitudes R) as [a b]. cbn [fst snd] in *.
    set (u := IZR a / 32 ^ R) in *. set (v := IZR b / 32 ^ R) in *.
    set (phi := (2 * INR R + 1) * theta) in *.
    set (e := (-1) ^ R) in *.
    assert (He : e * e = 1).
    { unfold e. rewrite <- Rpow_mult_distr.
      replace (-1 * -1) with 1 by ring. apply pow1. }
    assert (Hs : sin phi = e * (u * sin theta)).
    { rewrite IHa, <- Rmult_assoc, He. ring. }
    assert (Hc : cos phi = e * (v * cos theta)).
    { rewrite IHb, <- Rmult_assoc, He. ring. }
    assert (Hu : IZR (-24 * a - 56 * b) / 32 ^ S R
                 = - (3 / 4) * u - (7 / 4) * v).
    { unfold u, v. rewrite minus_IZR, !mult_IZR. simpl pow. field.
      apply pow_nonzero. lra. }
    assert (Hv : IZR (8 * a - 24 * b) / 32 ^ S R = u / 4 - (3 / 4) * v).
    { unfold u, v. rewrite minus_IZR, !mult_IZR. simpl pow. field.
      apply pow_nonzero. lra. }
    rewrite Hu, Hv.
    replace ((2 * INR (S R) + 1) * theta) with (phi + 2 * theta)
      by (unfold phi; rewrite S_INR; ring).
    rewrite sin_plus, cos_plus, sin_2a, cos_2a, Hs, Hc.
    pose proof cos_theta_sqr as HC. pose proof sin_theta_sqr as HS.
    set (st := sin theta) in *. set (ct := cos theta) in *.
    replace ((-1) ^ S R) with (- e) by (unfold e; simpl; ring).
    split.
    + transitivity (- (e * e) * (u * st * (ct * ct - st * st)
                                 + 2 * v * st * (ct * ct))); [|ring].
      rewrite He, HC, HS. field.
    + transitivity (- (e * e) * (v * ct * (ct * ct - st * st)
                                 - 2 * u * ct * (st * st))); [|ring].
      rewrite He, HC, HS. field.
Qed.

Lemma success_closed_form (R : nat) :
  4 * (IZR (fst (amplitudes R)) * IZR (fst (amplitudes R)))
  / 2 ^ (5 + 10 * R)
  = (sin ((2 * INR R + 1) * theta)) ^ 2.
Proof.
  destruct (amplitudes_closed_form R) as [Ha _]. cbn zeta in Ha.
  set (a := IZR (fst (amplitudes R))) in *.
  assert (He : (-1) ^ R * (-1) ^ R = 1).
  { rewrite <- Rpow_mult_distr.
    replace (-1 * -1) with 1 by ring. apply pow1. }
  assert (Hp : 2 ^ (5 + 10 * R) = 32 * (32 ^ R * 32 ^ R)).
  { rewrite pow_add. replace (10 * R)%nat with (5 * R + 5 * R)%nat by lia.
    rewrite pow_add, pow_mult. replace (2 ^ 5) with 32 by (simpl; ring).
    ring. }
  assert (H32 : 32 ^ R <> 0) by (apply pow_nonzero; lra).
  pose proof sin_theta_sqr as HS.
  transitivity ((a / 32 ^ R * sin theta) * (a / 32 ^ R * sin theta)).
  - rewrite Hp.
    transitivity (a / 32 ^ R * (a / 32 ^ R) * (sin theta * sin theta));
      [|ring].
    rewrite HS. field. assumption.
  - rewrite Ha.
    transitivity ((-1) ^ R * (-1) ^ R
                  * (sin ((2 * INR R + 1) * theta)) ^ 2); [ring|].
    rewrite He. ring.
Qed.

End ClosedForm.

(* ================================================================== *)
(** ** The oracles of the introduction *)

Section IntroductionOracles.
Import Introduction.

Implicit Types (x y : @basis Z).

(** The factor an oracle with solution [bits] puts on the basis state [x]. *)
Definition oracle_sign (ws : list Z) (bits : list bool) x : Z :=
  if agree ws x (of_bits ws bits) then -1 else 1.

Definition four_qubit_oracle_tape : list (op Z) :=
  [Hadamard 3; MultiControlledX [0; 1; 2] 3 [true; false; false]; Hadamard 3].

Lemma two_qubit_oracle_vec x y :
  vec (apply_tape [CZ 0 1] (ket (range 2) x)) y
  = oracle_sign (range 2) [true; true] x * vec (ket (range 2) x) y.
Proof. vm_compute. all_bits x; all_bits y; reflexivity. Qed.

Lemma four_qubit_oracle_vec x y :
  vec (apply_tape four_qubit_oracle_tape (ket (range 4) x)) y
  = 2 ^ Z.of_nat 1
    * (oracle_sign (range 4) [true; false; false; true] x
       * vec (ket (range 4) x) y).
Proof.
  unfold four_qubit_oracle_tape, apply_tape.
  cbn [fold_left apply vec].
  match goal with
  | |- _ = ?rhs =>
      change (Hq 3 (Mx [0; 1; 2] [true; false; false] 3
                       (Hq 3 (vec (ket (range 4) x)))) y = rhs)
  end.
  rewrite Hq_Mx_Hq by (simpl; lia).
  vm_compute. all_bits x; all_bits y; reflexivity.
Qed.

Lemma amp_ket ws x y :
  amp (ket ws x) y = if agree ws x y then 1%R else 0%R.
Proof.
  unfold amp. cbn [ket scale vec].
  destruct (agree ws x y); simpl; field.
Qed.

End IntroductionOracles.

(* ================================================================== *)
(** ** The iteration count *)

Section IterationCount.
Import Introduction.
Local Open Scope R_scope.

(** The optimal number of iterations for [N] states and [M] solutions. *)
Definition optimal_iterations (N M : R) : R := PI / 4 * sqrt (N / M) - 1 / 2.

Lemma PI_bounds :
  3141592653589 / 1000000000000 < PI < 3141592653590 / 1000000000000.
Proof.
  destruct (PI_2_3_7_ineq 6) as [Hl Hu].
  unfold sum_f_R0, tg_alt, PI_2_3_7_tg, Ratan_seq in Hl, Hu.
  simpl in Hl, Hu. split; lra.
Qed.

Lemma sqrt2_bounds :
  1414213562373 / 1000000000000 < sqrt 2 < 1414213562374 / 1000000000000.
Proof.
  split.
  - rewrite <- (sqrt_square (1414213562373 / 1000000000000)) by lra.
    apply sqrt_lt_1_alt. lra.
  - rewrite <- (sqrt_square (1414213562374 / 1000000000000)) by lra.
    apply sqrt_lt_1_alt. lra.
Qed.

Lemma powerRZ_2 (m : Z) : (0 <= m)%Z -> powerRZ 2 m = IZR (2 ^ m).
Proof.
  intros Hm. rewrite <- (Z2Nat.id m) at 1 by assumption.
  rewrite <- pow_powerRZ, pow_IZR. now rewrite Z2Nat.id.
Qed.

Lemma sqrt_even_power (m : Z) :
  (0 <= m)%Z -> sqrt (powerRZ 2 (2 * m)) = IZR (2 ^ m).
Proof.
  intros Hm. replace (2 * m)%Z with (m + m)%Z by lia.
  rewrite powerRZ_add by lra. rewrite powerRZ_2 by assumption.
  apply sqrt_square. apply IZR_le. lia.
Qed.

Lemma sqrt_odd_power (m : Z) :
  (0 <= m)%Z -> sqrt (powerRZ 2 (2 * m + 1)) = sqrt 2 * IZR (2 ^ m).
Proof.
  intros Hm. rewrite powerRZ_add by lra.
  rewrite Rmult_comm, sqrt_mult.
  - rewrite sqrt_even_power by assumption. f_equal. f_equal. simpl. ring.
  - simpl. lra.
  - apply powerRZ_le. lra.
Qed.

(** An integer test that [k] is the ceiling of the optimal count for
    [2^n] states and one solution, from bounds on pi and the root of 2 to
    twelve digits. *)
Definition is_count (n k : Z) : bool :=
  let m := (n / 2)%Z in
  if Z.even n
  then ((3141592653590 * 2 ^ m <=? (4 * k + 2) * 1000000000000)
        && ((4 * k - 2) * 1000000000000 <=? 3141592653589 * 2 ^ m))%Z
  else ((3141592653590 * 1414213562374 * 2 ^ m
         <=? (4 * k + 2) * (1000000000000 * 1000000000000))
        && ((4 * k - 2) * (1000000000000 * 1000000000000)
            <=? 3141592653589 * 1414213562373 * 2 ^ m))%Z.

Lemma is_count_sound (n k : Z) :
  (0 <= n)%Z -> is_count n k = true ->
  IZR k - 1 < optimal_iterations (powerRZ 2 n) 1 <= IZR k.
Proof.
  intros Hn Hc. unfold is_count in Hc.
  pose proof PI_bounds as [Hpl Hpu]. pose proof sqrt2_bounds as [Hsl Hsu].
  set (m := (n / 2)%Z) in *.
  assert (Hm : (0 <= m)%Z) by (apply Z.div_pos; lia).
  assert (HP : 0 < IZR (2 ^ m)) by (apply IZR_lt; lia).
  unfold optimal_iterations. replace (powerRZ 2 n / 1) with (powerRZ 2 n) by field.
  destruct (Z.even n) eqn:Ev.
  - assert (En : n = (2 * m)%Z).
    { pose proof (Zmod_even n) as E. rewrite Ev in E. cbv iota in E.
      pose proof (Z_div_mod_eq_full n 2) as E2. rewrite E in E2.
      unfold m. exact E2 || (rewrite Z.add_0_r in E2; exact E2). }
    rewrite En, sqrt_even_power by assumption.
    apply andb_true_iff in Hc. destruct Hc as [Hu Hl].
    apply Z.leb_le, IZR_le in Hu. apply Z.leb_le, IZR_le in Hl.
    rewrite ?mult_IZR, ?plus_IZR, ?minus_IZR, ?mult_IZR in Hu.
    rewrite ?mult_IZR, ?plus_IZR, ?minus_IZR, ?mult_IZR in Hl.
    set (P := IZR (2 ^ m)) in *. set (K := IZR k) in *.
    assert (H1 : PI * P <= 3141592653590 / 1000000000000 * P)
      by (apply Rmult_le_compat_r; lra).
    assert (H2 : 3141592653589 / 1000000000000 * P < PI * P)
      by (apply Rmult_lt_compat_r; lra).
    split; lra.
  - assert (En : n = (2 * m + 1)%Z).
    { pose proof (Zmod_even n) as E. rewrite Ev in E. cbv iota in E.
      pose proof (Z_div_mod_eq_full n 2) as E2. rewrite E in E2.
      unfold m. exact E2 || (rewrite Z.add_0_r in E2; exact E2). }
    rewrite En, sqrt_odd_power by assumption.
    apply andb_true_iff in Hc. destruct Hc as [Hu Hl].
    apply Z.leb_le, IZR_le in Hu. apply Z.leb_le, IZR_le in Hl.
    rewrite ?mult_IZR, ?plus_IZR, ?minus_IZR, ?mult_IZR in Hu.
    rewrite ?mult_IZR, ?plus_IZR, ?minus_IZR, ?mult_IZR in Hl.
    set (P := IZR (2 ^ m)) in *. set (K := IZR k) in *.
    assert (Hx1 : PI * sqrt 2
                  < 3141592653590 / 1000000000000
                    * (1414213562374 / 1000000000000))
      by (apply Rmult_le_0_lt_compat; lra).
    assert (Hx2 : 3141592653589 / 1000000000000
                    * (1414213562373 / 1000000000000) < PI * sqrt 2)
      by (apply Rmult_le_0_lt_compat; lra).
    assert (H1 : PI * sqrt 2 * P
                 <= 3141592653590 / 1000000000000
                    * (1414213562374 / 1000000000000) * P)
      by (apply Rmult_le_compat_r; lra).
    assert (H2 : 3141592653589 / 1000000000000
                    * (1414213562373 / 1000000000000) * P
                 < PI * sqrt 2 * P)
      by (apply Rmult_lt_compat_r; lra).
    split; lra.
Qed.

Lemma iterations_cell_checked :
  forallb (fun n => match NQubit.iterations_cell n with
                    | Ok k => is_count n k
                    | Raise _ => false
                    end) (range 64) = true.
Proof. vm_compute. reflexivity. Qed.

Lemma iterations_cell_count (n : Z) :
  (0 <= n <= 63)%Z ->
  exists k, NQubit.iterations_cell n = Ok k
            /\ IZR k - 1 < optimal_iterations (powerRZ 2 n) 1 <= IZR k.
Proof.
  intros Hn.
  pose proof (proj1 (forallb_forall _ _) iterations_cell_checked n) as Hc.
  cbv beta in Hc.
  destruct (NQubit.iterations_cell n) as [k|e].
  - exists k. split; [reflexivity|]. apply is_count_sound; [lia|].
    apply Hc, In_range_iff. lia.
  - discriminate Hc. apply In_range_iff. lia.
Qed.

Lemma iterations_cell_TypeError (n : Z) :
  (64 <= n)%Z -> NQubit.iterations_cell n = Raise TypeError.
Proof.
  intros Hn. unfold NQubit.iterations_cell, NQubit.two_pow.
  now replace (64 <=? n)%Z with true by (symmetry; apply Z.leb_le; lia).
Qed.

Lemma iterations_cell_4 : NQubit.iterations_cell 4 = Ok 3%Z.
Proof. vm_compute. reflexivity. Qed.


Lemma ldexp_below (f : PrimFloat.float) (n : Z) :
  (n <= -2200)%Z -> Z.ldexp f n = Z.ldexp f (-2200).
Proof.
  intros Hn. unfold Z.ldexp. f_equal. f_equal. f_equal.
  change (emax - emin)%Z with 2098%Z. change (emin - emax - 1)%Z with (-2099)%Z.
  lia.
Qed.

Lemma iterations_cell_negative_checked :
  forallb (fun i => match NQubit.iterations_cell (- i) with
                    | Ok k => true
                    | Raise _ => false
                    end) (range 2201) = true.
Proof. vm_compute. reflexivity. Qed.

Lemma iterations_cell_returns (n : Z) :
  (n < 64)%Z <-> exists k, NQubit.iterations_cell n = Ok k.
Proof.
  split.
  - intros Hn. destruct (Z_le_gt_dec 0 n) as [H0|H0].
    + destruct (@iterations_cell_count n) as (k & Hk & _); [lia|]. now exists k.
    + assert (E : NQubit.iterations_cell n
                  = NQubit.iterations_cell (- Z.min (- n) 2200)).
      { unfold NQubit.iterations_cell, NQubit.two_pow.
        replace (64 <=? n)%Z with false by (symmetry; apply Z.leb_gt; lia).
        replace (64 <=? - Z.min (- n) 2200)%Z with false
          by (symmetry; apply Z.leb_gt; lia).
        destruct (Z_le_gt_dec n (-2200)).
        - rewrite ldexp_below by assumption.
          now replace (- Z.min (- n) 2200)%Z with (-2200)%Z by lia.
        - now replace (- Z.min (- n) 2200)%Z with n by lia. }
      rewrite E.
      pose proof (proj1 (forallb_forall _ _) iterations_cell_negative_checked
                        (Z.min (- n) 2200)) as Hc.
      cbv beta in Hc.
      destruct (NQubit.iterations_cell (- Z.min (- n) 2200)) as [k|e].
      * now exists k.
      * discriminate Hc. apply In_range_iff. lia.
  - intros (k & Hk). destruct (Z_lt_le_dec n 64) as [|Hn]; [assumption|].
    rewrite iterations_cell_TypeError in Hk by assumption. discriminate.
Qed.
Lemma notebook_globals_eq :
  NQubit.notebook_globals
  = {| NQubit.n_qubits := 4; NQubit.grover_iterations := 3 |}.
Proof. vm_compute. reflexivity. Qed.

End IterationCount.

(* ================================================================== *)
(** ** Where failures come from *)

Section FailuresOfNotebooks.
Context {W : Type} `{Wire W}.
Import ToyExample.

(** [diffuser] raises [IndexError] exactly on the empty list. *)
Lemma diffuser_IndexError (qubits : list W) :
  diffuser qubits = Raise IndexError <-> qubits = [].
Proof.
  split.
  - intros He. destruct qubits as [|q qs]; [reflexivity|]. exfalso.
    assert (Hne : q :: qs <> []) by discriminate.
    destruct (exists_last Hne) as (cs & t & E). rewrite E in He.
    unfold diffuser in He.
    rewrite !for_each_queue, subscript_last in He.
    unfold but_last in He. rewrite removelast_last in He.
    cbn [Py.bind] in He.
    destruct (distinct cs) eqn:Hd.
    + rewrite MultiControlledX_one_target in He by assumption. discriminate.
    + rewrite MultiControlledX_repeated_control in He by assumption.
      discriminate.
  - intros ->. reflexivity.
Qed.

End FailuresOfNotebooks.

(* ================================================================== *)
(** ** The shape of a Grover circuit *)

(** State preparation once, then [k] times the oracle followed by the
    diffuser. *)
Definition pipeline {W} (prep orc dif : list (op W)) (k : nat) : list (op W) :=
  prep ++ concat (repeat (orc ++ dif) k).

(* ================================================================== *)
(** ** The stated properties *)

Section Properties.
Import Introduction ToyExample.
Local Open Scope string_scope.
Local Open Scope list_scope.

(** C3.  The oracle leaves every basis state that is not the solution as it
    is and multiplies the solution by -1: the CZ oracle of the two-qubit
    example with solution 11, and the oracle of the four-qubit example with
    solution 1001. *)
Theorem oracle_marks_solution :
  (exists t, TwoQubit.oracle_gates = Ok t
     /\ forall x y,
          amp (apply_tape t (ket (range 2) x)) y
          = (IZR (if x 0 && x 1 then -1 else 1)%Z
             * amp (ket (range 2) x) y)%R)
  /\ (forall g, NQubit.n_qubits g = 4 ->
      exists t, NQubit.oracle_gates g = Ok t
        /\ forall x y,
             amp (apply_tape t (ket (range 4) x)) y
             = (IZR (if x 0 && negb (x 1) && negb (x 2) && x 3
                     then -1 else 1)%Z
                * amp (ket (range 4) x) y)%R).
Proof.
  split.
  - exists [CZ 0 1]. split; [reflexivity|]. intros x y.
    unfold amp at 1. rewrite two_qubit_oracle_vec.
    replace (oracle_sign (range 2) [true; true] x)
      with (if x 0 && x 1 then -1 else 1)
      by (vm_compute; all_bits x; reflexivity).
    unfold amp. cbn [apply_tape fold_left apply scale ket vec].
    rewrite mult_IZR. field; try apply sqrt2_pow_neq0.
  - intros [n k] Hn. cbn [NQubit.n_qubits] in Hn. subst n.
    exists four_qubit_oracle_tape. split; [reflexivity|]. intros x y.
    rewrite (@amp_rescale _ (ket (range 4) x)
               (apply_tape four_qubit_oracle_tape (ket (range 4) x))
               1%nat _ _ eq_refl
               (four_qubit_oracle_vec x y)).
    replace (oracle_sign (range 4) [true; false; false; true] x)
      with (if x 0 && negb (x 1) && negb (x 2) && x 3 then -1 else 1)
      by (vm_compute; all_bits x; reflexivity).
    unfold amp. rewrite mult_IZR. field; try apply sqrt2_pow_neq0.
Qed.

Lemma oracle_marks_solution_witness :
  NQubit.n_qubits NQubit.notebook_globals = 4
  /\ exists t, NQubit.oracle_gates NQubit.notebook_globals = Ok t
       /\ forall x y,
            amp (apply_tape t (ket (range 4) x)) y
            = (IZR (if x 0 && negb (x 1) && negb (x 2) && x 3
                    then -1 else 1)%Z
               * amp (ket (range 4) x) y)%R.
Proof.
  split; [reflexivity|].
  apply (proj2 oracle_marks_solution NQubit.notebook_globals). reflexivity.
Defined.

(** C4.  Each diffuser reflects about the uniform superposition of its
    wires, up to a global phase: its circuit applies
    gamma * (2|psi><psi| - I), with gamma = -1 for [diffuser] and the
    n-qubit [diffusion_gates] and gamma = 1 for the two-qubit
    [diffusion_gates].  So the uniform superposition is multiplied by gamma,
    states orthogonal to it by -gamma, and applying the diffuser twice gives
    the state back.  [diffuser] does so for every list of at least two
    different wires: it queues a circuit, a device with these wires runs
    every gate of it, and the circuit is the reflection.  The n-qubit
    [diffusion_gates] queues a circuit exactly from two qubits on.  Two
    wires are needed: on a single wire [diffuser] queues a controlled gate
    without control wire, which the device refuses with [ValueError]. *)
Theorem diffusers_reflect_about_uniform :
  (forall (W : Type) (HW : Wire W) (qubits : list W),
      distinct qubits = true -> (2 <= length qubits)%nat ->
      exists t, diffuser qubits = Ok t
                /\ refused qubits t = None
                /\ reflection_about_uniform qubits (-1) t)
  /\ (forall g,
        (2 <= NQubit.n_qubits g -> exists t, NQubit.diffusion_gates g = Ok t)
        /\ (forall t, NQubit.diffusion_gates g = Ok t ->
                      reflection_about_uniform
                        (range (NQubit.n_qubits g)) (-1) t))
  /\ (exists t, TwoQubit.diffusion_gates = Ok t
                /\ reflection_about_uniform (range 2) 1 t)
  /\ (forall (W : Type) (HW : Wire W) (a : W),
        exists t, diffuser [a] = Ok t /\ refused [a] t = Some ValueError).
Proof.
  split; [|split; [|split]]; cycle 3.
  { intros W HW a. eexists. split; [reflexivity|].
    cbn [app refused refusal on_device op_wires forallb mem existsb
         length Nat.eqb].
    rewrite wire_eqb_refl. reflexivity. }
  - intros W HW qubits Hd Hlen.
    assert (Hne : qubits <> []) by (intros ->; simpl in Hlen; lia).
    destruct (exists_last Hne) as (cs & t & ->).
    exists (diffuser_tape cs t). split; [now apply diffuser_queue|]. split.
    + apply diffuser_tape_accepted.
      * apply incl_refl.
      * now apply distinct_NoDup.
      * intros ->. simpl in Hlen. lia.
    + apply (diffuses_reflection (gamma := -1) (e := 1)); [reflexivity|].
      apply diffuser_diffuses. now apply distinct_NoDup.
  - intros g.
    assert (G : 2 <= NQubit.n_qubits g ->
                reflection_about_uniform
                  (range (NQubit.n_qubits g)) (-1)
                  (diffuser_tape (range (NQubit.n_qubits g - 1))
                                 (NQubit.n_qubits g - 1))).
    { intros Hn. rewrite (range_succ (n := NQubit.n_qubits g)) by lia.
      apply (diffuses_reflection (gamma := -1) (e := 1)); [reflexivity|].
      apply diffuser_diffuses.
      rewrite <- range_succ by lia. apply range_NoDup. }
    split.
    + intros Hn. eexists. now apply nqubit_diffusion_queue.
    + intros t Ht. pose proof (nqubit_diffusion_Ok_inv _ Ht) as Hn.
      rewrite (nqubit_diffusion_queue _ Hn) in Ht. inversion Ht. now apply G.
  - exists two_qubit_diffusion_tape. split; [reflexivity|].
    apply (diffuses_reflection (gamma := 1) (e := 0)); [reflexivity|].
    apply two_qubit_diffuses.
Qed.

Lemma diffusers_reflect_about_uniform_witness :
  distinct tile_qubits = true /\ (2 <= length tile_qubits)%nat
  /\ (exists t, diffuser tile_qubits = Ok t
                /\ refused tile_qubits t = None
                /\ reflection_about_uniform tile_qubits (-1) t)
  /\ 2 <= NQubit.n_qubits NQubit.notebook_globals
  /\ (exists t, NQubit.diffusion_gates NQubit.notebook_globals = Ok t
                /\ reflection_about_uniform
                     (range (NQubit.n_qubits NQubit.notebook_globals))
                     (-1) t).
Proof.
  split; [reflexivity|]. split; [simpl; lia|].
  split.
  - apply (proj1 diffusers_reflect_about_uniform string _ tile_qubits);
      [reflexivity | simpl; lia].
  - split; [rewrite notebook_globals_eq; simpl; lia|].
    destruct (proj1 (proj2 diffusers_reflect_about_uniform)
                    NQubit.notebook_globals) as [Hq Hr].
    destruct Hq as (t & Ht); [rewrite notebook_globals_eq; simpl; lia|].
    exists t. split; [exact Ht|]. now apply Hr.
Defined.

(** C9.  In the two-qubit example the state after state preparation, the
    CZ oracle and one diffuser is exactly the basis state 11 (with global
    phase 1), and the single shot returns 11 with probability exactly 1. *)
Theorem two_qubit_grover_exact :
  exists s d,
    run TwoQubit.single_shot_device TwoQubit.grover_gates = Ok s
    /\ (forall y, amp s y = if y 0 && y 1 then 1%R else 0%R)
    /\ TwoQubit.grover_circuit = Ok d
    /\ d (of_bits (range 2) [true; true]) = 1%R
    /\ (forall y, y 0 && y 1 = false -> d y = 0%R).
Proof.
  assert (E : run TwoQubit.single_shot_device TwoQubit.grover_gates
              = Ok {| scale := 6;
                      vec := fun y => if y 0 && y 1 then 8 else 0 |}).
  { unfold run. cbn [TwoQubit.grover_gates Py.bind].
    change (Ok (apply_tape
                  [Hadamard 0; Hadamard 1; CZ 0 1; Hadamard 0; PauliZ 0;
                   Hadamard 1; PauliZ 1; CZ 0 1; Hadamard 0; Hadamard 1]
                  (zero_state (range 2)))
            = Ok {| scale := 6;
                    vec := fun y => if y 0 && y 1 then 8 else 0 |}).
    f_equal. apply state_ext; [reflexivity|]. intros y.
    vm_compute. all_bits y; reflexivity. }
  assert (P6 : (sqrt 2 ^ 6 = 8)%R).
  { change 6%nat with (2 * 3)%nat. rewrite sqrt2_pow_double. simpl. ring. }
  eexists. eexists. split; [exact E|]. split; [|split; [|split]].
  - intros y. unfold amp. cbn [scale vec]. rewrite P6.
    destruct (y 0 && y 1); field.
  - unfold TwoQubit.grover_circuit, qnode. rewrite E. reflexivity.
  - unfold probability, weight. cbn [scale vec].
    change (unsampled TwoQubit.single_shot_device TwoQubit.single_shot_device)
      with (@nil Z).
    cbn [sum_over].
    replace (of_bits (range 2) [true; true] 0) with true by reflexivity.
    replace (of_bits (range 2) [true; true] 1) with true by reflexivity.
    simpl. field.
  - intros y Hy. unfold probability, weight. cbn [scale vec].
    change (unsampled TwoQubit.single_shot_device TwoQubit.single_shot_device)
      with (@nil Z).
    cbn [sum_over]. rewrite Hy. simpl. field.
Qed.

Lemma two_qubit_grover_exact_witness :
  exists s d,
    run TwoQubit.single_shot_device TwoQubit.grover_gates = Ok s
    /\ amp s (of_bits (range 2) [true; true]) = 1%R
    /\ TwoQubit.grover_circuit = Ok d
    /\ d (of_bits (range 2) [true; true]) = 1%R
    /\ (of_bits (range 2) [false; true] 0 && of_bits (range 2) [false; true] 1
        = false)
    /\ d (of_bits (range 2) [false; true]) = 0%R.
Proof.
  destruct two_qubit_grover_exact as (s & d & Hs & Ha & Hd & H1 & H0).
  exists s, d. split; [exact Hs|].
  split; [exact (Ha (of_bits (range 2) [true; true]))|].
  split; [exact Hd|]. split; [exact H1|]. split; [reflexivity|].
  apply H0. reflexivity.
Defined.

(** C10.  For every number of qubits n >= 1 the state preparation maps
    |0..0> to the state in which each of the 2^n basis states has amplitude
    2^(-n/2), so every outcome has probability exactly 2^(-n).  The same
    holds for the two-qubit state preparation and for the tile wires after
    [init_states]. *)
Theorem state_preparation_uniform :
  (forall g, 1 <= NQubit.n_qubits g ->
     exists s,
       run (NQubit.single_shot_device g) (NQubit.state_preparation_gates g)
       = Ok s
       /\ forall x,
            amp s x = Rpower 2 (- IZR (NQubit.n_qubits g) / 2)
            /\ probability s [] x = Rpower 2 (- IZR (NQubit.n_qubits g)))
  /\ (exists s,
        run (range 2) TwoQubit.state_preparation_gates = Ok s
        /\ forall x, amp s x = Rpower 2 (- 2 / 2)
                      /\ probability s [] x = Rpower 2 (- 2))
  /\ (exists d,
        execute (init_states tile_qubits result_qubits) tile_qubits = Ok d
        /\ forall x, d x = Rpower 2 (- 4)).
Proof.
  assert (G : forall g, 0 <= NQubit.n_qubits g ->
     exists s,
       run (NQubit.single_shot_device g) (NQubit.state_preparation_gates g)
       = Ok s
       /\ forall x,
            amp s x = Rpower 2 (- IZR (NQubit.n_qubits g) / 2)
            /\ probability s [] x = Rpower 2 (- IZR (NQubit.n_qubits g))).
  { intros g Hn. eexists. split; [apply nqubit_preparation_state|].
    intros x. rewrite (IZR_to_nat Hn).
    rewrite Rpower_half_nat, Rpower_neg_nat. split.
    - apply uniform_state_amp.
    - unfold probability, weight. cbn [sum_over scale vec]. simpl IZR.
      field. apply pow2_neq0. }
  split; [|split].
  - intros g Hn. apply G. lia.
  - destruct (G {| NQubit.n_qubits := 2; NQubit.grover_iterations := 0 |})
      as (s & Hs & Hx); [simpl; lia|].
    exists s. split; [exact Hs|]. exact Hx.
  - eexists. split.
    + unfold execute, qnode. rewrite init_states_queue.
      rewrite run_accepted by reflexivity. cbn [Py.bind].
      change (zero_state device) with (zero_state wires).
      rewrite init_state, unsampled_tiles. reflexivity.
    + intros x. unfold probability. rewrite weight_shaped.
      cbn [scale shaped].
      replace (pick 1 1 x) with 1 by (unfold pick; now destruct (satisfies x)).
      replace (-4)%R with (- INR 4)%R by (simpl; ring).
      rewrite Rpower_neg_nat. simpl. field.
Qed.

Lemma state_preparation_uniform_witness :
  1 <= NQubit.n_qubits NQubit.notebook_globals
  /\ exists s,
       run (NQubit.single_shot_device NQubit.notebook_globals)
           (NQubit.state_preparation_gates NQubit.notebook_globals)
       = Ok s
       /\ forall x,
            amp s x = Rpower 2 (- IZR 4 / 2)
            /\ probability s [] x = Rpower 2 (- IZR 4).
Proof.
  split; [rewrite notebook_globals_eq; simpl; lia|].
  apply (proj1 state_preparation_uniform NQubit.notebook_globals).
  rewrite notebook_globals_eq. simpl. lia.
Defined.

(** C8.  On a basis state whose clause wires are 0 the oracle changes the
    result wire only: the clause wires are 0 again, the tile wires keep
    their values, and the result wire is flipped exactly when the tiles
    satisfy every clause, that is for 0110 and 1001. *)
Theorem oracle_restores_ancillas :
  exists t,
    oracle clause_list tile_qubits clause_qubits result_qubits = Ok t
    /\ (forall x, all_zero clause_qubits x = true ->
          exists x',
            apply_tape t (ket wires x) = ket wires x'
            /\ x' = upd x "r_0" (xorb (x "r_0") (satisfies x))
            /\ all_zero clause_qubits x' = true
            /\ map x' tile_qubits = map x tile_qubits
            /\ x' "r_0" = xorb (x "r_0") (satisfies x))
    /\ (forall x,
          satisfies x = true
          <-> map x tile_qubits = [false; true; true; false]
              \/ map x tile_qubits = [true; false; false; true]).
Proof.
  exists oracle_tape. split; [reflexivity|]. split.
  - intros x Hz.
    exists (upd x "r_0" (xorb (x "r_0") (satisfies x))).
    split; [|split; [reflexivity|split; [|split]]].
    + rewrite apply_tape_ket by apply oracle_tape_classical.
      rewrite oracle_classical, checked_satisfies by assumption.
      reflexivity.
    + rewrite all_zero_upd; [assumption|].
      simpl. intuition discriminate.
    + reflexivity.
    + apply upd_same.
  - apply satisfies_solutions.
Qed.

Lemma oracle_restores_ancillas_witness :
  all_zero clause_qubits solution_0110 = true
  /\ exists t,
       oracle clause_list tile_qubits clause_qubits result_qubits = Ok t
       /\ apply_tape t (ket wires solution_0110)
          = ket wires (upd solution_0110 "r_0" true).
Proof.
  split; [reflexivity|].
  destruct oracle_restores_ancillas as (t & Ht & Hx & _).
  exists t. split; [exact Ht|].
  destruct (Hx solution_0110 eq_refl) as (x' & Hk & Hx' & _).
  rewrite Hk, Hx'. reflexivity.
Defined.

(** C1.  For the 2x2 grid (N = 2^4 = 16 basis states, M = 2 solutions 0110
    and 1001) the probability that the Grover circuit with [R] iterations
    samples a solution on the tile wires is
    sin^2((2R+1) * arccos(sqrt((N-M)/N))); for the one iteration of
    [grover] this is 25/32, about 78.1%. *)
Theorem grover_success_probability :
  (forall R : nat,
      exists d,
        execute (grover_steps R clause_list tile_qubits clause_qubits
                              result_qubits) tile_qubits = Ok d
        /\ success_probability d
           = ((sin ((2 * INR R + 1) * acos (sqrt ((16 - 2) / 16)))) ^ 2)%R)
  /\ (exists d,
        execute (grover clause_list tile_qubits clause_qubits result_qubits)
                tile_qubits = Ok d
        /\ success_probability d
           = ((sin ((2 * 1 + 1) * acos (sqrt ((16 - 2) / 16)))) ^ 2)%R
        /\ success_probability d = (25 / 32)%R
        /\ (Rabs (success_probability d - 781 / 1000) < 1 / 1000)%R)
  /\ (2 ^ length tile_qubits = 16)%nat
  /\ (forall x,
        sum_over tile_qubits (fun y => if satisfies y then 1 else 0) x = 2).
Proof.
  assert (G : forall R : nat,
      exists d,
        execute (grover_steps R clause_list tile_qubits clause_qubits
                              result_qubits) tile_qubits = Ok d
        /\ success_probability d
           = ((sin ((2 * INR R + 1) * acos (sqrt ((16 - 2) / 16)))) ^ 2)%R
        /\ success_probability d
           = (4 * (IZR (fst (amplitudes R)) * IZR (fst (amplitudes R)))
              / 2 ^ (5 + 10 * R))%R).
  { intros R. eexists. split; [apply execute_steps|].
    rewrite success_shaped. split; [|reflexivity].
    apply success_closed_form. }
  split; [|split; [|split]].
  - intros R. destruct (G R) as (d & Hd & Hs & _). now exists d.
  - destruct (G 1%nat) as (d & Hd & Hs & Hv). exists d.
    assert (E : success_probability d = (25 / 32)%R).
    { rewrite Hv. simpl. field. }
    split; [exact Hd|]. split; [exact Hs|]. split; [exact E|].
    rewrite E. apply Rabs_def1; lra.
  - reflexivity.
  - apply solutions_count.
Qed.

(** C2, as stated for every n, fails from 64 qubits on.  The optimal count
    has a ceiling there (3373259426 for n = 64), but the cell that computes
    the number of iterations ends with [TypeError], numpy's square root
    having no loop for a Python integer of more than 64 bits, and assigns
    nothing: [grover_iterations] keeps the value it had. *)
Lemma iterations_cell_fails_from_64_qubits :
  NQubit.iterations_cell 64 = Raise TypeError
  /\ (IZR 3373259426 - 1 < optimal_iterations (powerRZ 2 64) 1
      <= IZR 3373259426)%R
  /\ NQubit.grover_iterations
       (NQubit.assign_grover_iterations
          (NQubit.assign_n_qubits 64 NQubit.notebook_globals))
     = 3.
Proof.
  split; [reflexivity|]. split.
  - apply is_count_sound; [lia | vm_compute; reflexivity].
  - rewrite notebook_globals_eq. reflexivity.
Qed.

(** C2, amended.  For every number of qubits [n] from 0 to 63, the number
    of iterations the cell computes, on binary64 numbers as numpy does, is
    the ceiling of (pi/4) sqrt(2^n) - 1/2, the optimal count for N = 2^n
    and M = 1: it is the one integer [k] with
    k - 1 < (pi/4) sqrt(2^n) - 1/2 <= k.  From 64 on the cell ends with
    [TypeError].  For n = 4 the count is 3, and the circuit of the
    notebook repeats oracle and diffuser three times. *)
Theorem grover_iterations_count :
  (forall n, optimal_iterations (powerRZ 2 n) 1
             = (PI / 4 * sqrt (powerRZ 2 n) - 1 / 2)%R)
  /\ (forall n, 0 <= n <= 63 ->
        exists k, NQubit.iterations_cell n = Ok k
                  /\ (IZR k - 1 < optimal_iterations (powerRZ 2 n) 1
                       <= IZR k)%R)
  /\ (forall n, 64 <= n -> NQubit.iterations_cell n = Raise TypeError)
  /\ NQubit.iterations_cell 4 = Ok 3
  /\ NQubit.grover_iterations NQubit.notebook_globals = 3
  /\ exists prep orc dif,
       NQubit.state_preparation_gates NQubit.notebook_globals = Ok prep
       /\ NQubit.oracle_gates NQubit.notebook_globals = Ok orc
       /\ NQubit.diffusion_gates NQubit.notebook_globals = Ok dif
       /\ NQubit.grover_gates NQubit.notebook_globals
          = Ok (pipeline prep orc dif 3).
Proof.
  split; [|split; [|split; [|split; [|split]]]].
  - intros n. unfold optimal_iterations.
    now replace (powerRZ 2 n / 1)%R with (powerRZ 2 n) by field.
  - intros n Hn. now apply iterations_cell_count.
  - intros n Hn. now apply iterations_cell_TypeError.
  - apply iterations_cell_4.
  - now rewrite notebook_globals_eq.
  - rewrite notebook_globals_eq.
    do 3 eexists. split; [reflexivity|]. split; [reflexivity|].
    split; [reflexivity|].
    unfold NQubit.grover_gates, pipeline.
    apply then_queue; [reflexivity|].
    rewrite times_queue
      with (tb := four_qubit_oracle_tape ++ diffuser_tape (range 3) 3)
      by reflexivity.
    reflexivity.
Qed.

Lemma grover_iterations_count_witness :
  0 <= 5 <= 63
  /\ exists k, NQubit.iterations_cell 5 = Ok k
               /\ (IZR k - 1 < optimal_iterations (powerRZ 2 5) 1
                    <= IZR k)%R.
Proof.
  split; [lia|].
  apply (proj1 (proj2 grover_iterations_count) 5). lia.
Defined.

(** C5.  Every Grover circuit is state preparation once, then a fixed
    number of iterations, each one oracle followed by one diffuser; the
    QNode runs this once from |0..0> and samples the final state. *)
Theorem grover_circuits_are_pipelines :
  (exists prep orc dif,
      TwoQubit.state_preparation_gates = Ok prep
      /\ TwoQubit.oracle_gates = Ok orc
      /\ TwoQubit.diffusion_gates = Ok dif
      /\ TwoQubit.grover_gates = Ok (pipeline prep orc dif 1)
      /\ TwoQubit.grover_circuit
         = Ok (probability
                 (apply_tape (pipeline prep orc dif 1)
                             (zero_state TwoQubit.single_shot_device)) []))
  /\ (forall g, NQubit.n_qubits g = 4 ->
      exists prep orc dif,
        NQubit.state_preparation_gates g = Ok prep
        /\ NQubit.oracle_gates g = Ok orc
        /\ NQubit.diffusion_gates g = Ok dif
        /\ NQubit.grover_gates g
           = Ok (pipeline prep orc dif
                          (Z.to_nat (NQubit.grover_iterations g)))
        /\ NQubit.grover_circuit g
           = Ok (probability
                   (apply_tape
                      (pipeline prep orc dif
                                (Z.to_nat (NQubit.grover_iterations g)))
                      (zero_state (NQubit.single_shot_device g))) []))
  /\ (exists prep orc dif,
        init_states tile_qubits result_qubits = Ok prep
        /\ oracle clause_list tile_qubits clause_qubits result_qubits = Ok orc
        /\ diffuser tile_qubits = Ok dif
        /\ grover clause_list tile_qubits clause_qubits result_qubits
           = Ok (pipeline prep orc dif 1)
        /\ execute (grover clause_list tile_qubits clause_qubits
                            result_qubits) tile_qubits
           = Ok (probability
                   (apply_tape (pipeline prep orc dif 1) (zero_state device))
                   (clause_qubits ++ result_qubits))).
Proof.
  split; [|split].
  - do 3 eexists. repeat (split; [reflexivity|]). reflexivity.
  - intros [n k] Hn. cbn [NQubit.n_qubits] in Hn. subst n.
    do 3 eexists. split; [reflexivity|]. split; [reflexivity|].
    split; [reflexivity|].
    assert (E : NQubit.grover_gates
                  {| NQubit.n_qubits := 4; NQubit.grover_iterations := k |}
                = Ok (pipeline
                        [Hadamard 0; Hadamard 1; Hadamard 2; Hadamard 3]
                        four_qubit_oracle_tape
                        (diffuser_tape (range 3) 3) (Z.to_nat k))).
    { unfold NQubit.grover_gates, pipeline. apply then_queue; [reflexivity|].
      now apply times_queue. }
    split; [exact E|].
    unfold NQubit.grover_circuit, qnode. rewrite E.
    rewrite run_accepted; [reflexivity| |];
      unfold pipeline; rewrite forallb_app;
      rewrite forallb_concat_repeat by reflexivity; reflexivity.
  - do 3 eexists. repeat (split; [reflexivity|]). reflexivity.
Qed.

Lemma grover_circuits_are_pipelines_witness :
  NQubit.n_qubits NQubit.notebook_globals = 4
  /\ exists prep orc dif,
       NQubit.grover_gates NQubit.notebook_globals
       = Ok (pipeline prep orc dif
                      (Z.to_nat (NQubit.grover_iterations
                                   NQubit.notebook_globals))).
Proof.
  split; [reflexivity|].
  destruct (proj1 (proj2 grover_circuits_are_pipelines)
                  NQubit.notebook_globals eq_refl)
    as (prep & orc & dif & _ & _ & _ & Hg & _).
  now exists prep, orc, dif.
Defined.



End Properties.

(* ================================================================== *)
(** ** The toy example for any clause list

    Task 2 asks to change the clause list and the wires; the functions of
    Task 1 are kept.  What follows holds for every clause list. *)

Section AnyClauses.
Context {W : Type} `{Wire W}.
Import ToyExample.

Implicit Types (x y : @basis W) (s : @state W).

(** The two tiles a clause names, looked up in the order of
    [clause_circuit]. *)
Definition resolve_clause (tile_qubits : list W) (clause : list Z)
  : res (W * W) :=
  let* c0 := subscript clause 0 in
  let* t0 := subscript tile_qubits c0 in
  let* c1 := subscript clause 1 in
  let* t1 := subscript tile_qubits c1 in
  Ok (t0, t1).

Fixpoint resolve_clauses (tile_qubits : list W) (clauses : list (list Z))
  : res (list (W * W)) :=
  match clauses with
  | [] => Ok []
  | clause :: rest =>
      let* p := resolve_clause tile_qubits clause in
      let* ps := resolve_clauses tile_qubits rest in
      Ok (p :: ps)
  end.

(** Two CNOTs per clause, onto the clause wire of the same position. *)
Fixpoint cnots (pairs : list (W * W)) (cs : list W) : list (op W) :=
  match pairs, cs with
  | (a, b) :: ps, c :: cs' => CNOT a c :: CNOT b c :: cnots ps cs'
  | _, _ => []
  end.

Lemma executable_cnots (pairs : list (W * W)) (cs : list W) :
  forallb executable (cnots pairs cs) = true.
Proof.
  revert cs. induction pairs as [|[a b] ps IH]; intros [|c cs];
    try reflexivity.
  cbn [cnots forallb executable andb]. apply IH.
Qed.

Lemma subscript_In {A} (l : list A) (i : Z) (a : A) :
  subscript l i = Ok a -> In a l.
Proof.
  unfold subscript. destruct (_ && _); [|discriminate].
  destruct (nth_error _ _) eqn:E; [|discriminate].
  intros Ha. inversion Ha. subst. eapply nth_error_In. exact E.
Qed.

Lemma subscript_nth {A} (pre post : list A) (c : A) :
  subscript (pre ++ c :: post) (Z.of_nat (length pre)) = Ok c.
Proof.
  unfold subscript. rewrite length_app. cbn [length].
  set (k := Z.of_nat (length pre)).
  replace (k <? 0) with false by (symmetry; apply Z.ltb_ge; lia).
  replace ((0 <=? k) && (k <? Z.of_nat (length pre + S (length post))))
    with true
    by (symmetry; apply andb_true_iff; split;
        [apply Z.leb_le | apply Z.ltb_lt]; lia).
  unfold k. rewrite Nat2Z.id, nth_error_app2, Nat.sub_diag by lia.
  reflexivity.
Qed.

Lemma subscript_beyond {A} (l : list A) (k : nat) :
  (length l <= k)%nat -> subscript l (Z.of_nat k) = Raise IndexError.
Proof.
  intros Hk. unfold subscript.
  replace (Z.of_nat k <? 0) with false by (symmetry; apply Z.ltb_ge; lia).
  replace (Z.of_nat k <? Z.of_nat (length l)) with false
    by (symmetry; apply Z.ltb_ge; lia).
  now rewrite andb_false_r.
Qed.

Lemma subscript_head {A} (a : A) (l : list A) : subscript (a :: l) 0 = Ok a.
Proof. exact (subscript_nth [] l a). Qed.

Lemma subscript_second {A} (a b : A) (l : list A) :
  subscript (a :: b :: l) 1 = Ok b.
Proof. exact (subscript_nth [a] l b). Qed.

Lemma xor_queue (a b o : W) (more_inputs more_outputs : list W) :
  a <> o -> b <> o ->
  xor (a :: b :: more_inputs) (o :: more_outputs) = Ok [CNOT a o; CNOT b o].
Proof.
  intros Ha Hb. unfold xor, qml_CNOT, two_wires.
  rewrite !subscript_head, subscript_second.
  cbn [Py.bind]. now rewrite (wire_eqb_neq Ha), (wire_eqb_neq Hb).
Qed.

Lemma resolve_clause_In tile_qubits clause a b :
  resolve_clause tile_qubits clause = Ok (a, b) ->
  In a tile_qubits /\ In b tile_qubits.
Proof.
  unfold resolve_clause.
  destruct (subscript clause 0) as [c0|]; [|discriminate]. cbn [Py.bind].
  destruct (subscript tile_qubits c0) as [t0|] eqn:E0; [|discriminate].
  cbn [Py.bind].
  destruct (subscript clause 1) as [c1|]; [|discriminate]. cbn [Py.bind].
  destruct (subscript tile_qubits c1) as [t1|] eqn:E1; [|discriminate].
  cbn [Py.bind]. intros E. inversion E. subst.
  split; eapply subscript_In; eassumption.
Qed.

Lemma resolve_clauses_In tile_qubits : forall clauses pairs,
  resolve_clauses tile_qubits clauses = Ok pairs ->
  forall p, In p pairs -> In (fst p) tile_qubits /\ In (snd p) tile_qubits.
Proof.
  induction clauses as [|clause rest IH]; intros pairs Hr p Hp.
  - inversion Hr. subst. contradiction.
  - cbn [resolve_clauses] in Hr.
    destruct (resolve_clause tile_qubits clause) as [[a b]|] eqn:E;
      [|discriminate].
    cbn [Py.bind] in Hr.
    destruct (resolve_clauses tile_qubits rest) as [ps|]; [|discriminate].
    cbn [Py.bind] in Hr. inversion Hr. subst.
    destruct Hp as [<- | Hp].
    + now apply resolve_clause_In with (clause := clause).
    + now apply (IH ps).
Qed.

Lemma resolve_clauses_length tile_qubits : forall clauses pairs,
  resolve_clauses tile_qubits clauses = Ok pairs ->
  length pairs = length clauses.
Proof.
  induction clauses as [|clause rest IH]; intros pairs Hr.
  - now inversion Hr.
  - cbn [resolve_clauses] in Hr.
    destruct (resolve_clause tile_qubits clause); [|discriminate].
    cbn [Py.bind] in Hr.
    destruct (resolve_clauses tile_qubits rest) as [ps|]; [|discriminate].
    cbn [Py.bind] in Hr. inversion Hr. simpl. now rewrite (IH ps).
Qed.

(** The loop of [clause_circuit] from position [length pre] on. *)
Lemma clause_loop_queue tile_qubits : forall clauses pairs pre post,
  resolve_clauses tile_qubits clauses = Ok pairs ->
  (length pairs <= length post)%nat ->
  (forall q c, In q tile_qubits -> In c post -> q <> c) ->
  clause_loop clauses tile_qubits (pre ++ post) (Z.of_nat (length pre))
  = Ok (cnots pairs post).
Proof.
  induction clauses as [|clause rest IH]; intros pairs pre post Hr Hl Hd.
  - inversion Hr. reflexivity.
  - cbn [resolve_clauses] in Hr.
    destruct (resolve_clause tile_qubits clause) as [[a b]|] eqn:E;
      [|discriminate].
    cbn [Py.bind] in Hr.
    destruct (resolve_clauses tile_qubits rest) as [ps|] eqn:Er;
      [|discriminate].
    cbn [Py.bind] in Hr. inversion Hr. subst pairs.
    destruct post as [|c post]; [simpl in Hl; lia|].
    destruct (resolve_clause_In _ _ E) as [Ha Hb].
    cbn [clause_loop cnots].
    unfold resolve_clause in E.
    destruct (subscript clause 0) as [c0|]; [|discriminate].
    cbn [Py.bind] in E |- *.
    destruct (subscript tile_qubits c0) as [t0|]; [|discriminate].
    cbn [Py.bind] in E |- *.
    destruct (subscript clause 1) as [c1|]; [|discriminate].
    cbn [Py.bind] in E |- *.
    destruct (subscript tile_qubits c1) as [t1|]; [|discriminate].
    cbn [Py.bind] in E |- *. inversion E. subst t0 t1.
    rewrite subscript_nth. cbn [Py.bind].
    rewrite xor_queue by (apply Hd; simpl; auto).
    replace (Z.of_nat (length pre) + 1) with (Z.of_nat (length (pre ++ [c])))
      by (rewrite length_app; simpl; lia).
    replace (pre ++ c :: post) with ((pre ++ [c]) ++ post)
      by (now rewrite <- app_assoc).
    rewrite (IH ps (pre ++ [c]) post eq_refl).
    + reflexivity.
    + simpl in Hl. lia.
    + intros q c' Hq Hc'. apply Hd; simpl; auto.
Qed.

(** With fewer clause wires than clauses the loop ends in [IndexError]. *)
Lemma clause_loop_short tile_qubits : forall clauses pairs pre post,
  resolve_clauses tile_qubits clauses = Ok pairs ->
  (length post < length pairs)%nat ->
  (forall q c, In q tile_qubits -> In c post -> q <> c) ->
  clause_loop clauses tile_qubits (pre ++ post) (Z.of_nat (length pre))
  = Raise IndexError.
Proof.
  induction clauses as [|clause rest IH]; intros pairs pre post Hr Hl Hd.
  - inversion Hr. subst. simpl in Hl. lia.
  - cbn [resolve_clauses] in Hr.
    destruct (resolve_clause tile_qubits clause) as [[a b]|] eqn:E;
      [|discriminate].
    cbn [Py.bind] in Hr.
    destruct (resolve_clauses tile_qubits rest) as [ps|] eqn:Er;
      [|discriminate].
    cbn [Py.bind] in Hr. inversion Hr. subst pairs.
    destruct (resolve_clause_In _ _ E) as [Ha Hb].
    cbn [clause_loop].
    unfold resolve_clause in E.
    destruct (subscript clause 0) as [c0|]; [|discriminate].
    cbn [Py.bind] in E |- *.
    destruct (subscript tile_qubits c0) as [t0|]; [|discriminate].
    cbn [Py.bind] in E |- *.
    destruct (subscript clause 1) as [c1|]; [|discriminate].
    cbn [Py.bind] in E |- *.
    destruct (subscript tile_qubits c1) as [t1|]; [|discriminate].
    cbn [Py.bind] in E |- *. inversion E. subst t0 t1.
    destruct post as [|c post].
    + rewrite app_nil_r, subscript_beyond by lia. reflexivity.
    + rewrite subscript_nth. cbn [Py.bind].
      rewrite xor_queue by (apply Hd; simpl; auto).
      replace (Z.of_nat (length pre) + 1)
        with (Z.of_nat (length (pre ++ [c])))
        by (rewrite length_app; simpl; lia).
      replace (pre ++ c :: post) with ((pre ++ [c]) ++ post)
        by (now rewrite <- app_assoc).
      rewrite (IH ps (pre ++ [c]) post eq_refl).
      * reflexivity.
      * simpl in Hl. lia.
      * intros q c' Hq Hc'. apply Hd; simpl; auto.
Qed.

End AnyClauses.

(* ================================================================== *)
(** ** What the clause circuit computes *)

Section ClauseMaps.
Context {W : Type} `{Wire W}.

Implicit Types (x y : @basis W) (s : @state W).

(** A clause holds when its two tiles differ. *)
Definition holds x (p : W * W) : bool := xorb (x (fst p)) (x (snd p)).

Definition all_hold (pairs : list (W * W)) x : bool :=
  forallb (holds x) pairs.

(** What the CNOTs of [cnots pairs cs] add to wire [w]. *)
Fixpoint parity (pairs : list (W * W)) (cs : list W) x (w : W) : bool :=
  match pairs, cs with
  | p :: ps, c :: cs' =>
      xorb (if wire_eqb w c then holds x p else false) (parity ps cs' x w)
  | _, _ => false
  end.

Definition clause_map (pairs : list (W * W)) (cs : list W) x : basis :=
  fun w => xorb (x w) (parity pairs cs x w).

(** No clause wire is a tile of a clause. *)
Definition apart (pairs : list (W * W)) (cs : list W) : Prop :=
  forall p, In p pairs -> ~ In (fst p) cs /\ ~ In (snd p) cs.

Lemma apart_cons p ps c cs :
  apart (p :: ps) (c :: cs) ->
  fst p <> c /\ snd p <> c /\ ~ In (fst p) cs /\ ~ In (snd p) cs
  /\ apart ps cs /\ (forall q, In q ps -> fst q <> c /\ snd q <> c).
Proof.
  intros Ha. destruct (Ha p (or_introl eq_refl)) as [H1 H2].
  simpl in H1, H2.
  refine (conj _ (conj _ (conj _ (conj _ (conj _ _))))).
  - intros E. apply H1. now left.
  - intros E. apply H2. now left.
  - tauto.
  - tauto.
  - intros q Hq. destruct (Ha q (or_intror Hq)) as [H3 H4].
    simpl in H3, H4. tauto.
  - intros q Hq. destruct (Ha q (or_intror Hq)) as [H3 H4].
    simpl in H3, H4. split; intros E; [apply H3 | apply H4]; left;
      now symmetry.
Qed.

Lemma parity_outside : forall pairs cs x w,
  ~ In w cs -> parity pairs cs x w = false.
Proof.
  induction pairs as [|p ps IH]; intros [|c cs] x w Hw; try reflexivity.
  cbn [parity]. rewrite wire_eqb_neq by (intros ->; apply Hw; now left).
  rewrite IH by (intros Hin; apply Hw; now right). reflexivity.
Qed.

Lemma parity_ext : forall pairs cs x y w,
  (forall p, In p pairs -> x (fst p) = y (fst p) /\ x (snd p) = y (snd p)) ->
  parity pairs cs x w = parity pairs cs y w.
Proof.
  induction pairs as [|p ps IH]; intros [|c cs] x y w Hxy; try reflexivity.
  cbn [parity]. unfold holds.
  destruct (Hxy p (or_introl eq_refl)) as [-> ->].
  rewrite (IH cs x y w) by (intros q Hq; apply Hxy; now right).
  reflexivity.
Qed.

Lemma parity_clause_map pairs cs x w :
  apart pairs cs ->
  parity pairs cs (clause_map pairs cs x) w = parity pairs cs x w.
Proof.
  intros Ha. apply parity_ext. intros p Hp. unfold clause_map.
  destruct (Ha p Hp) as [H1 H2].
  now rewrite !parity_outside, !xorb_false_r by assumption.
Qed.

(** Computing the clauses twice restores every wire. *)
Lemma clause_map_invol pairs cs x :
  apart pairs cs -> clause_map pairs cs (clause_map pairs cs x) = x.
Proof.
  intros Ha. extensionality w. unfold clause_map at 1.
  rewrite parity_clause_map by assumption. unfold clause_map.
  now rewrite xorb_assoc, xorb_nilpotent, xorb_false_r.
Qed.

Lemma clause_map_upd pairs cs x r v :
  ~ In r cs -> (forall p, In p pairs -> fst p <> r /\ snd p <> r) ->
  clause_map pairs cs (upd x r v) = upd (clause_map pairs cs x) r v.
Proof.
  intros Hr Hp. extensionality w. unfold clause_map.
  rewrite (parity_ext pairs cs (upd x r v) x).
  - unfold upd. destruct (wire_eqb_spec w r) as [->|]; [|reflexivity].
    now rewrite parity_outside, xorb_false_r.
  - intros p Hin. destruct (Hp p Hin).
    now rewrite !upd_other by assumption.
Qed.

Lemma classical_tape_cnots : forall pairs cs x,
  apart pairs cs ->
  classical_tape (cnots pairs cs) x = clause_map pairs cs x.
Proof.
  induction pairs as [|[a b] ps IH]; intros [|c cs] x Ha;
    try (extensionality w; unfold clause_map; cbn;
         now rewrite xorb_false_r).
  apply apart_cons in Ha as (Hac & Hbc & Hacs & Hbcs & Hps & Hpc).
  simpl in Hac, Hbc, Hacs, Hbcs.
  cbn [cnots classical_tape fold_left classical].
  change (fold_left (fun x o => classical o x) (cnots ps cs) ?z)
    with (classical_tape (cnots ps cs) z).
  rewrite IH by assumption.
  rewrite upd_upd, upd_same, (upd_other _ _ (w := b)) by assumption.
  extensionality w. unfold clause_map. cbn [parity]. unfold holds.
  cbn [fst snd].
  rewrite (parity_ext ps cs (upd x c (xorb (xorb (x c) (x a)) (x b))) x).
  - unfold upd. destruct (wire_eqb_spec w c) as [->|]; [|reflexivity].
    destruct (x c), (x a), (x b), (parity ps cs x c); reflexivity.
  - intros p Hp. destruct (Hpc p Hp) as [H1 H2].
    split; now apply upd_other.
Qed.

Lemma pull_cnots : forall pairs cs x,
  apart pairs cs -> pull (cnots pairs cs) x = clause_map pairs cs x.
Proof.
  induction pairs as [|[a b] ps IH]; intros [|c cs] x Ha;
    try (extensionality w; unfold clause_map; cbn;
         now rewrite xorb_false_r).
  apply apart_cons in Ha as (Hac & Hbc & Hacs & Hbcs & Hps & Hpc).
  simpl in Hac, Hbc, Hacs, Hbcs.
  cbn [cnots pull fold_right classical].
  change (fold_right classical x (cnots ps cs)) with (pull (cnots ps cs) x).
  rewrite IH by assumption.
  rewrite upd_upd, upd_same, (upd_other _ _ (w := a)) by assumption.
  extensionality w. unfold clause_map, upd. cbn [parity]. unfold holds.
  cbn [fst snd].
  rewrite (@parity_outside ps cs x a Hacs), (@parity_outside ps cs x b Hbcs).
  destruct (wire_eqb_spec w c) as [->|]; [|reflexivity].
  destruct (x c), (x a), (x b), (parity ps cs x c); reflexivity.
Qed.

Lemma forallb_agree {A} (f g : A -> bool) (l : list A) :
  (forall a, In a l -> f a = g a) -> forallb f l = forallb g l.
Proof.
  induction l as [|a l IH]; intros Hfg; simpl; [reflexivity|].
  rewrite Hfg by now left. rewrite IH; [reflexivity|].
  intros b Hb. apply Hfg. now right.
Qed.

Lemma clause_map_tail p ps c cs x w :
  w <> c -> clause_map (p :: ps) (c :: cs) x w = clause_map ps cs x w.
Proof.
  intros Hw. unfold clause_map. cbn [parity].
  now rewrite (wire_eqb_neq Hw).
Qed.

Lemma clause_map_head p ps c cs x :
  ~ In c cs -> x c = false ->
  clause_map (p :: ps) (c :: cs) x c = holds x p.
Proof.
  intros Hc Hx. unfold clause_map. cbn [parity].
  rewrite wire_eqb_refl, Hx, parity_outside by assumption.
  now rewrite xorb_false_r.
Qed.

(** On clean clause wires, one wire per clause: all wires are set exactly
    when all clauses hold. *)
Lemma computed_clauses : forall pairs cs x,
  NoDup cs -> length cs = length pairs -> all_zero cs x = true ->
  all_one cs (clause_map pairs cs x) = all_hold pairs x.
Proof.
  induction pairs as [|p ps IH]; intros [|c cs] x Hnd Hl Hz;
    try discriminate; [reflexivity|].
  inversion Hnd as [|? ? Hc Hnd']; subst.
  simpl in Hz. apply andb_true_iff in Hz as [Hzc Hz].
  apply negb_true_iff in Hzc.
  unfold all_one, all_hold in *. cbn [forallb].
  rewrite clause_map_head by assumption. f_equal.
  rewrite <- (IH cs x Hnd') by (simpl in Hl; congruence || assumption).
  apply forallb_agree. intros w Hw. apply clause_map_tail.
  intros ->. contradiction.
Qed.

(** A clause wire without a clause stays clear. *)
Lemma idle_clause_wire : forall pairs cs x,
  NoDup cs -> (length pairs < length cs)%nat -> all_zero cs x = true ->
  all_one cs (clause_map pairs cs x) = false.
Proof.
  induction pairs as [|p ps IH]; intros [|c cs] x Hnd Hl Hz;
    try (simpl in Hl; lia).
  - simpl in Hz. apply andb_true_iff in Hz as [Hzc Hz].
    apply negb_true_iff in Hzc.
    unfold all_one, clause_map. cbn [forallb parity].
    now rewrite Hzc.
  - inversion Hnd as [|? ? Hc Hnd']; subst.
    simpl in Hz. apply andb_true_iff in Hz as [Hzc Hz].
    unfold all_one in *. cbn [forallb].
    rewrite (forallb_agree (clause_map (p :: ps) (c :: cs) x)
                           (clause_map ps cs x)).
    + rewrite IH by (assumption || (simpl in Hl; lia)).
      apply andb_false_r.
    + intros w Hw. apply clause_map_tail. intros ->. contradiction.
Qed.

Lemma cnots_classical ws : forall pairs cs,
  (forall p, In p pairs -> In (fst p) ws /\ In (snd p) ws) ->
  incl cs ws -> apart pairs cs ->
  forallb (is_classical ws) (cnots pairs cs) = true.
Proof.
  induction pairs as [|[a b] ps IH]; intros [|c cs] Hp Hc Ha;
    try reflexivity.
  destruct (Hp (a, b) (or_introl eq_refl)) as [Haw Hbw].
  apply apart_cons in Ha as (Hac & Hbc & _ & _ & Hps & _).
  simpl in Haw, Hbw, Hac, Hbc.
  assert (Hcw : In c ws) by (apply Hc; now left).
  cbn [cnots forallb is_classical].
  rewrite !(proj2 (mem_In _ _)) by assumption.
  rewrite (wire_eqb_neq Hac), (wire_eqb_neq Hbc). cbn [negb andb].
  apply IH; [| |assumption].
  - intros p Hin. apply Hp. now right.
  - intros w Hw. apply Hc. now right.
Qed.

Lemma pull_app (t1 t2 : list (op W)) x :
  pull (t1 ++ t2) x = pull t1 (pull t2 x).
Proof. unfold pull. apply fold_right_app. Qed.

Lemma classical_tape_app (t1 t2 : list (op W)) x :
  classical_tape (t1 ++ t2) x = classical_tape t2 (classical_tape t1 x).
Proof. unfold classical_tape. apply fold_left_app. Qed.

Lemma NoDup_app_parts {A} (l1 l2 : list A) :
  NoDup (l1 ++ l2) ->
  NoDup l1 /\ NoDup l2 /\ forall a, In a l1 -> ~ In a l2.
Proof.
  induction l1 as [|a l1 IH]; intros Hnd.
  - repeat split; [constructor | assumption | intros a []].
  - simpl in Hnd. inversion Hnd as [|? ? Ha Hnd']; subst.
    destruct (IH Hnd') as (H1 & H2 & H3).
    repeat split; [|assumption|].
    + constructor; [|assumption]. intros Hin. apply Ha.
      apply in_or_app. now left.
    + intros b [<- | Hb] Hin; [|now apply (H3 b)].
      apply Ha. apply in_or_app. now right.
Qed.

End ClauseMaps.

(* ================================================================== *)
(** ** The oracle for any clause list *)

Section AnyOracle.
Context {W : Type} `{Wire W}.
Import ToyExample.

Implicit Types (x y : @basis W) (s : @state W).

Definition clause_ops (pairs : list (W * W)) (C : list W) : list (op W) :=
  cnots pairs C.

Definition oracle_ops (pairs : list (W * W)) (C : list W) (r : W)
  : list (op W) :=
  clause_ops pairs C
  ++ [MultiControlledX C r (repeat true (length C))]
  ++ clause_ops pairs C.

(** The registers as the notebook lays them out: tiles, clause wires and
    the result wire are different wires, and the clauses name tiles. *)
Record laid_out (T C : list W) (r : W) (pairs : list (W * W)) : Prop := {
  lo_distinct : NoDup (T ++ C ++ [r]);
  lo_tiles : forall p, In p pairs -> In (fst p) T /\ In (snd p) T
}.

Section Registers.
Variables (T C : list W) (r : W) (pairs : list (W * W)).
Hypothesis Hlo : laid_out T C r pairs.

Lemma lo_T : NoDup T.
Proof. now destruct (NoDup_app_parts _ _ (lo_distinct Hlo)) as (? & _). Qed.

Lemma lo_Cr : NoDup (C ++ [r]).
Proof. now destruct (NoDup_app_parts _ _ (lo_distinct Hlo)) as (_ & ? & _). Qed.

Lemma lo_C : NoDup C.
Proof. now destruct (NoDup_app_parts _ _ lo_Cr) as (? & _). Qed.

Lemma lo_rC : ~ In r C.
Proof.
  destruct (NoDup_app_parts _ _ lo_Cr) as (_ & _ & Hd).
  intros Hin. apply (Hd r Hin). now left.
Qed.

Lemma lo_TC q : In q T -> ~ In q (C ++ [r]).
Proof.
  destruct (NoDup_app_parts _ _ (lo_distinct Hlo)) as (_ & _ & Hd).
  apply Hd.
Qed.

Lemma lo_rT : ~ In r T.
Proof.
  intros Hin. eapply lo_TC; [exact Hin|]. apply in_or_app. right. now left.
Qed.

Lemma lo_apart : apart pairs C.
Proof.
  intros p Hp. destruct (lo_tiles Hlo p Hp) as [H1 H2].
  split; intros Hin.
  - eapply lo_TC; [exact H1|]. apply in_or_app. now left.
  - eapply lo_TC; [exact H2|]. apply in_or_app. now left.
Qed.

Lemma lo_result p : In p pairs -> fst p <> r /\ snd p <> r.
Proof.
  intros Hp. destruct (lo_tiles Hlo p Hp) as [H1 H2].
  split; intros E; apply lo_rT; congruence.
Qed.

Lemma lo_T_in q : In q T -> In q (T ++ C ++ [r]).
Proof. intros Hq. apply in_or_app. now left. Qed.

Lemma lo_C_in q : In q C -> In q (T ++ C ++ [r]).
Proof. intros Hq. apply in_or_app. right. apply in_or_app. now left. Qed.

Lemma lo_r_in : In r (T ++ C ++ [r]).
Proof. apply in_or_app. right. apply in_or_app. right. now left. Qed.

Lemma clause_ops_classical :
  forallb (is_classical (T ++ C ++ [r])) (clause_ops pairs C) = true.
Proof.
  apply cnots_classical.
  - intros p Hp. destruct (lo_tiles Hlo p Hp). split; now apply lo_T_in.
  - intros q. apply lo_C_in.
  - apply lo_apart.
Qed.

Lemma oracle_ops_classical :
  forallb (is_classical (T ++ C ++ [r])) (oracle_ops pairs C r) = true.
Proof.
  unfold oracle_ops. rewrite !forallb_app, clause_ops_classical.
  cbn [forallb is_classical andb].
  rewrite (proj2 (mem_In _ _) lo_r_in), (proj2 (mem_false _ _) lo_rC).
  rewrite (proj2 (forallb_forall _ _)); [reflexivity|].
  intros c Hc. apply mem_In. now apply lo_C_in.
Qed.

(** The whole oracle on a basis state: only the result wire can change. *)
Lemma oracle_ops_pull x :
  pull (oracle_ops pairs C r) x
  = upd x r (xorb (x r) (all_one C (clause_map pairs C x))).
Proof.
  unfold oracle_ops, clause_ops. rewrite !pull_app.
  rewrite !pull_cnots by apply lo_apart.
  cbn [pull fold_right classical].
  rewrite controls_hold_ones.
  rewrite clause_map_upd by (apply lo_rC || apply lo_result).
  rewrite clause_map_invol by apply lo_apart.
  f_equal. f_equal. unfold clause_map at 1.
  now rewrite parity_outside, xorb_false_r by apply lo_rC.
Qed.

Lemma oracle_ops_forward x :
  classical_tape (oracle_ops pairs C r) x
  = upd x r (xorb (x r) (all_one C (clause_map pairs C x))).
Proof.
  unfold oracle_ops, clause_ops. rewrite !classical_tape_app.
  rewrite !classical_tape_cnots by apply lo_apart.
  cbn [classical_tape fold_left classical].
  rewrite controls_hold_ones.
  rewrite clause_map_upd by (apply lo_rC || apply lo_result).
  rewrite clause_map_invol by apply lo_apart.
  f_equal. f_equal. unfold clause_map at 1.
  now rewrite parity_outside, xorb_false_r by apply lo_rC.
Qed.

End Registers.

Lemma all_one_upd (cs : list W) x q b :
  ~ In q cs -> all_one cs (upd x q b) = all_one cs x.
Proof.
  intros Hq. unfold all_one. apply forallb_agree.
  intros c Hc. apply upd_other. intros ->. contradiction.
Qed.

Lemma oracle_ops_invol T C r pairs x :
  laid_out T C r pairs ->
  pull (oracle_ops pairs C r) (pull (oracle_ops pairs C r) x) = x.
Proof.
  intros Hlo. rewrite !(oracle_ops_pull Hlo).
  rewrite upd_same, upd_upd.
  rewrite clause_map_upd by (apply (lo_rC Hlo) || apply (lo_result Hlo)).
  rewrite all_one_upd by apply (lo_rC Hlo).
  rewrite xorb_assoc, xorb_nilpotent, xorb_false_r. apply upd_id.
Qed.

Lemma clause_ops_invol T C r pairs x :
  laid_out T C r pairs ->
  pull (clause_ops pairs C) (pull (clause_ops pairs C) x) = x.
Proof.
  intros Hlo. unfold clause_ops.
  rewrite !pull_cnots by apply (lo_apart Hlo).
  apply clause_map_invol, (lo_apart Hlo).
Qed.

(** A classical tape that is its own inverse on basis states undoes itself
    on every state. *)
Lemma apply_twice ws (t : list (op W)) :
  forallb (is_classical ws) t = true ->
  (forall x, pull t (pull t x) = x) ->
  forall s, apply_tape (t ++ t) s = s.
Proof.
  intros Hc Hi s.
  rewrite apply_tape_app, !(apply_tape_classical _ _ Hc).
  cbn [scale vec]. symmetry. apply state_ext; [reflexivity|].
  intros x. now rewrite Hi.
Qed.

Lemma laid_out_of clause_list T C r pairs :
  distinct (T ++ C ++ [r]) = true ->
  resolve_clauses T clause_list = Ok pairs ->
  laid_out T C r pairs.
Proof.
  intros Hd Hr. split.
  - now apply distinct_NoDup.
  - now apply resolve_clauses_In with (clauses := clause_list).
Qed.

Lemma clause_circuit_queue_any clause_list T C r pairs :
  laid_out T C r pairs ->
  resolve_clauses T clause_list = Ok pairs ->
  (length pairs <= length C)%nat ->
  clause_circuit clause_list T C = Ok (clause_ops pairs C).
Proof.
  intros Hlo Hr Hl. unfold clause_circuit, clause_ops.
  apply (@clause_loop_queue _ _ T clause_list pairs [] C Hr Hl).
  intros q c Hq Hc ->. eapply (lo_TC Hlo); [exact Hq|].
  apply in_or_app. now left.
Qed.

Lemma clause_circuit_short clause_list T C r pairs :
  laid_out T C r pairs ->
  resolve_clauses T clause_list = Ok pairs ->
  (length C < length pairs)%nat ->
  clause_circuit clause_list T C = Raise IndexError.
Proof.
  intros Hlo Hr Hl. unfold clause_circuit.
  apply (@clause_loop_short _ _ T clause_list pairs [] C Hr Hl).
  intros q c Hq Hc ->. eapply (lo_TC Hlo); [exact Hq|].
  apply in_or_app. now left.
Qed.

Lemma result_gate_queue T C r pairs :
  laid_out T C r pairs ->
  qml_MultiControlledX (Some C) [r] None
  = Ok (MultiControlledX C r (repeat true (length C))).
Proof.
  intros Hlo. apply MultiControlledX_one_target.
  apply distinct_NoDup, (lo_C Hlo).
Qed.

Lemma oracle_queue_any clause_list T C r pairs :
  laid_out T C r pairs ->
  resolve_clauses T clause_list = Ok pairs ->
  (length pairs <= length C)%nat ->
  oracle clause_list T C [r] = Ok (oracle_ops pairs C r).
Proof.
  intros Hlo Hr Hl. unfold oracle.
  rewrite (@clause_circuit_queue_any clause_list T C r pairs Hlo Hr Hl),
    (@result_gate_queue T C r pairs Hlo).
  reflexivity.
Qed.

Lemma on_device_classical ws (t : list (op W)) :
  forallb (is_classical ws) t = true -> forallb (on_device ws) t = true.
Proof.
  intros Hc. apply forallb_forall. intros o Ho.
  apply (proj1 (forallb_forall _ _) Hc) in Ho.
  destruct o as [q|q|q|c t'|c t'|cs t' vs]; simpl in Ho; try discriminate;
    unfold on_device; simpl.
  - now rewrite Ho.
  - apply andb_true_iff in Ho as [Ho _].
    apply andb_true_iff in Ho as [-> ->]. reflexivity.
  - apply andb_true_iff in Ho as [Ho _].
    apply andb_true_iff in Ho as [Hcs Ht].
    rewrite forallb_app, Hcs. simpl. now rewrite Ht.
Qed.

(** A device with the wires of the layout runs the oracle's gates when
    there is a clause wire to control the gate in the middle. *)
Lemma oracle_ops_accepted T C r pairs :
  laid_out T C r pairs -> C <> [] ->
  refused (T ++ C ++ [r]) (oracle_ops pairs C r) = None.
Proof.
  intros Hlo HC. apply refused_None. split.
  - apply on_device_classical, (oracle_ops_classical Hlo).
  - unfold oracle_ops, clause_ops.
    rewrite !forallb_app, executable_cnots.
    cbn [forallb executable andb].
    replace (mem r C) with false
      by (symmetry; apply mem_false, (lo_rC Hlo)).
    destruct C; [congruence|reflexivity].
Qed.

Lemma clause_map_nth : forall pairs cs x i p c,
  NoDup cs -> all_zero cs x = true ->
  nth_error pairs i = Some p -> nth_error cs i = Some c ->
  clause_map pairs cs x c = holds x p.
Proof.
  induction pairs as [|p0 ps IH]; intros [|c0 cs] x i p c Hnd Hz Hp Hc;
    try (destruct i; discriminate).
  inversion Hnd as [|? ? Hc0 Hnd']; subst.
  simpl in Hz. apply andb_true_iff in Hz as [Hz0 Hz].
  apply negb_true_iff in Hz0.
  destruct i as [|i]; simpl in Hp, Hc.
  - inversion Hp. inversion Hc. subst. now apply clause_map_head.
  - rewrite clause_map_tail.
    + now apply (IH cs x i).
    + intros ->. apply Hc0. eapply nth_error_In. exact Hc.
Qed.

End AnyOracle.

(* ================================================================== *)
(** ** Grover iterations for any clause list *)

Section AnyGrover.
Context {W : Type} `{Wire W}.
Import ToyExample.

Implicit Types (x y : @basis W) (s : @state W).

Definition init_ops (T : list W) (r : W) : list (op W) :=
  map Hadamard T ++ [PauliX r; Hadamard r].

(** The states the iterations pass through: clause wires clear, the result
    wire in |->, numerator [a] on the tile values for which all clauses
    hold and [b] on the others. *)
Definition guard_on (C : list W) (r : W) x : Z :=
  if all_zero C x then sgn (x r) else 0.

Definition pick_on (pairs : list (W * W)) (a b : Z) x : Z :=
  if all_hold pairs x then a else b.

Definition shape (C : list W) (r : W) (pairs : list (W * W))
           (k : nat) (a b : Z) : state :=
  {| scale := k; vec := fun x => guard_on C r x * pick_on pairs a b x |}.

(** The number of tile values for which all clauses hold. *)
Definition solutions (T : list W) (pairs : list (W * W)) : Z :=
  sum_over T (fun y => if all_hold pairs y then 1 else 0) (fun _ => false).

Lemma init_states_queue_any T r more :
  init_states T (r :: more) = Ok (init_ops T r).
Proof.
  unfold init_states, init_ops.
  rewrite for_each_queue, subscript_head. reflexivity.
Qed.

Lemma all_hold_agree (T : list W) pairs x y :
  (forall p, In p pairs -> In (fst p) T /\ In (snd p) T) ->
  (forall w, In w T -> x w = y w) ->
  all_hold pairs x = all_hold pairs y.
Proof.
  intros Hp Hxy. apply forallb_agree. intros p Hin.
  destruct (Hp p Hin) as [H1 H2]. unfold holds.
  now rewrite (Hxy _ H1), (Hxy _ H2).
Qed.

Lemma all_hold_upd (T : list W) pairs x q v :
  (forall p, In p pairs -> In (fst p) T /\ In (snd p) T) ->
  ~ In q T -> all_hold pairs (upd x q v) = all_hold pairs x.
Proof.
  intros Hp Hq. apply all_hold_agree with (T := T); [exact Hp|].
  intros w Hw. apply upd_other. intros ->. contradiction.
Qed.

Lemma sum_over_agree (all : list W) (f : @basis W -> Z) :
  (forall x y, (forall w, In w all -> x w = y w) -> f x = f y) ->
  forall qs x y,
    (forall w, In w all -> ~ In w qs -> x w = y w) ->
    sum_over qs f x = sum_over qs f y.
Proof.
  intros Hf. induction qs as [|q qs IH]; intros x y Hxy.
  - apply Hf. intros w Hw. apply Hxy; [assumption | intros []].
  - cbn [sum_over]. f_equal; apply IH; intros w Hw Hn; unfold upd;
      destruct (wire_eqb_spec w q) as [->|Hne]; try reflexivity;
      apply Hxy; try assumption; intros [E|Hin]; congruence || contradiction.
Qed.

Lemma sum_over_app (l1 l2 : list W) (f : @basis W -> Z) : forall x,
  sum_over (l1 ++ l2) f x = sum_over l1 (sum_over l2 f) x.
Proof.
  induction l1 as [|q l1 IH]; intros x; [reflexivity|].
  cbn [app sum_over]. now rewrite !IH.
Qed.

Lemma sum_over_all_zero (c : Z) : forall (qs : list W) x,
  NoDup qs ->
  sum_over qs (fun y => if all_zero qs y then c else 0) x = c.
Proof.
  induction qs as [|q qs IH]; intros x Hnd; [reflexivity|].
  inversion Hnd as [|? ? Hq Hnd']; subst.
  rewrite sum_over_cons, Sq_sum_over.
  transitivity (sum_over qs (fun y => if all_zero qs y then c else 0) x);
    [|now apply IH].
  f_equal.
  extensionality y. unfold Sq. cbn [all_zero forallb].
  change (forallb (fun w => negb (?z w)) qs) with (all_zero qs z).
  rewrite !upd_same, !all_zero_upd by assumption.
  cbn [negb andb]. lia.
Qed.

Lemma Rsum_over_pick (p : @basis W -> bool) (c : R) : forall (qs : list W) x,
  Rsum_over qs (fun y => if p y then c else 0%R) x
  = (IZR (sum_over qs (fun y => if p y then 1 else 0)%Z x) * c)%R.
Proof.
  induction qs as [|q qs IH]; intros x.
  - cbn [Rsum_over sum_over]. destruct (p x); simpl; ring.
  - cbn [Rsum_over sum_over]. rewrite !IH, plus_IZR. ring.
Qed.

Lemma count_bounds (p : @basis W -> bool) : forall (qs : list W) x,
  0 <= sum_over qs (fun y => if p y then 1 else 0) x
    <= 2 ^ Z.of_nat (length qs).
Proof.
  induction qs as [|q qs IH]; intros x.
  - cbn [sum_over length Z.of_nat]. destruct (p x); lia.
  - cbn [sum_over].
    replace (Z.of_nat (length (q :: qs))) with (Z.succ (Z.of_nat (length qs)))
      by (simpl length; lia).
    rewrite Z.pow_succ_r by lia.
    pose proof (IH (upd x q false)). pose proof (IH (upd x q true)). lia.
Qed.

Lemma count_all : forall (qs : list W) x,
  sum_over qs (fun _ => 1) x = 2 ^ Z.of_nat (length qs).
Proof.
  induction qs as [|q qs IH]; intros x; [reflexivity|].
  cbn [sum_over]. rewrite !IH.
  replace (Z.of_nat (length (q :: qs))) with (Z.succ (Z.of_nat (length qs)))
    by (simpl length; lia).
  rewrite Z.pow_succ_r by lia. lia.
Qed.

(** Without clauses every value of the tiles is a solution. *)
Lemma solutions_no_clause (T : list W) :
  solutions T [] = 2 ^ Z.of_nat (length T).
Proof. unfold solutions. cbn [all_hold forallb]. apply count_all. Qed.

Lemma filter_keeps {A} (keep : A -> bool) (xs : list A) :
  forallb keep xs = true -> filter keep xs = xs.
Proof.
  induction xs as [|k xs IH]; simpl; [reflexivity|].
  intros Hk. apply andb_true_iff in Hk as [-> Hk]. now rewrite IH.
Qed.

Lemma filter_drops {A} (keep : A -> bool) (xs : list A) :
  forallb (fun k => negb (keep k)) xs = true -> filter keep xs = [].
Proof.
  induction xs as [|k xs IH]; simpl; [reflexivity|].
  intros Hk. apply andb_true_iff in Hk as [Hy Hk].
  apply negb_true_iff in Hy. rewrite Hy. now apply IH.
Qed.

Section Registers.
Variables (T C : list W) (r : W) (pairs : list (W * W)).
Hypothesis Hlo : laid_out T C r pairs.

Let ws : list W := T ++ C ++ [r].

Lemma guard_on_upd_tile x q v :
  In q T -> guard_on C r (upd x q v) = guard_on C r x.
Proof.
  intros Hq. unfold guard_on.
  assert (Hn : ~ In q (C ++ [r])) by (eapply lo_TC; eassumption).
  rewrite all_zero_upd by (intros Hin; apply Hn, in_or_app; now left).
  rewrite upd_other; [reflexivity|].
  intros <-. apply Hn, in_or_app. right. now left.
Qed.

Lemma pick_on_upd_rest a b x q v :
  In q (C ++ [r]) -> pick_on pairs a b (upd x q v) = pick_on pairs a b x.
Proof.
  intros Hq. unfold pick_on.
  rewrite (@all_hold_upd T pairs x q v (lo_tiles Hlo)); [reflexivity|].
  intros Hin. eapply lo_TC; eassumption.
Qed.

Lemma count_solutions x :
  sum_over T (fun y => if all_hold pairs y then 1 else 0) x
  = solutions T pairs.
Proof.
  unfold solutions.
  apply sum_over_agree with (all := T).
  - intros y z Hyz.
    now rewrite (@all_hold_agree T pairs y z (lo_tiles Hlo) Hyz).
  - intros w Hw Hn. contradiction.
Qed.

Lemma init_state_any :
  apply_tape (init_ops T r) (zero_state ws) = shape C r pairs (S (length T)) 1 1.
Proof.
  unfold init_ops, ws. rewrite apply_tape_app.
  rewrite prepare_register by apply (lo_distinct Hlo).
  cbn [apply_tape fold_left apply scale vec]. unfold shape. f_equal.
  extensionality x. unfold flip, guard_on, pick_on.
  rewrite !upd_same, !upd_upd, !all_zero_app.
  rewrite !(@all_zero_upd _ _ C) by apply (lo_rC Hlo).
  unfold all_zero at 2 4. cbn [forallb]. rewrite !upd_same.
  destruct (all_zero C x), (x r), (all_hold pairs x); reflexivity.
Qed.

Lemma oracle_shape k a b :
  length C = length pairs ->
  apply_tape (oracle_ops pairs C r) (shape C r pairs k a b)
  = shape C r pairs k (- a) b.
Proof.
  intros Hl.
  rewrite (apply_tape_classical _ _ (oracle_ops_classical Hlo)).
  unfold shape. cbn [scale vec]. f_equal.
  extensionality x. rewrite (oracle_ops_pull Hlo).
  unfold guard_on. rewrite all_zero_upd, upd_same by apply (lo_rC Hlo).
  rewrite pick_on_upd_rest by (apply in_or_app; right; now left).
  destruct (all_zero C x) eqn:E; [|reflexivity].
  rewrite computed_clauses by (apply (lo_C Hlo) || assumption).
  unfold pick_on.
  destruct (all_hold pairs x), (x r); cbn [xorb sgn]; lia.
Qed.

Lemma diffuser_shape (T0 : list W) (t : W) k a b :
  T = T0 ++ [t] ->
  let N := 2 ^ Z.of_nat (length T) in
  let M := solutions T pairs in
  apply_tape (diffuser_tape T0 t) (shape C r pairs k a b)
  = shape C r pairs (k + 2 * S (length T))
          (2 * N * a - 4 * ((a - b) * M + b * N))
          (2 * N * b - 4 * ((a - b) * M + b * N)).
Proof.
  intros HT N M. pose proof (lo_T Hlo) as HndT.
  rewrite diffuser_tape_state by (rewrite <- HT; assumption).
  rewrite <- HT. unfold shape. cbn [scale vec]. f_equal.
  extensionality x.
  rewrite (sum_over_factor T (guard_on C r) (pick_on pairs a b)
             guard_on_upd_tile).
  unfold pick_on at 2. rewrite sum_over_pick, count_solutions.
  fold M. fold N.
  replace (2 ^ Z.of_nat (S (length T))) with (2 * N)
    by (unfold N; rewrite Nat2Z.inj_succ, Z.pow_succ_r by lia; reflexivity).
  unfold pick_on. destruct (all_hold pairs x); ring.
Qed.

End Registers.

Definition iteration_ops (pairs : list (W * W)) (C : list W) (r : W)
           (T0 : list W) (t : W) : list (op W) :=
  oracle_ops pairs C r ++ diffuser_tape T0 t.

(** Numerators after [R] iterations, for [N] tile values of which [M]
    are solutions. *)
Fixpoint numerators (N M : Z) (R : nat) : Z * Z :=
  match R with
  | O => (1, 1)
  | S R' => let (a, b) := numerators N M R' in
            ((4 * M - 2 * N) * a - 4 * (N - M) * b,
             4 * M * a + (4 * M - 2 * N) * b)
  end.

Section Steps.
Variables (clause_list : list (list Z)) (T0 : list W) (t : W) (C : list W)
          (r : W) (pairs : list (W * W)).
Hypothesis Hlo : laid_out (T0 ++ [t]) C r pairs.
Hypothesis Hr : resolve_clauses (T0 ++ [t]) clause_list = Ok pairs.
Hypothesis Hl : length C = length pairs.

Let T : list W := T0 ++ [t].
Let ws : list W := T ++ C ++ [r].
Let N : Z := 2 ^ Z.of_nat (length T).
Let M : Z := solutions T pairs.

Lemma iteration_shape k a b :
  apply_tape (iteration_ops pairs C r T0 t) (shape C r pairs k a b)
  = shape C r pairs (k + 2 * S (length T))
          ((4 * M - 2 * N) * a - 4 * (N - M) * b)
          (4 * M * a + (4 * M - 2 * N) * b).
Proof.
  unfold iteration_ops.
  rewrite apply_tape_app, (@oracle_shape T C r pairs Hlo k a b Hl).
  rewrite (@diffuser_shape T C r pairs Hlo T0 t k (- a) b eq_refl).
  fold N. fold M. f_equal; ring.
Qed.

Lemma grover_iteration_queue_any :
  grover_iteration clause_list T C [r] = Ok (iteration_ops pairs C r T0 t).
Proof.
  unfold grover_iteration, iteration_ops. apply then_queue.
  - apply (@oracle_queue_any _ _ clause_list T C r pairs Hlo Hr). lia.
  - apply diffuser_queue. apply distinct_NoDup. apply (lo_T Hlo).
Qed.

Lemma grover_steps_queue_any (R : nat) :
  grover_steps R clause_list T C [r]
  = Ok (init_ops T r ++ concat (repeat (iteration_ops pairs C r T0 t) R)).
Proof.
  unfold grover_steps. apply then_queue.
  - apply init_states_queue_any.
  - rewrite (times_queue _ grover_iteration_queue_any).
    now rewrite Nat2Z.id.
Qed.

Lemma grover_queue_any :
  grover clause_list T C [r]
  = Ok (init_ops T r ++ iteration_ops pairs C r T0 t).
Proof.
  unfold grover. apply then_queue.
  - apply init_states_queue_any.
  - apply grover_iteration_queue_any.
Qed.

Lemma steps_state_any (R : nat) :
  apply_tape (init_ops T r ++ concat (repeat (iteration_ops pairs C r T0 t) R))
             (zero_state ws)
  = shape C r pairs (S (length T) + R * (2 * S (length T)))
          (fst (numerators N M R)) (snd (numerators N M R)).
Proof.
  induction R as [|R IH].
  - simpl concat. rewrite app_nil_r. unfold ws.
    rewrite (@init_state_any T C r pairs Hlo).
    unfold shape. f_equal. lia.
  - rewrite concat_repeat_snoc, app_assoc, apply_tape_app, IH.
    rewrite iteration_shape. cbn [numerators].
    destruct (numerators N M R) as [a b]. cbn [fst snd].
    unfold shape. f_equal. lia.
Qed.

Lemma tiles_on_device : incl T ws.
Proof. intros q Hq. apply in_or_app. now left. Qed.

Lemma result_on_device : mem r ws = true.
Proof.
  apply mem_In, in_or_app. right. apply in_or_app. right. now left.
Qed.

Lemma init_ops_on_device : forallb (on_device ws) (init_ops T r) = true.
Proof.
  unfold init_ops. rewrite forallb_app.
  rewrite on_device_Hadamards by apply tiles_on_device.
  unfold on_device. cbn [forallb op_wires andb].
  now rewrite result_on_device.
Qed.

Lemma diffuser_tape_on_device :
  forallb (on_device ws) (diffuser_tape T0 t) = true.
Proof.
  assert (Ht : mem t ws = true).
  { apply mem_In, tiles_on_device. apply in_or_app. right. now left. }
  assert (HT : forallb (fun w => mem w ws) (T0 ++ [t]) = true).
  { apply forallb_forall. intros w Hw. now apply mem_In, tiles_on_device. }
  unfold diffuser_tape. rewrite !forallb_app.
  rewrite !on_device_Hadamards, !on_device_PauliXs
    by apply tiles_on_device.
  unfold on_device. cbn [forallb op_wires andb].
  now rewrite Ht, HT.
Qed.

Lemma steps_on_device_any (R : nat) :
  forallb (on_device ws)
          (init_ops T r ++ concat (repeat (iteration_ops pairs C r T0 t) R))
  = true.
Proof.
  rewrite forallb_app, init_ops_on_device.
  apply forallb_concat_repeat. unfold iteration_ops.
  rewrite forallb_app, diffuser_tape_on_device.
  rewrite on_device_classical by apply (oracle_ops_classical Hlo).
  reflexivity.
Qed.

(** The device runs the controlled gates of oracle and diffuser when each
    has a control wire: at least one clause wire, at least two tiles. *)
Hypothesis HC : C <> [].
Hypothesis HT0 : T0 <> [].

Lemma steps_executable_any (R : nat) :
  forallb executable
          (init_ops T r ++ concat (repeat (iteration_ops pairs C r T0 t) R))
  = true.
Proof.
  rewrite forallb_app. unfold init_ops at 1.
  rewrite forallb_app, executable_Hadamards. cbn [forallb executable andb].
  apply forallb_concat_repeat. unfold iteration_ops, oracle_ops.
  rewrite !forallb_app, executable_cnots.
  rewrite diffuser_tape_executable by (apply (lo_T Hlo) || assumption).
  cbn [forallb executable andb].
  replace (mem r C) with false
    by (symmetry; apply mem_false, (lo_rC Hlo)).
  destruct C; [congruence|reflexivity].
Qed.

Lemma run_steps_any (R : nat) :
  run ws (grover_steps R clause_list T C [r])
  = Ok (shape C r pairs (S (length T) + R * (2 * S (length T)))
              (fst (numerators N M R)) (snd (numerators N M R))).
Proof.
  rewrite grover_steps_queue_any.
  rewrite run_accepted
    by (apply steps_on_device_any || apply steps_executable_any).
  f_equal. apply steps_state_any.
Qed.

Lemma unsampled_tiles_any : unsampled ws T = C ++ [r].
Proof.
  unfold unsampled, ws. rewrite filter_app.
  rewrite filter_drops, filter_keeps; [reflexivity| |].
  - apply forallb_forall. intros q Hq. apply negb_true_iff, mem_false.
    intros Hin. eapply (lo_TC Hlo); eassumption.
  - apply forallb_forall. intros q Hq. rewrite negb_involutive.
    now apply mem_In.
Qed.

Lemma guard_square_sum_any x :
  sum_over (C ++ [r]) (fun y => guard_on C r y * guard_on C r y) x = 2.
Proof.
  rewrite sum_over_app.
  replace (sum_over [r] (fun y => guard_on C r y * guard_on C r y))
    with (fun y : @basis W => if all_zero C y then 2 else 0).
  - apply sum_over_all_zero, (lo_C Hlo).
  - extensionality y. cbn [sum_over]. unfold guard_on.
    rewrite !all_zero_upd, !upd_same by apply (lo_rC Hlo).
    destruct (all_zero C y); reflexivity.
Qed.

Lemma weight_shape k a b x :
  weight (shape C r pairs k a b) (C ++ [r]) x
  = 2 * (pick_on pairs a b x * pick_on pairs a b x).
Proof.
  unfold weight, shape. cbn [vec].
  replace (fun y => guard_on C r y * pick_on pairs a b y
                    * (guard_on C r y * pick_on pairs a b y))
    with (fun y => (pick_on pairs a b y * pick_on pairs a b y)
                   * (guard_on C r y * guard_on C r y))
    by (extensionality y; ring).
  rewrite (sum_over_factor (C ++ [r])
             (fun y => pick_on pairs a b y * pick_on pairs a b y)
             (fun y => guard_on C r y * guard_on C r y)).
  - rewrite guard_square_sum_any. ring.
  - intros y q v Hq.
    now rewrite (@pick_on_upd_rest T C r pairs Hlo a b y q v Hq).
Qed.

End Steps.

End AnyGrover.

(* ================================================================== *)
(** ** The closed form for any number of solutions *)

Section AnyClosedForm.
Local Open Scope R_scope.

Lemma cos_grover_angle_sqr (N M : R) :
  0 < N -> 0 <= M <= N ->
  cos (grover_angle N M) * cos (grover_angle N M) = (N - M) / N.
Proof.
  intros HN HM. unfold grover_angle.
  assert (H0 : 0 <= (N - M) / N).
  { apply Rmult_le_pos; [lra|]. left. now apply Rinv_0_lt_compat. }
  assert (H1 : (N - M) / N <= 1).
  { apply (Rmult_le_reg_r N); [assumption|].
    unfold Rdiv. rewrite Rmult_assoc, Rinv_l by lra. lra. }
  assert (H2 : sqrt ((N - M) / N) <= 1).
  { rewrite <- sqrt_1. now apply sqrt_le_1; try lra. }
  pose proof (sqrt_pos ((N - M) / N)) as H3.
  rewrite cos_acos by lra.
  now rewrite sqrt_sqrt.
Qed.

Lemma sin_grover_angle_sqr (N M : R) :
  0 < N -> 0 <= M <= N ->
  sin (grover_angle N M) * sin (grover_angle N M) = M / N.
Proof.
  intros HN HM.
  pose proof (sin2_cos2 (grover_angle N M)) as E. unfold Rsqr in E.
  rewrite (cos_grover_angle_sqr HN HM) in E.
  replace (M / N) with (1 - (N - M) / N) by (field; lra). lra.
Qed.

Lemma sign_sqr (R : nat) : (-1) ^ R * (-1) ^ R = 1.
Proof.
  rewrite <- Rpow_mult_distr.
  replace (-1 * -1) with 1 by ring. apply pow1.
Qed.

Lemma numerators_closed_form (N M : Z) (R : nat) :
  (0 < N)%Z -> (0 <= M <= N)%Z ->
  let th := grover_angle (IZR N) (IZR M) in
  let a := IZR (fst (numerators N M R)) / (2 * IZR N) ^ R in
  let b := IZR (snd (numerators N M R)) / (2 * IZR N) ^ R in
  a * sin th = (-1) ^ R * sin ((2 * INR R + 1) * th)
  /\ b * cos th = (-1) ^ R * cos ((2 * INR R + 1) * th).
Proof.
  intros HN HM.
  assert (HNr : 0 < IZR N) by now apply IZR_lt.
  assert (HMr : 0 <= IZR M <= IZR N) by (split; apply IZR_le; lia).
  induction R as [|R IH].
  - simpl. split.
    + replace ((2 * 0 + 1) * grover_angle (IZR N) (IZR M))
        with (grover_angle (IZR N) (IZR M)) by ring. field.
    + replace ((2 * 0 + 1) * grover_angle (IZR N) (IZR M))
        with (grover_angle (IZR N) (IZR M)) by ring. field.
  - cbn zeta in IH |- *. destruct IH as [IHa IHb].
    pose proof (cos_grover_angle_sqr HNr HMr) as HC.
    pose proof (sin_grover_angle_sqr HNr HMr) as HS.
    set (th := grover_angle (IZR N) (IZR M)) in *.
    cbn [numerators]. destruct (numerators N M R) as [a b].
    cbn [fst snd] in *.
    set (n := IZR N) in *. set (m := IZR M) in *.
    assert (Hp : (2 * n) ^ R <> 0) by (apply pow_nonzero; lra).
    set (u := IZR a / (2 * n) ^ R) in *.
    set (v := IZR b / (2 * n) ^ R) in *.
    set (phi := (2 * INR R + 1) * th) in *.
    set (e := (-1) ^ R) in *.
    assert (He : e * e = 1) by apply sign_sqr.
    assert (Hs : sin phi = e * (u * sin th)).
    { rewrite IHa, <- Rmult_assoc, He. ring. }
    assert (Hc : cos phi = e * (v * cos th)).
    { rewrite IHb, <- Rmult_assoc, He. ring. }
    assert (Hu : IZR ((4 * M - 2 * N) * a - 4 * (N - M) * b) / (2 * n) ^ S R
                 = (2 * (m / n) - 1) * u - 2 * (1 - m / n) * v).
    { unfold u, v, n, m. rewrite !minus_IZR, !mult_IZR, !minus_IZR, !mult_IZR.
      simpl pow. fold n. fold m. field. split; lra. }
    assert (Hv : IZR (4 * M * a + (4 * M - 2 * N) * b) / (2 * n) ^ S R
                 = 2 * (m / n) * u + (2 * (m / n) - 1) * v).
    { unfold u, v, n, m. rewrite !plus_IZR, !mult_IZR, !minus_IZR, !mult_IZR.
      simpl pow. fold n. fold m. field. split; lra. }
    rewrite Hu, Hv.
    replace ((2 * INR (S R) + 1) * th) with (phi + 2 * th)
      by (unfold phi; rewrite S_INR; ring).
    rewrite sin_plus, cos_plus, sin_2a, cos_2a, Hs, Hc.
    set (st := sin th) in *. set (ct := cos th) in *.
    replace ((-1) ^ S R) with (- e) by (unfold e; simpl; ring).
    assert (Hm : m / n = st * st) by (symmetry; exact HS).
    assert (Hm' : 1 - m / n = ct * ct).
    { rewrite HC. field. lra. }
    split.
    + transitivity (- (e * e) * (u * st * (ct * ct - st * st)
                                 + 2 * v * st * (ct * ct))); [|ring].
      rewrite He, <- Hm', <- Hm. ring.
    + transitivity (- (e * e) * (v * ct * (ct * ct - st * st)
                                 - 2 * u * ct * (st * st))); [|ring].
      rewrite He, <- Hm', <- Hm. ring.
Qed.

(** The formula of Task 3 as a rational number. *)
Lemma formula_rational (N M : Z) (R : nat) :
  (0 < N)%Z -> (0 <= M <= N)%Z ->
  (sin ((2 * INR R + 1) * grover_angle (IZR N) (IZR M))) ^ 2
  = IZR M / IZR N
    * (IZR (fst (numerators N M R)) / (2 * IZR N) ^ R) ^ 2.
Proof.
  intros HN HM.
  destruct (numerators_closed_form R HN HM) as [Ha _]. cbn zeta in Ha.
  assert (HNr : 0 < IZR N) by now apply IZR_lt.
  assert (HMr : 0 <= IZR M <= IZR N) by (split; apply IZR_le; lia).
  pose proof (sin_grover_angle_sqr HNr HMr) as HS.
  pose proof (sign_sqr R) as He.
  set (s := sin ((2 * INR R + 1) * grover_angle (IZR N) (IZR M))) in *.
  set (u := IZR (fst (numerators N M R)) / (2 * IZR N) ^ R) in *.
  transitivity ((-1) ^ R * (-1) ^ R * (s * s)); [rewrite He; ring|].
  transitivity ((-1) ^ R * s * ((-1) ^ R * s)); [ring|].
  rewrite <- Ha, <- HS. ring.
Qed.

Lemma numerators_norm (N M : Z) (R : nat) :
  (M * (fst (numerators N M R) * fst (numerators N M R))
   + (N - M) * (snd (numerators N M R) * snd (numerators N M R))
   = N * (4 * N * N) ^ Z.of_nat R)%Z.
Proof.
  induction R as [|R IH].
  - simpl. ring.
  - cbn [numerators]. destruct (numerators N M R) as [a b].
    cbn [fst snd] in *.
    rewrite Nat2Z.inj_succ, Z.pow_succ_r by lia.
    replace (N * (4 * N * N * (4 * N * N) ^ Z.of_nat R))%Z
      with (4 * N * N * (N * (4 * N * N) ^ Z.of_nat R))%Z by ring.
    rewrite <- IH. ring.
Qed.

End AnyClosedForm.

(* ================================================================== *)
(** * The toy example on other grids

    Properties of the functions of Task 1 for any clause list and any
    registers, as Task 2 and Task 3 use them. *)

(** Case analysis on a number: 0, 1, ..., [k - 1], and [k] or more. *)
Ltac cases_upto n k :=
  lazymatch k with
  | O => idtac
  | S ?k' => destruct n as [|n]; [|cases_upto n k']
  end.

Section OtherGrids.
Import ToyExample.
Local Open Scope string_scope.
Local Open Scope list_scope.

(** An example input.  Task 2 leaves the clause list of its six-tile grid
    to the reader; this is one for a grid of three rows and two columns,
    its tiles numbered row by row, where neighbouring tiles in a row or a
    column form a clause.  It serves as the instance on which the general
    statements below are applied. *)
Definition grid_3x2_clauses : list (list Z) :=
  [[0; 1]; [2; 3]; [4; 5]; [0; 2]; [1; 3]; [2; 4]; [3; 5]].

Definition grid_3x2_tiles : list string :=
  ["t_0"; "t_1"; "t_2"; "t_3"; "t_4"; "t_5"].

Definition grid_3x2_clause_wires : list string :=
  ["c_0"; "c_1"; "c_2"; "c_3"; "c_4"; "c_5"; "c_6"].

Definition grid_3x2_pairs : list (string * string) :=
  [("t_0", "t_1"); ("t_2", "t_3"); ("t_4", "t_5"); ("t_0", "t_2");
   ("t_1", "t_3"); ("t_2", "t_4"); ("t_3", "t_5")].

Lemma two_tiles_split {A} (T : list A) :
  (2 <= length T)%nat -> exists T0 t, T = T0 ++ [t] /\ T0 <> [].
Proof.
  intros HT2.
  assert (HT : T <> []) by (intros ->; simpl in HT2; lia).
  destruct (exists_last HT) as (T0 & t & ->). exists T0, t.
  split; [reflexivity|]. intros ->. simpl in HT2. lia.
Qed.

Lemma clause_wires_nonempty {A B} (clause_list : list A) (C : list B) :
  clause_list <> [] -> length C = length clause_list -> C <> [].
Proof.
  intros Hcl Hl ->. destruct clause_list; [congruence|discriminate].
Qed.

(** X1.  [xor] succeeds exactly when it is given at least two input wires
    and one output wire and the first two inputs differ from the first
    output; it then queues two CNOTs onto that output and ignores all
    further wires.  Otherwise it ends with an exception. *)
Theorem xor_succeeds_iff :
  forall (W : Type) (HW : Wire W) (input_qubits output_qubits : list W)
         (t : list (op W)),
    xor input_qubits output_qubits = Ok t
    <-> exists a b more o more',
          input_qubits = a :: b :: more /\ output_qubits = o :: more'
          /\ a <> o /\ b <> o /\ t = [CNOT a o; CNOT b o].
Proof.
  intros W HW i o t. split.
  - destruct i as [|a [|b more]]; try discriminate.
    + destruct o as [|c more']; [discriminate|].
      unfold xor, qml_CNOT, two_wires. rewrite !subscript_head.
      cbn [Py.bind]. destruct (wire_eqb a c); discriminate.
    + destruct o as [|c more']; [discriminate|].
      unfold xor, qml_CNOT, two_wires.
      rewrite !subscript_head, subscript_second. cbn [Py.bind].
      destruct (wire_eqb_spec a c) as [|Ha]; [discriminate|].
      destruct (wire_eqb_spec b c) as [|Hb]; [discriminate|].
      intros E. inversion E.
      exists a, b, more, c, more'. repeat split; assumption.
  - intros (a & b & more & c & more' & -> & -> & Ha & Hb & ->).
    now apply xor_queue.
Qed.

Lemma xor_succeeds_iff_witness :
  xor ["t_0"; "t_1"; "t_2"] ["c_0"; "c_1"]
  = Ok [CNOT "t_0" "c_0"; CNOT "t_1" "c_0"].
Proof.
  apply (proj2 (xor_succeeds_iff _ ["t_0"; "t_1"; "t_2"] ["c_0"; "c_1"]
                                 [CNOT "t_0" "c_0"; CNOT "t_1" "c_0"])).
  exists "t_0", "t_1", ["t_2"], "c_0", ["c_1"].
  repeat split; discriminate.
Defined.

(** X2.  On a device that has the three wires, [xor] adds the two inputs
    to the output modulo 2 and leaves every other wire alone; queued twice
    it restores every state. *)
Theorem xor_adds_inputs_to_output :
  forall (W : Type) (HW : Wire W) (ws : list W) (a b o : W)
         (more more' : list W),
    In a ws -> In b ws -> In o ws -> a <> o -> b <> o ->
    exists t,
      xor (a :: b :: more) (o :: more') = Ok t
      /\ (forall x, apply_tape t (ket ws x)
                    = ket ws (upd x o (xorb (x o) (xorb (x a) (x b)))))
      /\ (forall s, apply_tape (t ++ t) s = s).
Proof.
  intros W HW ws a b o more more' Ha Hb Ho Hao Hbo.
  exists (cnots [(a, b)] [o]). split; [now apply xor_queue|].
  assert (Hap : apart [(a, b)] [o]).
  { intros p [<- | []]. simpl. split; intros [E | []]; congruence. }
  assert (Hc : forallb (is_classical ws) (cnots [(a, b)] [o]) = true).
  { apply cnots_classical; [| |assumption].
    - intros p [<- | []]. now split.
    - intros c [<- | []]. assumption. }
  split.
  - intros x. rewrite (@apply_tape_ket _ _ ws _ x Hc). f_equal.
    rewrite classical_tape_cnots by assumption.
    extensionality w. unfold clause_map, upd. cbn [parity].
    unfold holds. cbn [fst snd].
    destruct (wire_eqb_spec w o) as [->|]; [|now rewrite xorb_false_r].
    now rewrite xorb_false_r.
  - apply (@apply_twice _ _ ws _ Hc). intros x.
    rewrite !pull_cnots by assumption. now apply clause_map_invol.
Qed.

Lemma xor_adds_inputs_to_output_witness :
  exists t,
    xor ["t_0"; "t_1"] ["c_0"] = Ok t
    /\ (forall x, apply_tape t (ket ["t_0"; "t_1"; "c_0"] x)
                  = ket ["t_0"; "t_1"; "c_0"]
                        (upd x "c_0" (xorb (x "c_0")
                                           (xorb (x "t_0") (x "t_1")))))
    /\ (forall s, apply_tape (t ++ t) s = s).
Proof.
  apply (@xor_adds_inputs_to_output string _ ["t_0"; "t_1"; "c_0"]
           "t_0" "t_1" "c_0" [] []);
    simpl; auto; discriminate.
Defined.

Lemma grid_3x2_resolved :
  resolve_clauses grid_3x2_tiles grid_3x2_clauses = Ok grid_3x2_pairs.
Proof. reflexivity. Qed.

(** X3.  Given a clause wire for every clause, none of them a tile,
    [clause_circuit] succeeds; on a basis state with clear clause wires it
    leaves in the i-th clause wire whether the two tiles of the i-th clause
    differ and changes no other wire; queued twice it restores every
    state. *)
Theorem clause_circuit_computes_clauses :
  forall (W : Type) (HW : Wire W) (clause_list : list (list Z))
         (T C ws : list W) (pairs : list (W * W)),
    resolve_clauses T clause_list = Ok pairs ->
    (length clause_list <= length C)%nat ->
    distinct C = true ->
    (forall q, In q T -> ~ In q C) ->
    incl T ws -> incl C ws ->
    exists t,
      clause_circuit clause_list T C = Ok t
      /\ (forall s, apply_tape (t ++ t) s = s)
      /\ (forall x, all_zero C x = true ->
            exists x',
              apply_tape t (ket ws x) = ket ws x'
              /\ (forall w, ~ In w C -> x' w = x w)
              /\ (forall i p c,
                    nth_error pairs i = Some p -> nth_error C i = Some c ->
                    x' c = xorb (x (fst p)) (x (snd p)))).
Proof.
  intros W HW cl T C ws pairs Hr Hl Hd Hdis HT HC.
  pose proof (resolve_clauses_length _ _ Hr) as Hlen.
  pose proof (resolve_clauses_In _ _ Hr) as Hin.
  assert (Hap : apart pairs C).
  { intros p Hp. destruct (Hin p Hp). split; now apply Hdis. }
  assert (Hc : forallb (is_classical ws) (cnots pairs C) = true).
  { apply cnots_classical; [|assumption|assumption].
    intros p Hp. destruct (Hin p Hp). split; now apply HT. }
  exists (cnots pairs C). split; [|split].
  - unfold clause_circuit.
    apply (@clause_loop_queue _ _ T cl pairs [] C Hr); [lia|].
    intros q c Hq Hcc ->. now apply (Hdis c).
  - apply (@apply_twice _ _ ws _ Hc). intros x.
    rewrite !pull_cnots by assumption. now apply clause_map_invol.
  - intros x Hz. exists (clause_map pairs C x).
    split; [|split].
    + rewrite (@apply_tape_ket _ _ ws _ x Hc).
      now rewrite classical_tape_cnots.
    + intros w Hw. unfold clause_map.
      now rewrite parity_outside, xorb_false_r.
    + intros i p c Hp Hcc.
      apply (@clause_map_nth _ _ pairs C x i p c); try assumption.
      now apply distinct_NoDup.
Qed.

Lemma clause_circuit_computes_clauses_witness :
  exists t,
    clause_circuit grid_3x2_clauses grid_3x2_tiles grid_3x2_clause_wires
    = Ok t
    /\ (forall s, apply_tape (t ++ t) s = s)
    /\ (forall x, all_zero grid_3x2_clause_wires x = true ->
          exists x',
            apply_tape t (ket (grid_3x2_tiles ++ grid_3x2_clause_wires) x)
            = ket (grid_3x2_tiles ++ grid_3x2_clause_wires) x'
            /\ (forall w, ~ In w grid_3x2_clause_wires -> x' w = x w)
            /\ (forall i p c,
                  nth_error grid_3x2_pairs i = Some p ->
                  nth_error grid_3x2_clause_wires i = Some c ->
                  x' c = xorb (x (fst p)) (x (snd p)))).
Proof.
  apply (@clause_circuit_computes_clauses string _ grid_3x2_clauses
           grid_3x2_tiles grid_3x2_clause_wires
           (grid_3x2_tiles ++ grid_3x2_clause_wires) grid_3x2_pairs).
  - reflexivity.
  - simpl. lia.
  - reflexivity.
  - intros q Hq Hc. simpl in Hq, Hc.
    repeat (destruct Hq as [<- | Hq];
            [repeat (destruct Hc as [Hc | Hc]; [discriminate|]);
             contradiction|]).
    contradiction.
  - intros q Hq. apply in_or_app. now left.
  - intros q Hq. apply in_or_app. now right.
Defined.

Definition grid_3x2_wires : list string :=
  grid_3x2_tiles ++ grid_3x2_clause_wires ++ ["r_0"].

(** X5.  With at least one clause, one clause wire per clause and tiles,
    clause wires and the result wire all different, [oracle] succeeds, a
    device with these wires runs every gate of it, and on every basis state
    with clear clause wires it changes the result wire only: the result is
    flipped exactly when the two tiles of every clause differ. *)
Theorem oracle_flips_result_iff_all_clauses_hold :
  forall (W : Type) (HW : Wire W) (clause_list : list (list Z))
         (T C : list W) (r : W) (pairs : list (W * W)),
    clause_list <> [] ->
    distinct (T ++ C ++ [r]) = true ->
    resolve_clauses T clause_list = Ok pairs ->
    length C = length clause_list ->
    exists t,
      oracle clause_list T C [r] = Ok t
      /\ refused (T ++ C ++ [r]) t = None
      /\ forall x, all_zero C x = true ->
           apply_tape t (ket (T ++ C ++ [r]) x)
           = ket (T ++ C ++ [r])
                 (upd x r (xorb (x r)
                     (forallb (fun p => xorb (x (fst p)) (x (snd p)))
                              pairs))).
Proof.
  intros W HW cl T C r pairs Hcl Hd Hr Hl.
  pose proof (@laid_out_of _ _ cl T C r pairs Hd Hr) as Hlo.
  pose proof (@resolve_clauses_length _ T cl pairs Hr) as Hlen.
  assert (HC : C <> []) by exact (@clause_wires_nonempty _ _ _ C Hcl Hl).
  exists (oracle_ops pairs C r). split; [|split].
  - apply (@oracle_queue_any _ _ cl T C r pairs Hlo Hr). lia.
  - now apply oracle_ops_accepted.
  - intros x Hz.
    rewrite (@apply_tape_ket _ _ (T ++ C ++ [r]) _ x
               (@oracle_ops_classical _ _ T C r pairs Hlo)).
    rewrite (@oracle_ops_forward _ _ T C r pairs Hlo).
    rewrite computed_clauses
      by (apply (@lo_C _ T C r pairs Hlo) || congruence || assumption).
    reflexivity.
Qed.

Lemma oracle_flips_result_iff_all_clauses_hold_witness :
  exists t,
    oracle grid_3x2_clauses grid_3x2_tiles grid_3x2_clause_wires ["r_0"]
    = Ok t
    /\ refused grid_3x2_wires t = None
    /\ forall x, all_zero grid_3x2_clause_wires x = true ->
         apply_tape t (ket grid_3x2_wires x)
         = ket grid_3x2_wires
               (upd x "r_0" (xorb (x "r_0")
                   (forallb (fun p => xorb (x (fst p)) (x (snd p)))
                            grid_3x2_pairs))).
Proof.
  apply (@oracle_flips_result_iff_all_clauses_hold string _
           grid_3x2_clauses grid_3x2_tiles grid_3x2_clause_wires "r_0"
           grid_3x2_pairs); (discriminate || reflexivity).
Defined.

(** X6.  With more clause wires than clauses the multi-controlled gate
    never fires: [oracle] still succeeds, but it leaves every basis state
    with clear clause wires as it is, so it marks nothing. *)
Theorem oracle_with_spare_clause_wire_marks_nothing :
  forall (W : Type) (HW : Wire W) (clause_list : list (list Z))
         (T C : list W) (r : W) (pairs : list (W * W)),
    distinct (T ++ C ++ [r]) = true ->
    resolve_clauses T clause_list = Ok pairs ->
    (length clause_list < length C)%nat ->
    exists t,
      oracle clause_list T C [r] = Ok t
      /\ forall x, all_zero C x = true ->
           apply_tape t (ket (T ++ C ++ [r]) x) = ket (T ++ C ++ [r]) x.
Proof.
  intros W HW cl T C r pairs Hd Hr Hl.
  pose proof (@laid_out_of _ _ cl T C r pairs Hd Hr) as Hlo.
  pose proof (@resolve_clauses_length _ T cl pairs Hr) as Hlen.
  exists (oracle_ops pairs C r). split.
  - apply (@oracle_queue_any _ _ cl T C r pairs Hlo Hr). lia.
  - intros x Hz.
    rewrite (@apply_tape_ket _ _ (T ++ C ++ [r]) _ x
               (@oracle_ops_classical _ _ T C r pairs Hlo)).
    rewrite (@oracle_ops_forward _ _ T C r pairs Hlo).
    rewrite idle_clause_wire
      by (apply (@lo_C _ T C r pairs Hlo) || lia || assumption).
    now rewrite xorb_false_r, upd_id.
Qed.

Lemma oracle_with_spare_clause_wire_marks_nothing_witness :
  exists t,
    oracle clause_list tile_qubits grid_3x2_clause_wires ["r_0"] = Ok t
    /\ forall x, all_zero grid_3x2_clause_wires x = true ->
         apply_tape t (ket (tile_qubits ++ grid_3x2_clause_wires ++ ["r_0"]) x)
         = ket (tile_qubits ++ grid_3x2_clause_wires ++ ["r_0"]) x.
Proof.
  apply (@oracle_with_spare_clause_wire_marks_nothing string _
           clause_list tile_qubits grid_3x2_clause_wires "r_0"
           [("t_0", "t_1"); ("t_0", "t_2"); ("t_1", "t_3"); ("t_2", "t_3")]).
  - reflexivity.
  - reflexivity.
  - simpl. lia.
Defined.

(** X7.  [oracle] is its own inverse.  With at least one clause wire, no
    fewer clause wires than clauses and all wires different, a device with
    these wires runs the oracle queued twice, and that restores every
    state, also those with clause wires that are not clear. *)
Theorem oracle_twice_is_identity :
  forall (W : Type) (HW : Wire W) (clause_list : list (list Z))
         (T C : list W) (r : W) (pairs : list (W * W)),
    C <> [] ->
    distinct (T ++ C ++ [r]) = true ->
    resolve_clauses T clause_list = Ok pairs ->
    (length clause_list <= length C)%nat ->
    exists t,
      oracle clause_list T C [r] = Ok t
      /\ (oracle clause_list T C [r] ;; oracle clause_list T C [r])
         = Ok (t ++ t)
      /\ refused (T ++ C ++ [r]) (t ++ t) = None
      /\ forall s, apply_tape (t ++ t) s = s.
Proof.
  intros W HW cl T C r pairs HC Hd Hr Hl.
  pose proof (@laid_out_of _ _ cl T C r pairs Hd Hr) as Hlo.
  pose proof (@resolve_clauses_length _ T cl pairs Hr) as Hlen.
  assert (Hq : oracle cl T C [r] = Ok (oracle_ops pairs C r)).
  { apply (@oracle_queue_any _ _ cl T C r pairs Hlo Hr). lia. }
  exists (oracle_ops pairs C r). split; [exact Hq|]. split; [|split].
  - now rewrite Hq.
  - now rewrite refused_app, (oracle_ops_accepted Hlo HC).
  - apply (@apply_twice _ _ (T ++ C ++ [r]) _ (@oracle_ops_classical _ _ T C r pairs Hlo)).
    intros x. now apply oracle_ops_invol with (T := T).
Qed.

Lemma oracle_twice_is_identity_witness :
  exists t,
    oracle grid_3x2_clauses grid_3x2_tiles grid_3x2_clause_wires ["r_0"]
    = Ok t
    /\ (oracle grid_3x2_clauses grid_3x2_tiles grid_3x2_clause_wires ["r_0"]
        ;; oracle grid_3x2_clauses grid_3x2_tiles grid_3x2_clause_wires
                  ["r_0"])
       = Ok (t ++ t)
    /\ refused grid_3x2_wires (t ++ t) = None
    /\ forall s, apply_tape (t ++ t) s = s.
Proof.
  apply (@oracle_twice_is_identity string _
           grid_3x2_clauses grid_3x2_tiles grid_3x2_clause_wires "r_0"
           grid_3x2_pairs); (discriminate || reflexivity).
Defined.

(** X8.  Phase kickback.  With at least one clause, one clause wire per
    clause and all wires different, a device with these wires runs the
    gates of [oracle], and on a state whose clause wires are clear and
    whose result wire is in |-> (the amplitude with result 1 is minus the
    amplitude with result 0) they multiply the amplitude of every basis
    state that satisfies all clauses by -1 and keep all other
    amplitudes. *)
Theorem oracle_kicks_back_phase :
  forall (W : Type) (HW : Wire W) (clause_list : list (list Z))
         (T C : list W) (r : W) (pairs : list (W * W)) (s : @state W),
    clause_list <> [] ->
    distinct (T ++ C ++ [r]) = true ->
    resolve_clauses T clause_list = Ok pairs ->
    length C = length clause_list ->
    (forall x, all_zero C x = false -> vec s x = 0) ->
    (forall x, vec s (upd x r true) = - vec s (upd x r false)) ->
    exists t,
      oracle clause_list T C [r] = Ok t
      /\ refused (T ++ C ++ [r]) t = None
      /\ forall x,
           amp (apply_tape t s) x
           = ((if forallb (fun p => xorb (x (fst p)) (x (snd p))) pairs
               then -1 else 1) * amp s x)%R.
Proof.
  intros W HW cl T C r pairs s Hcl Hd Hr Hl Hclear Hminus.
  pose proof (@laid_out_of _ _ cl T C r pairs Hd Hr) as Hlo.
  pose proof (@resolve_clauses_length _ T cl pairs Hr) as Hlen.
  assert (HC : C <> []) by exact (@clause_wires_nonempty _ _ _ C Hcl Hl).
  exists (oracle_ops pairs C r). split; [|split].
  - apply (@oracle_queue_any _ _ cl T C r pairs Hlo Hr). lia.
  - now apply oracle_ops_accepted.
  - intros x.
    rewrite (@apply_tape_classical _ _ (T ++ C ++ [r]) _
               (@oracle_ops_classical _ _ T C r pairs Hlo)).
    unfold amp. cbn [scale vec].
    rewrite (@oracle_ops_pull _ _ T C r pairs Hlo).
    fold (holds x). fold (all_hold pairs x).
    assert (E : vec s (upd x r (xorb (x r)
                                     (all_one C (clause_map pairs C x))))
                = (if all_hold pairs x then -1 else 1) * vec s x).
    { destruct (all_zero C x) eqn:Hz.
      - rewrite computed_clauses
          by (apply (@lo_C _ T C r pairs Hlo) || congruence || assumption).
        destruct (all_hold pairs x).
        + rewrite xorb_true_r.
          rewrite <- (upd_id x r) at 3.
          destruct (x r); cbn [negb]; rewrite Hminus; lia.
        + rewrite xorb_false_r, upd_id. lia.
      - rewrite (Hclear x Hz), Hclear.
        + destruct (all_hold pairs x); reflexivity.
        + rewrite all_zero_upd by apply (@lo_rC _ T C r pairs Hlo).
          exact Hz. }
    rewrite E, mult_IZR.
    destruct (all_hold pairs x); unfold Rdiv; ring.
Qed.

(** Clause wires clear, result wire in |->, all tile values alike. *)
Definition search_state : @state string :=
  {| scale := 1;
     vec := fun y => if all_zero clause_qubits y then sgn (y "r_0") else 0 |}.

Lemma oracle_kicks_back_phase_witness :
  exists t,
    oracle clause_list tile_qubits clause_qubits ["r_0"] = Ok t
    /\ refused wires t = None
    /\ forall x,
         amp (apply_tape t search_state) x
         = ((if forallb (fun p => xorb (x (fst p)) (x (snd p)))
                        [("t_0", "t_1"); ("t_0", "t_2");
                         ("t_1", "t_3"); ("t_2", "t_3")]
             then -1 else 1)
            * amp search_state x)%R.
Proof.
  apply (@oracle_kicks_back_phase string _ clause_list tile_qubits
           clause_qubits "r_0").
  - discriminate.
  - reflexivity.
  - reflexivity.
  - reflexivity.
  - intros x Hz. cbn [vec search_state]. now rewrite Hz.
  - intros x. vm_compute. all_bits x; reflexivity.
Defined.

(** X9.  [init_states] ends with [IndexError] exactly when it is given no
    result wire.  Otherwise, run on a fresh device, it leaves the tiles in
    the uniform superposition, the clause wires clear and the first result
    wire in |->: the amplitude of a basis state with clear clause wires is
    +-1 / sqrt 2 ^ (number of tiles + 1), negative when the result bit is
    set, and 0 for every other basis state. *)
Theorem init_states_prepares_search_state :
  forall (W : Type) (HW : Wire W) (T C : list W) (r : W) (more : list W),
    distinct (T ++ C ++ [r]) = true ->
    (exists s,
        run (T ++ C ++ [r]) (init_states T (r :: more)) = Ok s
        /\ forall x,
             amp s x
             = (if all_zero C x
                then (if x r then -1 else 1) / sqrt 2 ^ S (length T)
                else 0)%R)
    /\ (forall e, init_states T [] = Raise e <-> e = IndexError)
    /\ (forall result_qubits e,
          init_states T result_qubits = Raise e -> result_qubits = []).
Proof.
  intros W HW T C r more Hd.
  assert (Hlo : laid_out T C r []).
  { split; [now apply distinct_NoDup | intros p []]. }
  split; [|split].
  - exists (shape C r [] (S (length T)) 1 1). split.
    + rewrite init_states_queue_any. rewrite run_accepted.
      * f_equal. apply (@init_state_any _ _ T C r [] Hlo).
      * unfold init_ops. rewrite forallb_app.
        rewrite on_device_Hadamards
          by (intros q Hq; apply in_or_app; now left).
        unfold on_device. cbn [forallb op_wires andb].
        replace (mem r (T ++ C ++ [r])) with true; [reflexivity|].
        symmetry. apply mem_In, in_or_app. right.
        apply in_or_app. right. now left.
      * unfold init_ops. rewrite forallb_app, executable_Hadamards.
        reflexivity.
    + intros x. unfold amp, shape, guard_on, pick_on. cbn [scale vec all_hold forallb].
      destruct (all_zero C x), (x r); cbn [sgn]; unfold Rdiv; simpl IZR;
        ring.
  - intros e. unfold init_states. rewrite for_each_queue.
    cbn. split; [intros E; now inversion E | now intros ->].
  - intros [|r' rs] e; [reflexivity|].
    unfold init_states. rewrite for_each_queue, subscript_head.
    discriminate.
Qed.

Lemma init_states_prepares_search_state_witness :
  (exists s,
      run grid_3x2_wires (init_states grid_3x2_tiles ["r_0"]) = Ok s
      /\ forall x,
           amp s x
           = (if all_zero grid_3x2_clause_wires x
              then (if x "r_0" then -1 else 1) / sqrt 2 ^ 7
              else 0)%R)
  /\ (forall e, init_states grid_3x2_tiles [] = Raise e <-> e = IndexError)
  /\ (forall result_qubits e,
        init_states grid_3x2_tiles result_qubits = Raise e ->
        result_qubits = []).
Proof.
  apply (@init_states_prepares_search_state string _ grid_3x2_tiles
           grid_3x2_clause_wires "r_0" []).
  reflexivity.
Defined.

(** *** Sampling the tiles after [R] iterations *)

(** The probability that a sample satisfies all clauses, and the
    probability of all samples together, for a distribution [d] over the
    values of the tiles. *)
Definition success_on {W} `{Wire W} (T : list W) (pairs : list (W * W))
           (d : @basis W -> R) : R :=
  Rsum_over T (fun y => if all_hold pairs y then d y else 0%R)
            (fun _ => false).

Definition total_on {W} `{Wire W} (T : list W) (d : @basis W -> R) : R :=
  Rsum_over T d (fun _ => false).

Lemma Rsum_over_pick2 {W} `{Wire W} (p : @basis W -> bool) (c1 c2 : R) :
  forall (qs : list W) x,
    Rsum_over qs (fun y => if p y then c1 else c2) x
    = (IZR (sum_over qs (fun y => if p y then 1 else 0)%Z x) * c1
       + (2 ^ length qs
          - IZR (sum_over qs (fun y => if p y then 1 else 0)%Z x)) * c2)%R.
Proof.
  induction qs as [|q qs IH]; intros x.
  - cbn [Rsum_over sum_over length pow]. destruct (p x); simpl; ring.
  - cbn [Rsum_over sum_over length]. rewrite !IH, plus_IZR.
    simpl pow. ring.
Qed.

Lemma scale_power (n R : nat) :
  (2 ^ (S n + R * (2 * S n)) = 2 * 2 ^ n * ((2 * 2 ^ n) ^ R) ^ 2)%R.
Proof.
  rewrite pow_add.
  replace (R * (2 * S n))%nat with (S n * (R * 2))%nat by lia.
  rewrite !pow_mult. rewrite <- !tech_pow_Rmult. reflexivity.
Qed.

Lemma times_one {W} (body : circ W) : times 1 body = body.
Proof.
  unfold times. change (range 1) with [0]. cbn [for_each].
  unfold then_, nothing. destruct body as [t|e]; [|reflexivity].
  now rewrite app_nil_r.
Qed.

Lemma qnode_steps {W} `{Wire W} (clause_list : list (list Z))
      (T0 : list W) (t : W) (C : list W) (r : W) (pairs : list (W * W))
      (R : nat) :
  laid_out (T0 ++ [t]) C r pairs ->
  resolve_clauses (T0 ++ [t]) clause_list = Ok pairs ->
  length C = length pairs ->
  C <> [] -> T0 <> [] ->
  qnode ((T0 ++ [t]) ++ C ++ [r])
        (grover_steps R clause_list (T0 ++ [t]) C [r]) (T0 ++ [t])
  = Ok (fun x =>
          (IZR (2 * (pick_on pairs
                       (fst (numerators (2 ^ Z.of_nat (length (T0 ++ [t])))
                                        (solutions (T0 ++ [t]) pairs) R))
                       (snd (numerators (2 ^ Z.of_nat (length (T0 ++ [t])))
                                        (solutions (T0 ++ [t]) pairs) R)) x
                     * pick_on pairs
                       (fst (numerators (2 ^ Z.of_nat (length (T0 ++ [t])))
                                        (solutions (T0 ++ [t]) pairs) R))
                       (snd (numerators (2 ^ Z.of_nat (length (T0 ++ [t])))
                                        (solutions (T0 ++ [t]) pairs) R)) x))
           / 2 ^ (S (length (T0 ++ [t]))
                  + R * (2 * S (length (T0 ++ [t])))))%R).
Proof.
  intros Hlo Hr Hl HC HT0. unfold qnode.
  rewrite (@run_steps_any _ _ clause_list T0 t C r pairs Hlo Hr Hl HC HT0 R).
  cbn [Py.bind].
  rewrite (@unsampled_tiles_any _ _ T0 t C r pairs Hlo).
  f_equal. extensionality x. unfold probability.
  rewrite (@weight_shape _ _ T0 t C r pairs Hlo). reflexivity.
Qed.

Lemma steps_success {W} `{Wire W} (clause_list : list (list Z))
      (T C : list W) (r : W) (pairs : list (W * W)) (R : nat) :
  (2 <= length T)%nat ->
  clause_list <> [] ->
  distinct (T ++ C ++ [r]) = true ->
  resolve_clauses T clause_list = Ok pairs ->
  length C = length clause_list ->
  exists d,
    qnode (T ++ C ++ [r]) (grover_steps R clause_list T C [r]) T = Ok d
    /\ success_on T pairs d
       = ((sin ((2 * INR R + 1)
                * grover_angle (2 ^ length T)
                               (IZR (solutions T pairs)))) ^ 2)%R.
Proof.
  intros HT2 Hcl Hd Hr Hl.
  destruct (@two_tiles_split _ T HT2) as (T0 & t & -> & HT0).
  pose proof (@laid_out_of _ _ clause_list (T0 ++ [t]) C r pairs Hd Hr)
    as Hlo.
  pose proof (@resolve_clauses_length _ (T0 ++ [t]) clause_list pairs Hr)
    as Hlen.
  assert (Hl' : length C = length pairs) by congruence.
  assert (HC : C <> []) by exact (@clause_wires_nonempty _ _ _ C Hcl Hl).
  eexists.
  split; [apply (@qnode_steps _ _ clause_list T0 t C r pairs R
                   Hlo Hr Hl' HC HT0)|].
  set (n := length (T0 ++ [t])).
  set (N := 2 ^ Z.of_nat n). set (M := solutions (T0 ++ [t]) pairs).
  assert (HN : 0 < N) by (unfold N; apply Z.pow_pos_nonneg; lia).
  assert (HM : 0 <= M <= N).
  { unfold M, N, n.
    rewrite <- (@count_solutions _ _ (T0 ++ [t]) C r pairs Hlo
                  (fun _ => false)).
    apply count_bounds. }
  assert (HNr : IZR N = (2 ^ n)%R) by apply IZR_pow2.
  rewrite <- HNr, (formula_rational R HN HM).
  destruct (numerators N M R) as [a b]. cbn [fst snd].
  unfold success_on.
  replace (fun y : @basis W =>
             if all_hold pairs y
             then (IZR (2 * (pick_on pairs a b y * pick_on pairs a b y))
                   / 2 ^ (S n + R * (2 * S n)))%R
             else 0%R)
    with (fun y : @basis W =>
            if all_hold pairs y
            then (IZR (2 * (a * a)) / 2 ^ (S n + R * (2 * S n)))%R
            else 0%R)
    by (extensionality y; unfold pick_on;
        destruct (all_hold pairs y); reflexivity).
  rewrite Rsum_over_pick.
  rewrite (@count_solutions _ _ (T0 ++ [t]) C r pairs Hlo). fold M.
  rewrite scale_power, <- HNr, !mult_IZR.
  assert (HN0 : IZR N <> 0%R) by (apply not_0_IZR; lia).
  assert (Hp : ((2 * IZR N) ^ R)%R <> 0%R)
    by (apply pow_nonzero; apply Rmult_integral_contrapositive_currified;
        [lra | assumption]).
  field. split; assumption.
Qed.

(** X10.  The formula of Task 3 holds for every grid.  For any clause
    list with at least one clause over at least two tiles, with one clause
    wire per clause and all wires different, the circuit with [R]
    iterations runs, and the
    probability that the sample of the tiles satisfies all clauses is
    sin^2((2R+1) arccos(sqrt((N-M)/N))), with N = 2^(number of tiles) and
    M the number of tile values that satisfy all clauses.  [grover] is the
    circuit with one iteration. *)
Theorem grover_success_on_any_grid :
  forall (W : Type) (HW : Wire W) (clause_list : list (list Z))
         (T C : list W) (r : W) (pairs : list (W * W)) (R : nat),
    (2 <= length T)%nat ->
    clause_list <> [] ->
    distinct (T ++ C ++ [r]) = true ->
    resolve_clauses T clause_list = Ok pairs ->
    length C = length clause_list ->
    (exists d,
        qnode (T ++ C ++ [r]) (grover_steps R clause_list T C [r]) T = Ok d
        /\ success_on T pairs d
           = ((sin ((2 * INR R + 1)
                    * grover_angle (2 ^ length T)
                                   (IZR (solutions T pairs)))) ^ 2)%R)
    /\ grover clause_list T C [r] = grover_steps 1 clause_list T C [r].
Proof.
  intros W HW cl T C r pairs R HT Hcl Hd Hr Hl. split.
  - now apply steps_success.
  - unfold grover, grover_steps. now rewrite times_one.
Qed.

Lemma grover_success_on_any_grid_witness :
  (exists d,
      qnode grid_3x2_wires
            (grover_steps 4 grid_3x2_clauses grid_3x2_tiles
                          grid_3x2_clause_wires ["r_0"])
            grid_3x2_tiles = Ok d
      /\ success_on grid_3x2_tiles grid_3x2_pairs d
         = ((sin ((2 * INR 4 + 1)
                  * grover_angle (2 ^ 6)
                      (IZR (solutions grid_3x2_tiles grid_3x2_pairs)))) ^ 2)%R)
  /\ grover grid_3x2_clauses grid_3x2_tiles grid_3x2_clause_wires ["r_0"]
     = grover_steps 1 grid_3x2_clauses grid_3x2_tiles grid_3x2_clause_wires
                    ["r_0"].
Proof.
  apply (@grover_success_on_any_grid string _ grid_3x2_clauses
           grid_3x2_tiles grid_3x2_clause_wires "r_0" grid_3x2_pairs 4).
  - simpl. lia.
  - discriminate.
  - reflexivity.
  - reflexivity.
  - reflexivity.
Defined.

(** X11.  The outcome probabilities of that circuit on the tile wires
    (at least one clause, at least two tiles, one clause wire per clause,
    all wires different) sum to one, for every number of iterations. *)
Theorem grover_outcomes_sum_to_one :
  forall (W : Type) (HW : Wire W) (clause_list : list (list Z))
         (T C : list W) (r : W) (pairs : list (W * W)) (R : nat),
    (2 <= length T)%nat ->
    clause_list <> [] ->
    distinct (T ++ C ++ [r]) = true ->
    resolve_clauses T clause_list = Ok pairs ->
    length C = length clause_list ->
    exists d,
      qnode (T ++ C ++ [r]) (grover_steps R clause_list T C [r]) T = Ok d
      /\ (forall x, 0 <= d x)%R
      /\ total_on T d = 1%R.
Proof.
  intros W HW cl T C r pairs R HT2 Hcl Hd Hr Hl.
  destruct (@two_tiles_split _ T HT2) as (T0 & t & -> & HT0). clear HT2.
  pose proof (@laid_out_of _ _ cl (T0 ++ [t]) C r pairs Hd Hr) as Hlo.
  pose proof (@resolve_clauses_length _ (T0 ++ [t]) cl pairs Hr) as Hlen.
  assert (Hl' : length C = length pairs) by congruence.
  assert (HC : C <> []) by exact (@clause_wires_nonempty _ _ _ C Hcl Hl).
  eexists.
  split; [apply (@qnode_steps _ _ cl T0 t C r pairs R Hlo Hr Hl' HC HT0)|].
  set (n := length (T0 ++ [t])).
  set (N := 2 ^ Z.of_nat n). set (M := solutions (T0 ++ [t]) pairs).
  assert (HNr : IZR N = (2 ^ n)%R) by apply IZR_pow2.
  pose proof (numerators_norm N M R) as Hnorm.
  destruct (numerators N M R) as [a b]. cbn [fst snd] in *.
  assert (Hpos : (0 < 2 ^ (S n + R * (2 * S n)))%R)
    by (apply pow_lt; lra).
  split.
  - intros x. apply Rmult_le_pos.
    + apply IZR_le. nia.
    + left. now apply Rinv_0_lt_compat.
  - unfold total_on.
    replace (fun x : @basis W =>
               (IZR (2 * (pick_on pairs a b x * pick_on pairs a b x))
                / 2 ^ (S n + R * (2 * S n)))%R)
      with (fun y : @basis W =>
              if all_hold pairs y
              then (IZR (2 * (a * a)) / 2 ^ (S n + R * (2 * S n)))%R
              else (IZR (2 * (b * b)) / 2 ^ (S n + R * (2 * S n)))%R)
      by (extensionality y; unfold pick_on;
          destruct (all_hold pairs y); reflexivity).
    rewrite Rsum_over_pick2.
    rewrite (@count_solutions _ _ (T0 ++ [t]) C r pairs Hlo). fold M.
    fold n. rewrite <- HNr.
    assert (E : (IZR M * (IZR a * IZR a) + (IZR N - IZR M) * (IZR b * IZR b)
                 = IZR N * ((2 * IZR N) ^ R) ^ 2)%R).
    { rewrite <- !mult_IZR, <- minus_IZR, <- mult_IZR, <- plus_IZR, Hnorm.
      rewrite mult_IZR, <- pow_IZR, !mult_IZR.
      rewrite <- pow_mult, Nat.mul_comm, pow_mult. f_equal. f_equal.
      simpl. ring. }
    rewrite scale_power, <- HNr, !mult_IZR.
    assert (HN0 : IZR N <> 0%R)
      by (rewrite HNr; apply pow_nonzero; lra).
    assert (Hp : ((2 * IZR N) ^ R)%R <> 0%R)
      by (apply pow_nonzero; apply Rmult_integral_contrapositive_currified;
          [lra | assumption]).
    transitivity
      ((2 * (IZR M * (IZR a * IZR a) + (IZR N - IZR M) * (IZR b * IZR b)))
       / (2 * IZR N * ((2 * IZR N) ^ R) ^ 2))%R.
    + simpl IZR. field. split; assumption.
    + rewrite E. field. split; assumption.
Qed.

Lemma grover_outcomes_sum_to_one_witness :
  exists d,
    qnode grid_3x2_wires
          (grover_steps 4 grid_3x2_clauses grid_3x2_tiles
                        grid_3x2_clause_wires ["r_0"])
          grid_3x2_tiles = Ok d
    /\ (forall x, 0 <= d x)%R
    /\ total_on grid_3x2_tiles d = 1%R.
Proof.
  apply (@grover_outcomes_sum_to_one string _ grid_3x2_clauses
           grid_3x2_tiles grid_3x2_clause_wires "r_0" grid_3x2_pairs 4).
  - simpl. lia.
  - discriminate.
  - reflexivity.
  - reflexivity.
  - reflexivity.
Defined.

(** *** The table of Task 3 *)

(** The success probabilities the notebook lists for grids with [n] tiles
    and two solutions after a number of iteration steps, in per mille
    (78.1 % is 781). *)
Definition success_table (n steps : nat) : option Z :=
  match n, steps with
  | 4%nat, 1%nat => Some 781
  | 4%nat, 2%nat => Some 945
  | 6%nat, 1%nat => Some 258
  | 6%nat, 2%nat => Some 602
  | 6%nat, 3%nat => Some 897
  | 6%nat, 4%nat => Some 999
  | 8%nat, 1%nat => Some 69
  | 8%nat, 2%nat => Some 183
  | 8%nat, 3%nat => Some 337
  | 8%nat, 4%nat => Some 511
  | 8%nat, 8%nat => Some 996
  | _, _ => None
  end.

Ltac table_entry N :=
  match goal with
  | |- context [grover_angle ?n2 _] =>
      replace n2 with (IZR N) by (simpl; lra)
  end;
  rewrite formula_rational by lia;
  match goal with
  | |- context [fst (numerators N 2 ?k)] =>
      let v := eval vm_compute in (fst (numerators N 2 k)) in
      change (fst (numerators N 2 k)) with v;
      let d := eval vm_compute in ((2 * N) ^ Z.of_nat k) in
      replace ((2 * IZR N) ^ k)%R with (IZR d)
        by (rewrite <- mult_IZR, pow_IZR; apply f_equal; vm_compute;
            reflexivity)
  end;
  apply Rabs_le; split; lra.

Lemma formula_in_table (n steps : nat) (p : Z) :
  success_table n steps = Some p ->
  (Rabs ((sin ((2 * INR steps + 1) * grover_angle (2 ^ n) 2)) ^ 2
         - IZR p / 1000) <= 5 / 10000)%R.
Proof.
  intros Hp.
  cases_upto n 9%nat; try discriminate Hp;
    cases_upto steps 9%nat; try discriminate Hp;
    inversion Hp; subst p.
  - table_entry 16.
  - table_entry 16.
  - table_entry 64.
  - table_entry 64.
  - table_entry 64.
  - table_entry 64.
  - table_entry 256.
  - table_entry 256.
  - table_entry 256.
  - table_entry 256.
  - table_entry 256.
Qed.

(** X12.  The table of Task 3 is what the circuits do.  For any grid
    with 4, 6 or 8 tiles and exactly two solutions, the circuit with the
    listed number of iteration steps samples a solution with the listed
    probability, up to the rounding of the table (half of the last printed
    digit, 0.05 %). *)
Theorem success_table_matches_circuits :
  forall (W : Type) (HW : Wire W) (clause_list : list (list Z))
         (T C : list W) (r : W) (pairs : list (W * W)) (steps : nat)
         (p : Z),
    distinct (T ++ C ++ [r]) = true ->
    resolve_clauses T clause_list = Ok pairs ->
    length C = length clause_list ->
    solutions T pairs = 2 ->
    success_table (length T) steps = Some p ->
    exists d,
      qnode (T ++ C ++ [r]) (grover_steps steps clause_list T C [r]) T = Ok d
      /\ (Rabs (success_on T pairs d - IZR p / 1000) <= 5 / 10000)%R.
Proof.
  intros W HW cl T C r pairs steps p Hd Hr Hl Hs Hp.
  assert (HT : (2 <= length T)%nat).
  { destruct (length T) as [|[|n]]; (discriminate Hp || lia). }
  assert (Hcl : cl <> []).
  { intros ->. cbn in Hr. inversion Hr. subst pairs.
    rewrite solutions_no_clause in Hs.
    assert (2 ^ 2 <= 2 ^ Z.of_nat (length T))
      by (apply Z.pow_le_mono_r; lia).
    lia. }
  destruct (@steps_success _ _ cl T C r pairs steps HT Hcl Hd Hr Hl)
    as (d & Hq & Hf).
  exists d. split; [exact Hq|].
  rewrite Hf, Hs. now apply formula_in_table.
Qed.

Lemma grid_3x2_solutions : solutions grid_3x2_tiles grid_3x2_pairs = 2.
Proof. vm_compute. reflexivity. Qed.

Lemma success_table_matches_circuits_witness :
  exists d,
    qnode grid_3x2_wires
          (grover_steps 4 grid_3x2_clauses grid_3x2_tiles
                        grid_3x2_clause_wires ["r_0"])
          grid_3x2_tiles = Ok d
    /\ (Rabs (success_on grid_3x2_tiles grid_3x2_pairs d - 999 / 1000)
        <= 5 / 10000)%R.
Proof.
  apply (@success_table_matches_circuits string _ grid_3x2_clauses
           grid_3x2_tiles grid_3x2_clause_wires "r_0" grid_3x2_pairs 4 999).
  - reflexivity.
  - reflexivity.
  - reflexivity.
  - exact grid_3x2_solutions.
  - reflexivity.
Defined.

End OtherGrids.

(* ================================================================== *)
(** * The four-qubit search of the introduction *)

Section FourQubitSearch.
Import Introduction.
Local Open Scope list_scope.

Implicit Types (x y : @basis Z).

(** The basis states the oracle of Solution 2.2 marks: wires 0 to 3 carry
    1, 0, 0, 1. *)
Definition is_1001 x : bool :=
  controls_hold [0; 1; 2] [true; false; false] x && x 3.

(** Numerator [a] on the marked states and [b] on the others. *)
Definition marked (k : nat) (a b : Z) : @state Z :=
  {| scale := k; vec := fun x => if is_1001 x then a else b |}.

Lemma four_qubit_oracle_queue (g : NQubit.globals) :
  NQubit.n_qubits g = 4 -> NQubit.oracle_gates g = Ok four_qubit_oracle_tape.
Proof. intros Hn. unfold NQubit.oracle_gates. rewrite Hn. reflexivity. Qed.

Lemma four_qubit_oracle_state (s : @state Z) :
  apply_tape four_qubit_oracle_tape s
  = {| scale := S (S (scale s));
       vec := fun x => 2 * (sgn (is_1001 x) * vec s x) |}.
Proof.
  apply state_ext; [reflexivity|]. intros x.
  unfold four_qubit_oracle_tape, apply_tape. cbn [fold_left apply vec].
  match goal with
  | |- _ = ?rhs =>
      change (Hq 3 (Mx [0; 1; 2] [true; false; false] 3 (Hq 3 (vec s))) x
              = rhs)
  end.
  rewrite Hq_Mx_Hq by (simpl; lia). reflexivity.
Qed.

Lemma count_1001 x :
  sum_over (range 4) (fun y => if is_1001 y then 1 else 0) x = 1.
Proof. vm_compute. reflexivity. Qed.

Lemma four_qubit_iteration k a b :
  apply_tape (four_qubit_oracle_tape ++ diffuser_tape (range 3) 3)
             (marked k a b)
  = marked (k + 12) (- 56 * a - 120 * b) (8 * a - 56 * b).
Proof.
  rewrite apply_tape_app, four_qubit_oracle_state.
  rewrite diffuser_tape_state by (apply distinct_NoDup; reflexivity).
  unfold marked. cbn [scale vec]. f_equal; [simpl; lia|].
  extensionality x.
  change (range 3 ++ [3]) with (range 4).
  replace (fun x0 => 2 * (sgn (is_1001 x0) * (if is_1001 x0 then a else b)))
    with (fun y : @basis Z => if is_1001 y then - 2 * a else 2 * b)
    by (extensionality y; destruct (is_1001 y); cbn [sgn]; lia).
  rewrite sum_over_pick, count_1001.
  change (2 ^ Z.of_nat (S (length (range 4)))) with 32.
  change (2 ^ Z.of_nat (length (range 4))) with 16.
  destruct (is_1001 x); cbn [sgn]; lia.
Qed.

(** Numerators after [k] iterations. *)
Fixpoint four_qubit_amplitudes (k : nat) : Z * Z :=
  match k with
  | O => (1, 1)
  | S k' => let (a, b) := four_qubit_amplitudes k' in
            (- 56 * a - 120 * b, 8 * a - 56 * b)
  end.

Lemma four_qubit_amplitudes_numerators (k : nat) :
  four_qubit_amplitudes k
  = (2 ^ Z.of_nat k * fst (numerators 16 1 k),
     2 ^ Z.of_nat k * snd (numerators 16 1 k)).
Proof.
  induction k as [|k IH]; [reflexivity|].
  cbn [four_qubit_amplitudes numerators]. rewrite IH.
  destruct (numerators 16 1 k) as [a b]. cbn [fst snd].
  rewrite Nat2Z.inj_succ, Z.pow_succ_r by lia.
  f_equal; ring.
Qed.

Lemma four_qubit_preparation :
  apply_tape (map Hadamard (range 4)) (zero_state (range 4)) = marked 4 1 1.
Proof.
  rewrite <- (app_nil_r (range 4)) at 2.
  rewrite prepare_register
    by (rewrite app_nil_r; apply distinct_NoDup; reflexivity).
  unfold marked. f_equal. extensionality x. cbn [all_zero forallb].
  now destruct (is_1001 x).
Qed.

Lemma four_qubit_grover_queue (g : NQubit.globals) (k : nat) :
  NQubit.n_qubits g = 4 -> NQubit.grover_iterations g = Z.of_nat k ->
  NQubit.grover_gates g
  = Ok (map Hadamard (range 4)
        ++ concat (repeat (four_qubit_oracle_tape
                           ++ diffuser_tape (range 3) 3) k)).
Proof.
  intros Hn Hk. unfold NQubit.grover_gates. apply then_queue.
  - unfold NQubit.state_preparation_gates. rewrite Hn.
    apply for_each_queue.
  - assert (Hb : (NQubit.oracle_gates g ;; NQubit.diffusion_gates g)
                 = Ok (four_qubit_oracle_tape ++ diffuser_tape (range 3) 3)).
    { apply then_queue; [now apply four_qubit_oracle_queue|].
      rewrite nqubit_diffusion_queue by lia. now rewrite Hn. }
    rewrite (times_queue _ Hb). now rewrite Hk, Nat2Z.id.
Qed.

Lemma four_qubit_steps_state (k : nat) :
  apply_tape (map Hadamard (range 4)
              ++ concat (repeat (four_qubit_oracle_tape
                                 ++ diffuser_tape (range 3) 3) k))
             (zero_state (range 4))
  = marked (4 + 12 * k) (fst (four_qubit_amplitudes k))
           (snd (four_qubit_amplitudes k)).
Proof.
  induction k as [|k IH].
  - simpl concat. rewrite app_nil_r. apply four_qubit_preparation.
  - rewrite concat_repeat_snoc, app_assoc, apply_tape_app, IH.
    rewrite four_qubit_iteration. cbn [four_qubit_amplitudes].
    destruct (four_qubit_amplitudes k) as [a b]. cbn [fst snd].
    unfold marked. f_equal. lia.
Qed.

Lemma four_qubit_circuit (g : NQubit.globals) (k : nat) :
  NQubit.n_qubits g = 4 -> NQubit.grover_iterations g = Z.of_nat k ->
  NQubit.grover_circuit g
  = Ok (fun x =>
          (IZR ((if is_1001 x then fst (four_qubit_amplitudes k)
                 else snd (four_qubit_amplitudes k))
                * (if is_1001 x then fst (four_qubit_amplitudes k)
                   else snd (four_qubit_amplitudes k)))
           / 2 ^ (4 + 12 * k))%R).
Proof.
  intros Hn Hk. unfold NQubit.grover_circuit, qnode.
  rewrite (four_qubit_grover_queue g k Hn Hk).
  unfold NQubit.single_shot_device. rewrite Hn.
  rewrite run_accepted.
  - rewrite four_qubit_steps_state. cbn [Py.bind]. reflexivity.
  - rewrite forallb_app. apply andb_true_iff. split.
    + reflexivity.
    + apply forallb_concat_repeat. reflexivity.
  - rewrite forallb_app. apply andb_true_iff. split.
    + reflexivity.
    + apply forallb_concat_repeat. reflexivity.
Qed.

Lemma four_qubit_norm (k : nat) :
  fst (four_qubit_amplitudes k) * fst (four_qubit_amplitudes k)
  + 15 * (snd (four_qubit_amplitudes k) * snd (four_qubit_amplitudes k))
  = 2 ^ Z.of_nat (4 + 12 * k).
Proof.
  induction k as [|k IH]; [reflexivity|].
  cbn [four_qubit_amplitudes].
  destruct (four_qubit_amplitudes k) as [a b]. cbn [fst snd] in *.
  replace (Z.of_nat (4 + 12 * S k)) with (Z.of_nat (4 + 12 * k) + 12) by lia.
  rewrite Z.pow_add_r, <- IH by lia.
  change (2 ^ 12) with 4096. ring.
Qed.

Lemma power_split (k : nat) :
  (2 ^ (4 + 12 * k) = 16 * ((2 ^ k) ^ 2 * ((2 * 16) ^ k) ^ 2))%R.
Proof.
  induction k as [|k IH]; [simpl; ring|].
  replace (4 + 12 * S k)%nat with (12 + (4 + 12 * k))%nat by lia.
  rewrite pow_add, IH. rewrite <- !tech_pow_Rmult.
  replace (2 ^ 12)%R with 4096%R by (simpl; ring). ring.
Qed.

Lemma four_qubit_solution_probability (k : nat) :
  (IZR (fst (four_qubit_amplitudes k) * fst (four_qubit_amplitudes k))
   / 2 ^ (4 + 12 * k)
   = (sin ((2 * INR k + 1) * grover_angle 16 1)) ^ 2)%R.
Proof.
  rewrite (@formula_rational 16 1 k) by lia.
  rewrite four_qubit_amplitudes_numerators. cbn [fst].
  rewrite power_split, !mult_IZR, IZR_pow2.
  assert (H2 : (2 ^ k <> 0)%R) by (apply pow_nonzero; lra).
  assert (H32 : ((2 * 16) ^ k <> 0)%R) by (apply pow_nonzero; lra).
  field. split; assumption.
Qed.

(** X13.  With [n_qubits = 4] the circuit of the introduction runs for
    every number of iterations; its single shot is a state marked by the
    oracle (wires 0..3 carry 1001) with probability
    sin^2((2k+1) arccos(sqrt(15/16))), and the remaining probability is
    shared equally by the fifteen other outcomes. *)
Theorem four_qubit_grover_probability :
  forall (g : NQubit.globals) (k : nat),
    NQubit.n_qubits g = 4 ->
    NQubit.grover_iterations g = Z.of_nat k ->
    exists d,
      NQubit.grover_circuit g = Ok d
      /\ (forall x, is_1001 x = true ->
            d x = ((sin ((2 * INR k + 1)
                         * acos (sqrt ((16 - 1) / 16)))) ^ 2)%R)
      /\ (forall x, is_1001 x = false ->
            d x = ((1 - (sin ((2 * INR k + 1)
                              * acos (sqrt ((16 - 1) / 16)))) ^ 2) / 15)%R).
Proof.
  intros g k Hn Hk. eexists. split; [apply (four_qubit_circuit g k Hn Hk)|].
  change (acos (sqrt ((16 - 1) / 16))) with (grover_angle 16 1).
  rewrite <- four_qubit_solution_probability.
  pose proof (four_qubit_norm k) as Hnorm.
  apply (f_equal IZR) in Hnorm.
  rewrite plus_IZR, !mult_IZR, IZR_pow2 in Hnorm.
  assert (Hd : (2 ^ (4 + 12 * k) <> 0)%R) by (apply pow_nonzero; lra).
  split; intros x Hx; cbv beta; rewrite Hx.
  - reflexivity.
  - rewrite !mult_IZR, <- Hnorm. field.
    rewrite Hnorm. exact Hd.
Qed.

Lemma four_qubit_grover_probability_witness :
  exists d,
    NQubit.grover_circuit (NQubit.assign_n_qubits 4
                             {| NQubit.n_qubits := 0;
                                NQubit.grover_iterations := 2 |}) = Ok d
    /\ (forall x, is_1001 x = true ->
          d x = ((sin ((2 * INR 2 + 1)
                       * acos (sqrt ((16 - 1) / 16)))) ^ 2)%R)
    /\ (forall x, is_1001 x = false ->
          d x = ((1 - (sin ((2 * INR 2 + 1)
                            * acos (sqrt ((16 - 1) / 16)))) ^ 2) / 15)%R).
Proof.
  apply (four_qubit_grover_probability
           (NQubit.assign_n_qubits 4
              {| NQubit.n_qubits := 0; NQubit.grover_iterations := 2 |})
           2);
    reflexivity.
Defined.

Ltac eval_probability j :=
  rewrite <- (IZR_pow2 (4 + 12 * j));
  let w := eval vm_compute in (2 ^ Z.of_nat (4 + 12 * j)) in
  change (2 ^ Z.of_nat (4 + 12 * j)) with w;
  let v := eval vm_compute in
             (fst (four_qubit_amplitudes j) * fst (four_qubit_amplitudes j))
  in change (fst (four_qubit_amplitudes j) * fst (four_qubit_amplitudes j))
       with v.

Lemma notebook_globals_values :
  NQubit.n_qubits NQubit.notebook_globals = 4
  /\ NQubit.grover_iterations NQubit.notebook_globals = Z.of_nat 3.
Proof.
  rewrite notebook_globals_eq. split; reflexivity.
Qed.

(** X14.  With the names as the notebook's cells set them ([n_qubits = 4]
    and the three iterations its formula gives), a single shot of
    [grover_circuit] is a state with 1001 on wires 0..3 with probability
    63001/65536, a little above 96 %; no circuit with up to six iterations
    does better. *)
Theorem notebook_iterations_find_1001 :
  exists d,
    NQubit.grover_circuit NQubit.notebook_globals = Ok d
    /\ (forall x, is_1001 x = true -> d x = (63001 / 65536)%R)
    /\ (forall x, is_1001 x = true -> (96 / 100 < d x)%R)
    /\ (forall (g : NQubit.globals) (k : nat) d',
          NQubit.n_qubits g = 4 ->
          NQubit.grover_iterations g = Z.of_nat k ->
          (k <= 6)%nat ->
          NQubit.grover_circuit g = Ok d' ->
          forall x, is_1001 x = true -> (d' x <= d x)%R).
Proof.
  destruct notebook_globals_values as [Hn Hk].
  eexists.
  split; [apply (four_qubit_circuit NQubit.notebook_globals 3 Hn Hk)|].
  assert (E : forall x, is_1001 x = true ->
                (IZR ((if is_1001 x then fst (four_qubit_amplitudes 3)
                       else snd (four_qubit_amplitudes 3))
                      * (if is_1001 x then fst (four_qubit_amplitudes 3)
                         else snd (four_qubit_amplitudes 3)))
                 / 2 ^ (4 + 12 * 3) = 63001 / 65536)%R).
  { intros x Hx. rewrite Hx. eval_probability 3%nat. lra. }
  split; [exact E|]. split.
  - intros x Hx. cbv beta. rewrite (E x Hx). lra.
  - intros g k d' Hn' Hk' Hle Hd' x Hx. cbv beta. rewrite (E x Hx).
    rewrite (four_qubit_circuit g k Hn' Hk') in Hd'.
    apply (f_equal (fun q => match q with Ok f => f x | Raise _ => 0%R end))
      in Hd'.
    cbv beta iota in Hd'. rewrite <- Hd', Hx.
    cases_upto k 7%nat; [| | | | | | |lia];
      match goal with
      | |- context [pow 2 (4 + 12 * ?j)] => eval_probability j
      end; lra.
Qed.

End FourQubitSearch.

(* ================================================================== *)
(** * What the samples of the introduction show *)

(** The QNodes on the two-wire device with 1000 shots. *)
Module TwoQubitSamples.
Import Introduction.

(** [qml.device("default.qubit", wires=2, shots=1000)] *)
Definition device : list Z := range 2.

Definition state_preparation_circuit : res (basis -> R) :=
  qnode device TwoQubit.state_preparation_gates device.

Definition oracle_circuit : res (basis -> R) :=
  qnode device TwoQubit.oracle_gates device.

Definition diffusion_circuit : res (basis -> R) :=
  qnode device TwoQubit.diffusion_gates device.

(** Solution 1.4 *)
Definition preparation_and_oracle_circuit : res (basis -> R) :=
  qnode device (TwoQubit.state_preparation_gates ;; TwoQubit.oracle_gates)
        device.

End TwoQubitSamples.

Section Samples.
Import Introduction.
Local Open Scope list_scope.

Implicit Types (x y : @basis Z).

(** Amplitudes that change by a sign, or by a sign and a power of two
    that the scale takes up, give the same outcome probabilities. *)
Lemma probability_rescaled (s s' : @state Z) (e : nat) (uns : list Z) :
  scale s' = (scale s + e)%nat ->
  (forall x, vec s' x * vec s' x = 2 ^ Z.of_nat e * (vec s x * vec s x)) ->
  probability s' uns = probability s uns.
Proof.
  intros Hs Hv. extensionality x. unfold probability, weight.
  rewrite (@sum_over_lin _ _ uns (2 ^ Z.of_nat e) 0
             (fun y => vec s y * vec s y) (fun y => vec s y * vec s y)
             (fun y => vec s' y * vec s' y))
    by (intros y; rewrite Hv; ring).
  rewrite Hs, pow_add, Z.mul_0_l, Z.add_0_r, mult_IZR, IZR_pow2.
  field. split; apply pow_nonzero; lra.
Qed.

Lemma qnode_then_tape (ws : list Z) (c : circ Z) (t : list (op Z))
      (e : nat) (ms : list Z) :
  refused ws t = None ->
  (forall s, scale (apply_tape t s) = (scale s + e)%nat) ->
  (forall s x, vec (apply_tape t s) x * vec (apply_tape t s) x
               = 2 ^ Z.of_nat e * (vec s x * vec s x)) ->
  qnode ws (c ;; Ok t) ms = qnode ws c ms.
Proof.
  intros Hd Hs Hv. destruct c as [t0|err]; [|reflexivity].
  unfold qnode, run. cbn [then_ Py.bind].
  rewrite refused_app, Hd.
  destruct (refused ws t0); [reflexivity|].
  cbn [Py.bind]. f_equal. rewrite apply_tape_app.
  now apply probability_rescaled with (e := e).
Qed.

(** X15.  The oracles of the introduction never show in the samples:
    appended to any circuit, on any sampled wires, they leave every
    outcome probability (and every failure) as it is.  The mark is a sign,
    which only the diffuser turns into a probability. *)
Theorem oracles_do_not_change_samples :
  (forall (c : circ Z) (ms : list Z),
      qnode (range 2) (c ;; TwoQubit.oracle_gates) ms = qnode (range 2) c ms)
  /\ (forall (g : NQubit.globals) (c : circ Z) (ms : list Z),
        NQubit.n_qubits g = 4 ->
        qnode (NQubit.single_shot_device g) (c ;; NQubit.oracle_gates g) ms
        = qnode (NQubit.single_shot_device g) c ms)
  /\ TwoQubitSamples.preparation_and_oracle_circuit
     = TwoQubitSamples.state_preparation_circuit.
Proof.
  assert (H2 : forall (c : circ Z) (ms : list Z),
             qnode (range 2) (c ;; TwoQubit.oracle_gates) ms
             = qnode (range 2) c ms).
  { intros c ms. change TwoQubit.oracle_gates with (Ok [CZ 0 1]).
    apply qnode_then_tape with (e := 0%nat).
    - reflexivity.
    - intros s. cbn. lia.
    - intros s x. cbn [apply_tape fold_left apply vec].
      destruct (x 0 && x 1); cbn [sgn]; change (2 ^ Z.of_nat 0) with 1; ring. }
  split; [exact H2|]. split; [|apply H2].
  intros g c ms Hn. rewrite (four_qubit_oracle_queue g Hn).
  unfold NQubit.single_shot_device. rewrite Hn.
  apply qnode_then_tape with (e := 2%nat).
  - reflexivity.
  - intros s. rewrite four_qubit_oracle_state. cbn [scale]. lia.
  - intros s x. rewrite four_qubit_oracle_state. cbn [vec].
    destruct (is_1001 x); cbn [sgn]; change (2 ^ Z.of_nat 2) with 4; ring.
Qed.

Lemma qnode_all_wires (ws : list Z) (t : list (op Z)) (k : nat)
      (v : @basis Z -> Z) :
  refused ws t = None ->
  scale (apply_tape t (zero_state ws)) = k ->
  (forall x, vec (apply_tape t (zero_state ws)) x = v x) ->
  unsampled ws ws = [] ->
  qnode ws (Ok t) ws = Ok (fun x => (IZR (v x * v x) / 2 ^ k)%R).
Proof.
  intros Hd Hk Hv Hu. unfold qnode, run. cbn [Py.bind].
  rewrite Hd. cbn [Py.bind]. f_equal. extensionality x.
  unfold probability, weight. rewrite Hu, Hk. cbn [sum_over].
  now rewrite Hv.
Qed.

(** X16.  The histograms of the two-qubit QNodes that run one function
    each, from |00>: the state preparation alone and the diffusion
    operator alone give each of the four outcomes with probability 1/4,
    the oracle alone always gives 00. *)
Theorem two_qubit_histograms :
  (exists d, TwoQubitSamples.state_preparation_circuit = Ok d
             /\ forall x, d x = (1 / 4)%R)
  /\ (exists d, TwoQubitSamples.oracle_circuit = Ok d
                /\ forall x, d x = if x 0 || x 1 then 0%R else 1%R)
  /\ (exists d, TwoQubitSamples.diffusion_circuit = Ok d
                /\ forall x, d x = (1 / 4)%R).
Proof.
  split; [|split].
  - eexists. split.
    + unfold TwoQubitSamples.state_preparation_circuit,
        TwoQubitSamples.device.
      change TwoQubit.state_preparation_gates
        with (Ok [Hadamard 0; Hadamard 1]).
      apply (@qnode_all_wires (range 2) _ 2 (fun _ => 1));
        try reflexivity.
      intros x. vm_compute. all_bits x; reflexivity.
    + intros x. simpl. field.
  - eexists. split.
    + unfold TwoQubitSamples.oracle_circuit, TwoQubitSamples.device.
      change TwoQubit.oracle_gates with (Ok [CZ 0 1]).
      apply (@qnode_all_wires (range 2) _ 0
               (fun x => if x 0 || x 1 then 0 else 1));
        try reflexivity.
      intros x. vm_compute. all_bits x; reflexivity.
    + intros x. cbv beta. destruct (x 0 || x 1); simpl; field.
  - eexists. split.
    + unfold TwoQubitSamples.diffusion_circuit, TwoQubitSamples.device.
      change TwoQubit.diffusion_gates
        with (Ok [Hadamard 0; PauliZ 0; Hadamard 1; PauliZ 1; CZ 0 1;
                  Hadamard 0; Hadamard 1]).
      apply (@qnode_all_wires (range 2) _ 4
               (fun x => if x 0 || x 1 then 2 else -2));
        try reflexivity.
      intros x. vm_compute. all_bits x; reflexivity.
    + intros x. cbv beta. destruct (x 0 || x 1); simpl; field.
Qed.

End Samples.

(* ================================================================== *)
(** * The four-qubit functions under another [n_qubits] *)

Section OtherSizes.
Import Introduction.
Local Open Scope list_scope.

Implicit Types (x y : @basis Z).

Lemma Hq_Mx_comm (q : Z) (cs : list Z) (vs : list bool) (t : Z)
      (f : @basis Z -> Z) :
  ~ In q cs -> q <> t -> Hq q (Mx cs vs t f) = Mx cs vs t (Hq q f).
Proof.
  intros Hin Hne. extensionality x. unfold Hq, Mx.
  rewrite !controls_hold_upd by assumption.
  destruct (controls_hold cs vs x); [|reflexivity].
  unfold flip. rewrite !(upd_other _ _ (w := t)) by congruence.
  rewrite (upd_other _ _ (w := q)) by assumption.
  now rewrite !(upd_comm x (q := t) (q' := q)) by congruence.
Qed.

Definition wide_oracle_tape (n : Z) : list (op Z) :=
  [Hadamard (n - 1); MultiControlledX [0; 1; 2] 3 [true; false; false];
   Hadamard (n - 1)].

Lemma wide_oracle_queue (g : NQubit.globals) :
  NQubit.oracle_gates g = Ok (wide_oracle_tape (NQubit.n_qubits g)).
Proof. reflexivity. Qed.

Lemma wide_oracle_state (n : Z) (s : @state Z) :
  5 <= n ->
  apply_tape (wide_oracle_tape n) s
  = {| scale := S (S (scale s));
       vec := fun x =>
                2 * vec s (classical
                             (MultiControlledX [0; 1; 2] 3
                                               [true; false; false]) x) |}.
Proof.
  intros Hn. apply state_ext; [reflexivity|]. intros x.
  unfold wide_oracle_tape, apply_tape. cbn [fold_left apply vec].
  match goal with
  | |- _ = ?rhs =>
      change (Hq (n - 1) (Mx [0; 1; 2] [true; false; false] 3
                             (Hq (n - 1) (vec s))) x = rhs)
  end.
  rewrite Hq_Mx_comm by (simpl; lia).
  unfold Mx at 1. rewrite Hq_Hq. cbn [classical].
  now rewrite conditional_flip.
Qed.

Lemma In_range (n i : Z) : 0 <= i < n -> In i (range n).
Proof.
  intros Hi. unfold range. apply in_map_iff.
  exists (Z.to_nat i). split; [lia|]. apply in_seq. lia.
Qed.

Lemma not_In_range (n i : Z) : n <= i -> ~ In i (range n).
Proof.
  intros Hi Hin. unfold range in Hin. apply in_map_iff in Hin.
  destruct Hin as (j & <- & Hj). apply in_seq in Hj. lia.
Qed.

(** X17.  With at least five qubits the oracle of Solution 2.2 no longer
    marks by a sign.  Its two Hadamards act on the last wire while the
    controlled gate still targets wire 3, so they cancel, and the oracle
    flips bit 3 of every basis state with 1, 0, 0 on wires 0, 1, 2: it
    changes outcomes instead of phases. *)
Theorem oracle_on_more_qubits_flips_a_bit :
  forall g : NQubit.globals,
    5 <= NQubit.n_qubits g ->
    exists t,
      NQubit.oracle_gates g = Ok t
      /\ forallb (on_device (NQubit.single_shot_device g)) t = true
      /\ forall x y,
           amp (apply_tape t (ket (NQubit.single_shot_device g) x)) y
           = amp (ket (NQubit.single_shot_device g)
                      (upd x 3 (xorb (x 3)
                                     (x 0 && negb (x 1) && negb (x 2))))) y.
Proof.
  intros g Hn. set (n := NQubit.n_qubits g) in *.
  unfold NQubit.single_shot_device. fold n.
  assert (Hm : forall i, 0 <= i < n -> mem i (range n) = true).
  { intros i Hi. apply mem_In. now apply In_range. }
  exists (wide_oracle_tape n). split; [apply wide_oracle_queue|]. split.
  - unfold wide_oracle_tape, on_device. cbn [forallb op_wires app].
    rewrite !Hm by lia. reflexivity.
  - intros x y. rewrite wide_oracle_state by assumption.
    set (o := MultiControlledX [0; 1; 2] 3 [true; false; false]).
    assert (Hc : is_classical (range n) o = true).
    { unfold o. cbn [is_classical forallb]. rewrite !Hm by lia.
      reflexivity. }
    unfold amp. cbn [scale vec].
    rewrite <- (vec_apply_classical _ _ _ y Hc).
    rewrite (apply_ket _ _ x Hc).
    replace (classical o x)
      with (upd x 3 (xorb (x 3) (x 0 && negb (x 1) && negb (x 2)))).
    + cbn [ket scale vec]. rewrite mult_IZR.
      replace (sqrt 2 ^ 2)%R with 2%R
        by (simpl; rewrite Rmult_1_r, sqrt_sqrt; lra).
      simpl. field.
    + unfold o. cbn [classical]. f_equal. f_equal.
      unfold controls_hold. cbn [combine forallb fst snd].
      destruct (x 0), (x 1), (x 2); reflexivity.
Qed.

Lemma oracle_on_more_qubits_flips_a_bit_witness :
  exists t,
    NQubit.oracle_gates (NQubit.assign_n_qubits 5 NQubit.notebook_globals)
    = Ok t
    /\ forallb (on_device (range 5)) t = true
    /\ forall x y,
         amp (apply_tape t (ket (range 5) x)) y
         = amp (ket (range 5)
                    (upd x 3 (xorb (x 3)
                                   (x 0 && negb (x 1) && negb (x 2))))) y.
Proof.
  apply (oracle_on_more_qubits_flips_a_bit
           (NQubit.assign_n_qubits 5 NQubit.notebook_globals)).
  simpl. lia.
Defined.

(** X18.  With one, two or three qubits and at least one iteration the
    circuit of the introduction never runs: its oracle names wires 0 to 3
    whatever [n_qubits] is, and the call ends with an exception of the
    library ([MultiControlledX] refuses the single wire of the diffuser
    when [n_qubits = 1], the device refuses wire 3 otherwise). *)
Theorem circuit_needs_four_qubits :
  forall g : NQubit.globals,
    1 <= NQubit.n_qubits g <= 3 ->
    1 <= NQubit.grover_iterations g ->
    exists e, NQubit.grover_circuit g = Raise e /\ origin_of e = Library.
Proof.
  intros g Hn Hk.
  set (n := NQubit.n_qubits g) in *.
  destruct (Z.to_nat (NQubit.grover_iterations g)) as [|m] eqn:Em; [lia|].
  assert (Hp : NQubit.state_preparation_gates g = Ok (map Hadamard (range n)))
    by (unfold NQubit.state_preparation_gates; apply for_each_queue).
  unfold NQubit.grover_circuit, qnode, run, NQubit.grover_gates.
  rewrite Hp, wide_oracle_queue. fold n.
  destruct (Z_le_gt_dec n 1) as [Hsmall|Hbig].
  - exists ValueError. split; [|reflexivity].
    assert (Hd : NQubit.diffusion_gates g = Raise ValueError).
    { unfold NQubit.diffusion_gates. fold n. rewrite !for_each_queue.
      replace n with 1 by lia. reflexivity. }
    rewrite Hd. unfold times, range. rewrite Em. reflexivity.
  - exists WireError. split; [|reflexivity].
    assert (Hd : NQubit.diffusion_gates g
                 = Ok (diffuser_tape (range (n - 1)) (n - 1)))
      by (apply nqubit_diffusion_queue; fold n; lia).
    rewrite Hd. cbn [then_].
    rewrite (times_queue _ eq_refl), Em. cbn [Py.bind repeat concat].
    unfold NQubit.single_shot_device. fold n.
    rewrite refused_app.
    replace (refused (range n) (map Hadamard (range n))) with (@None exn)
      by (symmetry; apply refused_None; split;
          [apply on_device_Hadamards, incl_refl
          | apply executable_Hadamards]).
    rewrite <- app_assoc. unfold wide_oracle_tape at 1.
    cbn [app refused refusal mem existsb wire_eqb Wire_Z length Nat.eqb].
    unfold on_device. cbn [forallb op_wires app].
    replace (mem (n - 1) (range n)) with true
      by (symmetry; apply mem_In, In_range; lia).
    replace (mem 3 (range n)) with false
      by (symmetry; apply mem_false, not_In_range; lia).
    cbn. now rewrite !andb_false_r.
Qed.

Lemma circuit_needs_four_qubits_witness :
  exists e,
    NQubit.grover_circuit (NQubit.assign_n_qubits 3 NQubit.notebook_globals)
    = Raise e
    /\ origin_of e = Library.
Proof.
  apply (circuit_needs_four_qubits
           (NQubit.assign_n_qubits 3 NQubit.notebook_globals)).
  - simpl. lia.
  - cbn [NQubit.assign_n_qubits NQubit.grover_iterations].
    destruct notebook_globals_values as [_ ->]. simpl. lia.
Defined.

End OtherSizes.

(* ================================================================== *)
(** * How the functions of the toy example fail *)

Section ToyFailures.
Import ToyExample.
Local Open Scope string_scope.
Local Open Scope list_scope.

Lemma subscript_raises {A} (l : list A) (i : Z) (e : exn) :
  subscript l i = Raise e -> e = IndexError.
Proof.
  unfold subscript. destruct (_ && _).
  - destruct (nth_error _ _); [discriminate|]. now intros [= <-].
  - now intros [= <-].
Qed.

Lemma clause_loop_malformed {W} `{Wire W} (T : list W) :
  forall (clauses : list (list Z)) (pre post : list W) (e : exn),
    resolve_clauses T clauses = Raise e ->
    (forall q c, In q T -> In c post -> q <> c) ->
    clause_loop clauses T (pre ++ post) (Z.of_nat (length pre))
    = Raise IndexError.
Proof.
  induction clauses as [|clause rest IH]; intros pre post e Hr Hd;
    [discriminate|].
  cbn [resolve_clauses] in Hr. cbn [clause_loop].
  destruct (resolve_clause T clause) as [[a b]|e1] eqn:E.
  - destruct (resolve_clause_In _ _ E) as [Ha Hb].
    unfold resolve_clause in E.
    destruct (subscript clause 0) as [c0|]; [|discriminate].
    cbn [Py.bind] in E |- *.
    destruct (subscript T c0) as [t0|]; [|discriminate].
    cbn [Py.bind] in E |- *.
    destruct (subscript clause 1) as [c1|]; [|discriminate].
    cbn [Py.bind] in E |- *.
    destruct (subscript T c1) as [t1|]; [|discriminate].
    cbn [Py.bind] in E |- *. inversion E. subst t0 t1.
    cbn [Py.bind] in Hr.
    destruct (resolve_clauses T rest) as [ps|e2] eqn:Er; [discriminate|].
    destruct post as [|c post].
    + rewrite app_nil_r, subscript_beyond by lia. reflexivity.
    + rewrite subscript_nth. cbn [Py.bind].
      rewrite xor_queue by (apply Hd; simpl; auto).
      replace (Z.of_nat (length pre) + 1)
        with (Z.of_nat (length (pre ++ [c])))
        by (rewrite length_app; simpl; lia).
      replace (pre ++ c :: post) with ((pre ++ [c]) ++ post)
        by (now rewrite <- app_assoc).
      rewrite (IH (pre ++ [c]) post e2 eq_refl); [reflexivity|].
      intros q c' Hq Hc'. apply Hd; simpl; auto.
  - clear Hr IH. unfold resolve_clause in E.
    destruct (subscript clause 0) as [c0|e0] eqn:E0.
    + cbn [Py.bind] in E |- *.
      destruct (subscript T c0) as [t0|e0] eqn:E1.
      * cbn [Py.bind] in E |- *.
        destruct (subscript clause 1) as [c1|e0] eqn:E2.
        -- cbn [Py.bind] in E |- *.
           destruct (subscript T c1) as [t1|e0] eqn:E3; [discriminate|].
           now rewrite (subscript_raises _ _ E3).
        -- now rewrite (subscript_raises _ _ E2).
      * now rewrite (subscript_raises _ _ E1).
    + now rewrite (subscript_raises _ _ E0).
Qed.

(** A clause that [clause_circuit] can look up among [n] tiles: it has
    two entries, each an index of a tile (negative ones count from the
    end). *)
Definition names_two_tiles (n : nat) (clause : list Z) : Prop :=
  exists c0 c1 more,
    clause = c0 :: c1 :: more
    /\ - Z.of_nat n <= c0 < Z.of_nat n
    /\ - Z.of_nat n <= c1 < Z.of_nat n.

Lemma subscript_Ok_iff {A} (l : list A) (i : Z) :
  (exists a, subscript l i = Ok a)
  <-> - Z.of_nat (length l) <= i < Z.of_nat (length l).
Proof.
  unfold subscript. set (n := Z.of_nat (length l)).
  set (j := if (i <? 0)%Z then i + n else i).
  assert (Hj : 0 <= j < n <-> - n <= i < n).
  { unfold j. destruct (Z.ltb_spec i 0); lia. }
  destruct ((0 <=? j)%Z && (j <? n)%Z) eqn:E.
  - apply andb_true_iff in E as [E1 E2].
    apply Z.leb_le in E1. apply Z.ltb_lt in E2.
    destruct (nth_error l (Z.to_nat j)) as [a|] eqn:En.
    + split; [intros _; apply Hj; lia | intros _; now exists a].
    + apply nth_error_None in En. unfold n in E2. lia.
  - split; [intros (a & Ha); discriminate|].
    intros Hi. apply Hj in Hi.
    apply andb_false_iff in E as [E|E];
      [apply Z.leb_gt in E | apply Z.ltb_ge in E]; lia.
Qed.

Lemma resolve_clause_Ok_iff {W} (T : list W) (clause : list Z) :
  (exists p, resolve_clause T clause = Ok p)
  <-> names_two_tiles (length T) clause.
Proof.
  unfold resolve_clause, names_two_tiles. split.
  - intros (p & Hp).
    destruct clause as [|c0 [|c1 more]].
    + discriminate.
    + rewrite subscript_head in Hp. cbn [Py.bind] in Hp.
      destruct (subscript T c0); discriminate.
    + rewrite subscript_head, subscript_second in Hp.
      cbn [Py.bind] in Hp.
      destruct (subscript T c0) as [t0|] eqn:E0; [|discriminate].
      cbn [Py.bind] in Hp.
      destruct (subscript T c1) as [t1|] eqn:E1; [|discriminate].
      exists c0, c1, more. split; [reflexivity|].
      split; apply subscript_Ok_iff; eauto.
  - intros (c0 & c1 & more & -> & H0 & H1).
    apply subscript_Ok_iff in H0 as (t0 & E0).
    apply subscript_Ok_iff in H1 as (t1 & E1).
    exists (t0, t1).
    now rewrite subscript_head, subscript_second; cbn [Py.bind];
      rewrite E0; cbn [Py.bind]; rewrite E1.
Qed.

Lemma resolve_clauses_Ok_iff {W} (T : list W) (clauses : list (list Z)) :
  (exists pairs, resolve_clauses T clauses = Ok pairs)
  <-> Forall (names_two_tiles (length T)) clauses.
Proof.
  induction clauses as [|clause rest IH].
  - split; [constructor | intros _; now exists []].
  - cbn [resolve_clauses]. split.
    + intros (pairs & Hp).
      destruct (resolve_clause T clause) as [p|] eqn:E; [|discriminate].
      cbn [Py.bind] in Hp.
      destruct (resolve_clauses T rest) as [ps|]; [|discriminate].
      constructor.
      * apply resolve_clause_Ok_iff. eauto.
      * apply IH. eauto.
    + intros HF. inversion HF as [|? ? H1 H2]; subst.
      apply resolve_clause_Ok_iff in H1 as (p & ->).
      apply IH in H2 as (ps & ->). now exists (p :: ps).
Qed.

(** X4.  When no tile is a clause wire and there are fewer clause wires
    than clauses, [clause_circuit] ends with [IndexError], at the first
    clause that does not name two tiles or finds no clause wire left, and
    so do [oracle], [grover_iteration] and [grover], whatever result wires
    they are given; the exception comes from a subscript of the notebook's
    own code, not from the library. *)
Theorem too_few_clause_wires :
  forall (W : Type) (HW : Wire W) (clause_list : list (list Z))
         (T C : list W),
    (length C < length clause_list)%nat ->
    (forall q, In q T -> ~ In q C) ->
    clause_circuit clause_list T C = Raise IndexError
    /\ (forall result_qubits,
          oracle clause_list T C result_qubits = Raise IndexError
          /\ grover_iteration clause_list T C result_qubits
             = Raise IndexError
          /\ grover clause_list T C result_qubits = Raise IndexError)
    /\ origin_of IndexError = Interpreter.
Proof.
  intros W HW cl T C Hl Hdis.
  assert (Hd : forall q c, In q T -> In c C -> q <> c)
    by (intros q c Hq Hc ->; now apply (Hdis c)).
  assert (E : clause_circuit cl T C = Raise IndexError).
  { unfold clause_circuit.
    destruct (resolve_clauses T cl) as [pairs|e0] eqn:Hr.
    - pose proof (resolve_clauses_length _ _ Hr) as Hlen.
      apply (@clause_loop_short _ _ T cl pairs [] C Hr); [lia | exact Hd].
    - apply (@clause_loop_malformed _ _ T cl [] C e0 Hr Hd). }
  split; [exact E|]. split; [|reflexivity].
  intros rs.
  assert (Eo : oracle cl T C rs = Raise IndexError).
  { unfold oracle. now rewrite E. }
  assert (Ei : grover_iteration cl T C rs = Raise IndexError).
  { unfold grover_iteration. now rewrite Eo. }
  repeat split; try assumption.
  unfold grover. rewrite Ei. unfold init_states.
  rewrite for_each_queue.
  destruct rs as [|r rs]; [reflexivity|].
  now rewrite subscript_head.
Qed.

Lemma too_few_clause_wires_witness :
  clause_circuit grid_3x2_clauses grid_3x2_tiles clause_qubits
  = Raise IndexError
  /\ (forall result_qubits,
        oracle grid_3x2_clauses grid_3x2_tiles clause_qubits result_qubits
        = Raise IndexError
        /\ grover_iteration grid_3x2_clauses grid_3x2_tiles clause_qubits
                            result_qubits
           = Raise IndexError
        /\ grover grid_3x2_clauses grid_3x2_tiles clause_qubits
                  result_qubits
           = Raise IndexError)
  /\ origin_of IndexError = Interpreter.
Proof.
  apply (@too_few_clause_wires string _ grid_3x2_clauses grid_3x2_tiles
           clause_qubits).
  - simpl. lia.
  - intros q Hq Hc. simpl in Hq, Hc.
    repeat (destruct Hq as [<- | Hq];
            [repeat (destruct Hc as [Hc | Hc]; [discriminate|]);
             contradiction|]).
    contradiction.
Defined.

(** X19.  When no tile is a clause wire, [clause_circuit] succeeds
    exactly when every clause has two entries that are indices of tiles
    and there are at least as many clause wires as clauses; it then queues
    two CNOTs per clause, and spare clause wires stay unused.  Otherwise
    it ends with [IndexError], never with an exception of the library. *)
Theorem clause_circuit_outcomes :
  forall (W : Type) (HW : Wire W) (clause_list : list (list Z))
         (T C : list W),
    (forall q, In q T -> ~ In q C) ->
    ((exists t, clause_circuit clause_list T C = Ok t)
     <-> Forall (names_two_tiles (length T)) clause_list
         /\ (length clause_list <= length C)%nat)
    /\ (forall t, clause_circuit clause_list T C = Ok t ->
          length t = (2 * length clause_list)%nat)
    /\ (forall e, clause_circuit clause_list T C = Raise e ->
          e = IndexError).
Proof.
  intros W HW cl T C Hdis.
  assert (Hd : forall q c, In q T -> In c C -> q <> c)
    by (intros q c Hq Hc ->; now apply (Hdis c)).
  unfold clause_circuit.
  destruct (resolve_clauses T cl) as [pairs|e0] eqn:Hr.
  - pose proof (resolve_clauses_length _ _ Hr) as Hlen.
    assert (HF : Forall (names_two_tiles (length T)) cl)
      by (apply resolve_clauses_Ok_iff; eauto).
    destruct (le_lt_dec (length cl) (length C)) as [Hle|Hlt].
    + rewrite (@clause_loop_queue _ _ T cl pairs [] C Hr) by (lia || exact Hd).
      split; [|split].
      * split; [now intros _ | intros _; eauto].
      * intros t [= <-]. clear -Hlen Hle. rewrite <- Hlen in *.
        revert C Hle. clear Hlen.
        induction pairs as [|[a b] ps IH]; intros [|c C] Hle;
          simpl in *; try lia.
        rewrite IH by lia. lia.
      * discriminate.
    + rewrite (@clause_loop_short _ _ T cl pairs [] C Hr) by (lia || exact Hd).
      split; [|split].
      * split; [intros (t & Ht); discriminate | intros [_ Hle]; lia].
      * discriminate.
      * now intros e [= <-].
  - rewrite (@clause_loop_malformed _ _ T cl [] C e0 Hr Hd).
    split; [|split].
    + split; [intros (t & Ht); discriminate|].
      intros [HF _]. apply resolve_clauses_Ok_iff in HF as (pairs & Hp).
      congruence.
    + discriminate.
    + now intros e [= <-].
Qed.

Lemma clause_circuit_outcomes_witness :
  ((exists t, clause_circuit [[0; 1]; [1; 4]] tile_qubits clause_qubits = Ok t)
   <-> Forall (names_two_tiles (length tile_qubits)) [[0; 1]; [1; 4]]
       /\ (length [[0; 1]; [1; 4]] <= length clause_qubits)%nat)
  /\ (forall t, clause_circuit [[0; 1]; [1; 4]] tile_qubits clause_qubits
                = Ok t ->
        length t = (2 * length [[0; 1]; [1; 4]])%nat)
  /\ (forall e, clause_circuit [[0; 1]; [1; 4]] tile_qubits clause_qubits
                = Raise e ->
        e = IndexError).
Proof.
  apply (@clause_circuit_outcomes string _ [[0; 1]; [1; 4]] tile_qubits
           clause_qubits).
  intros q Hq Hc. simpl in Hq, Hc.
  repeat (destruct Hq as [<- | Hq];
          [repeat (destruct Hc as [Hc | Hc]; [discriminate|]);
           contradiction|]).
  contradiction.
Defined.

(** X20.  [oracle] needs exactly one result wire: with none, or with more
    than one, the clause circuit is queued and the constructor of
    [MultiControlledX] then ends the call with an exception of the
    library.  It is [ValueError] (one target wire is required) when the
    result wires differ from each other and so do the clause wires; a
    repeated label among either makes the library's [Wires] raise
    [WireError] before the targets are counted.  ([init_states] reads only
    the first result wire, so a second one goes unnoticed until the
    oracle.) *)
Theorem oracle_needs_one_result_wire :
  forall (W : Type) (HW : Wire W) (clause_list : list (list Z))
         (T C result_qubits : list W),
    (forall q, In q T -> ~ In q C) ->
    Forall (names_two_tiles (length T)) clause_list ->
    (length clause_list <= length C)%nat ->
    length result_qubits <> 1%nat ->
    exists e,
      oracle clause_list T C result_qubits = Raise e
      /\ origin_of e = Library
      /\ e = if distinct result_qubits && distinct C
             then ValueError else WireError.
Proof.
  intros W HW cl T C rs Hdis HF Hle Hrs.
  apply resolve_clauses_Ok_iff in HF as (pairs & Hr).
  pose proof (resolve_clauses_length _ _ Hr) as Hlen.
  unfold oracle, clause_circuit.
  rewrite (@clause_loop_queue _ _ T cl pairs [] C Hr).
  - unfold qml_MultiControlledX.
    destruct (distinct rs) eqn:Ers; cbn [negb andb].
    + destruct (distinct C) eqn:EC; cbn [negb].
      * exists ValueError.
        destruct rs as [|r [|r' rs]]; [| now contradiction Hrs |];
          repeat split; reflexivity.
      * exists WireError. repeat split; reflexivity.
    + exists WireError. repeat split; reflexivity.
  - lia.
  - intros q c Hq Hc ->. now apply (Hdis c).
Qed.

Lemma oracle_needs_one_result_wire_witness :
  exists e,
    oracle clause_list tile_qubits clause_qubits ["r_0"; "r_1"] = Raise e
    /\ origin_of e = Library
    /\ e = ValueError.
Proof.
  change ValueError
    with (if distinct ["r_0"; "r_1"] && distinct clause_qubits
          then ValueError else WireError) at 1.
  apply (@oracle_needs_one_result_wire string _ clause_list tile_qubits
           clause_qubits ["r_0"; "r_1"]).
  - intros q Hq Hc. simpl in Hq, Hc.
    repeat (destruct Hq as [<- | Hq];
            [repeat (destruct Hc as [Hc | Hc]; [discriminate|]);
             contradiction|]).
    contradiction.
  - apply resolve_clauses_Ok_iff. eexists. reflexivity.
  - simpl. lia.
  - simpl. lia.
Defined.

End ToyFailures.

(* ================================================================== *)
(** * The notebook functions as Python programs

    The definitions above give each function of the notebooks as a Rocq
    function on lists of wires.  What a function does with any other
    argument, which names it looks up, and whether it checks, raises or
    catches anything are questions about its text.  This part gives the
    text: the statements of each function body as a syntax tree, and an
    interpreter for them.

    - Values are [None], integers, strings, lists and functions.
    - A name is local to a function when it is a parameter or assigned
      somewhere in the body, and global otherwise, as in Python.
    - Calls into PennyLane are statements [qml.f(args)]; the library is a
      parameter of the interpreter, free to accept or refuse every call,
      and every attempted call is logged with its outcome.  The module
      names [qml] and [np] and the builtins [range] and [int] are syntax
      here, not names that a cell could bind again.
    - Every failure carries who raised it: the interpreter (an unbound
      name, a subscript out of range, an operation on a value of the wrong
      type), the library, or a statement of the notebook ([raise],
      [assert]). *)

Module Python.

Local Open Scope string_scope.
Local Open Scope list_scope.

(** ** Syntax *)

Inductive expr :=
| ENone
| EInt (n : Z)
| EStr (s : string)
| EName (x : string)
| ENil                                  (* [] *)
| ECons (e rest : expr)                 (* [e, *rest] *)
| ESubscript (e i : expr)               (* e[i] *)
| EButLast (e : expr)                   (* e[:-1] *)
| ESub (a b : expr)                     (* a - b *)
| ERange (e : expr)                     (* range(e) *)
| ECopy (x : string) (src : expr).      (* [x for x in src] *)

(** The display [[e1, ..., en]]. *)
Definition EList (es : list expr) : expr := fold_right ECons ENil es.

(** An argument of a library call, positional or by keyword. *)
Inductive arg :=
| Pos (e : expr)
| Kw (k : string) (e : expr).

Inductive stmt :=
| SPass
| SSeq (s1 s2 : stmt)
| SLib (f : string) (args : list arg)   (* qml.f(args) *)
| SCall (f : string) (args : list expr) (* f(args) *)
| SAssign (x : string) (e : expr)       (* x = e *)
| SAugAdd (x : string) (e : expr)       (* x += e *)
| SIterations (x : string) (e : expr)
    (* x = int(np.ceil(np.sqrt(2**e)*np.pi/4.0 - 0.5)) *)
| SFor (x : string) (e : expr) (body : stmt)
| SIf (c : expr) (s1 s2 : stmt)
| SAssert (c : expr)
| SRaise (e : exn)
| STry (s handler : stmt).              (* try: s  except Exception: handler *)

Definition block (ss : list stmt) : stmt := fold_right SSeq SPass ss.

(** ** Values and name spaces *)

#[warnings="-register-all"]
Inductive value :=
| VNone
| VInt (n : Z)
| VStr (s : string)
| VList (vs : list value)
| VFun (params : list string) (body : stmt).

Definition namespace := string -> option value.

Definition unbound : namespace := fun _ => None.

Definition bind_name (x : string) (v : value) (ns : namespace) : namespace :=
  fun y => if String.eqb y x then Some v else ns y.

Fixpoint bind_params (ps : list string) (vs : list value) : namespace :=
  match ps, vs with
  | p :: ps', v :: vs' => bind_name p v (bind_params ps' vs')
  | _, _ => unbound
  end.

Definition is_in (x : string) (xs : list string) : bool :=
  existsb (String.eqb x) xs.

(** The names a function assigns; with the parameters they are its local
    names. *)
Fixpoint targets (s : stmt) : list string :=
  match s with
  | SSeq s1 s2 | SIf _ s1 s2 | STry s1 s2 => targets s1 ++ targets s2
  | SAssign x _ | SAugAdd x _ | SIterations x _ => [x]
  | SFor x _ body => x :: targets body
  | SPass | SLib _ _ | SCall _ _ | SAssert _ | SRaise _ => []
  end.

Definition local_names (params : list string) (body : stmt) : list string :=
  params ++ targets body.

(** ** Expressions *)

(** A local name is looked up among the locals only, any other name among
    the globals; an unbound name is a [NameError]. *)
Definition lookup (D : list string) (G L : namespace) (x : string)
  : res value :=
  match (if is_in x D then L x else G x) with
  | Some v => Ok v
  | None => Raise NameError
  end.

Definition chars (s : string) : list value :=
  map (fun c => VStr (String c EmptyString)) (list_ascii_of_string s).

(** The items a [for] loop, a comprehension or an unpacking runs over. *)
Definition items (v : value) : res (list value) :=
  match v with
  | VList vs => Ok vs
  | VStr s => Ok (chars s)
  | VNone | VInt _ | VFun _ _ => Raise TypeError
  end.

Definition index (v i : value) : res value :=
  match v, i with
  | VList vs, VInt k => subscript vs k
  | VStr s, VInt k => subscript (chars s) k
  | _, _ => Raise TypeError
  end.

Definition slice_but_last (v : value) : res value :=
  match v with
  | VList vs => Ok (VList (but_last vs))
  | VStr s =>
      Ok (VStr (string_of_list_ascii (but_last (list_ascii_of_string s))))
  | VNone | VInt _ | VFun _ _ => Raise TypeError
  end.

Definition minus (a b : value) : res value :=
  match a, b with
  | VInt x, VInt y => Ok (VInt (x - y))
  | _, _ => Raise TypeError
  end.

Definition range_of (v : value) : res value :=
  match v with
  | VInt n => Ok (VList (map VInt (range n)))
  | _ => Raise TypeError
  end.

(** Every exception of an expression is raised by the interpreter. *)
Fixpoint eval (D : list string) (G L : namespace) (e : expr) : res value :=
  match e with
  | ENone => Ok VNone
  | EInt n => Ok (VInt n)
  | EStr s => Ok (VStr s)
  | EName x => lookup D G L x
  | ENil => Ok (VList [])
  | ECons e1 rest =>
      let* v := eval D G L e1 in
      let* r := eval D G L rest in
      let* vs := items r in
      Ok (VList (v :: vs))
  | ESubscript e1 i =>
      let* v := eval D G L e1 in
      let* k := eval D G L i in
      index v k
  | EButLast e1 => let* v := eval D G L e1 in slice_but_last v
  | ESub a b =>
      let* x := eval D G L a in
      let* y := eval D G L b in
      minus x y
  | ERange e1 => let* v := eval D G L e1 in range_of v
  | ECopy _ src =>
      let* v := eval D G L src in
      let* vs := items v in
      Ok (VList vs)
  end.

Fixpoint eval_list (D : list string) (G L : namespace) (es : list expr)
  : res (list value) :=
  match es with
  | [] => Ok []
  | e :: es' =>
      let* v := eval D G L e in
      let* vs := eval_list D G L es' in
      Ok (v :: vs)
  end.

Definition eval_arg (D : list string) (G L : namespace) (a : arg)
  : res (option string * value) :=
  match a with
  | Pos e => let* v := eval D G L e in Ok (None, v)
  | Kw k e => let* v := eval D G L e in Ok (Some k, v)
  end.

Fixpoint eval_args (D : list string) (G L : namespace) (args : list arg)
  : res (list (option string * value)) :=
  match args with
  | [] => Ok []
  | a :: args' =>
      let* v := eval_arg D G L a in
      let* vs := eval_args D G L args' in
      Ok (v :: vs)
  end.

Definition truthy (v : value) : bool :=
  match v with
  | VNone => false
  | VInt n => negb (n =? 0)%Z
  | VStr s => negb (String.eqb s EmptyString)
  | VList vs => negb (Nat.eqb (length vs) 0)
  | VFun _ _ => true
  end.

(** ** Statements *)

(** A call into the library, and what the library did with it. *)
Record call := { callee : string; arguments : list (option string * value) }.

Definition entry := (call * option exn)%type.

(** The library: given the calls so far and a call, it returns or raises. *)
Definition library := list entry -> call -> option exn.

Inductive status :=
| Normal
| Failed (o : origin) (e : exn)
| OutOfFuel.

Record state := { locals : namespace; log : list entry }.

Definition assign (x : string) (v : value) (st : state) : state :=
  {| locals := bind_name x v (locals st); log := log st |}.

(** [x += v].  Integers add and strings concatenate.  A list is extended
    in place, which every other name of that list sees; values here have
    no identity, so that case is left [Unmodelled]. *)
Definition aug_add (cur v : value) : status + value :=
  match cur, v with
  | VInt a, VInt b => inr (VInt (a + b))
  | VStr a, VStr b => inr (VStr (String.append a b))
  | VList _, (VList _ | VStr _) => inl (Failed Undetermined Unmodelled)
  | _, _ => inl (Failed Interpreter TypeError)
  end.

(** [int(np.ceil(np.sqrt(2**v)*np.pi/4.0 - 0.5))]: [2**v] needs a
    number, and the rest is the computation on binary64 numbers given
    above, with numpy's [TypeError] from 64 on. *)
Definition iterations_of (v : value) : status + value :=
  match v with
  | VInt n =>
      match Introduction.NQubit.iterations_cell n with
      | Ok k => inr (VInt k)
      | Raise e => inl (Failed (origin_of e) e)
      end
  | VNone | VStr _ | VList _ | VFun _ _ => inl (Failed Interpreter TypeError)
  end.

(** What calling a function value does to the log. *)
Definition handler := value -> list value -> list entry -> status * list entry.

Fixpoint for_loop (step : value -> state -> status * state)
         (its : list value) (st : state) : status * state :=
  match its with
  | [] => (Normal, st)
  | v :: its' =>
      let (r, st') := step v st in
      match r with
      | Normal => for_loop step its' st'
      | _ => (r, st')
      end
  end.

Fixpoint exec (docall : handler) (lib : library) (D : list string)
         (G : namespace) (s : stmt) (st : state) : status * state :=
  match s with
  | SPass => (Normal, st)
  | SSeq s1 s2 =>
      let (r, st1) := exec docall lib D G s1 st in
      match r with
      | Normal => exec docall lib D G s2 st1
      | _ => (r, st1)
      end
  | SLib f args =>
      match eval_args D G (locals st) args with
      | Raise e => (Failed Interpreter e, st)
      | Ok vs =>
          let c := {| callee := f; arguments := vs |} in
          let r := lib (log st) c in
          let st' := {| locals := locals st; log := log st ++ [(c, r)] |} in
          match r with
          | None => (Normal, st')
          | Some e => (Failed Library e, st')
          end
      end
  | SCall f args =>
      match lookup D G (locals st) f with
      | Raise e => (Failed Interpreter e, st)
      | Ok fv =>
          match eval_list D G (locals st) args with
          | Raise e => (Failed Interpreter e, st)
          | Ok vs =>
              let (r, l) := docall fv vs (log st) in
              (r, {| locals := locals st; log := l |})
          end
      end
  | SAssign x e =>
      match eval D G (locals st) e with
      | Raise e => (Failed Interpreter e, st)
      | Ok v => (Normal, assign x v st)
      end
  | SAugAdd x e =>
      match lookup D G (locals st) x with
      | Raise e => (Failed Interpreter e, st)
      | Ok cur =>
          match eval D G (locals st) e with
          | Raise e => (Failed Interpreter e, st)
          | Ok v =>
              match aug_add cur v with
              | inl r => (r, st)
              | inr w => (Normal, assign x w st)
              end
          end
      end
  | SIterations x e =>
      match eval D G (locals st) e with
      | Raise e => (Failed Interpreter e, st)
      | Ok v =>
          match iterations_of v with
          | inl r => (r, st)
          | inr w => (Normal, assign x w st)
          end
      end
  | SFor x e body =>
      match (let* v := eval D G (locals st) e in items v) with
      | Raise e => (Failed Interpreter e, st)
      | Ok its =>
          for_loop (fun v st' => exec docall lib D G body (assign x v st'))
                   its st
      end
  | SIf c s1 s2 =>
      match eval D G (locals st) c with
      | Raise e => (Failed Interpreter e, st)
      | Ok v => if truthy v then exec docall lib D G s1 st
                else exec docall lib D G s2 st
      end
  | SAssert c =>
      match eval D G (locals st) c with
      | Raise e => (Failed Interpreter e, st)
      | Ok v => if truthy v then (Normal, st)
                else (Failed Notebook AssertionError, st)
      end
  | SRaise e => (Failed Notebook e, st)
  | STry s1 h =>
      let (r, st1) := exec docall lib D G s1 st in
      match r with
      | Failed _ _ => exec docall lib D G h st1
      | _ => (r, st1)
      end
  end.

(** Calling a value: a function takes as many arguments as it has
    parameters and runs its body on fresh locals; anything else is not
    callable.  [fuel] bounds the depth of calls. *)
Fixpoint call_value (fuel : nat) (lib : library) (G : namespace) : handler :=
  fun fv vs l =>
    match fv with
    | VFun ps body =>
        if Nat.eqb (length ps) (length vs)
        then match fuel with
             | O => (OutOfFuel, l)
             | S fuel' =>
                 let (r, st) :=
                   exec (call_value fuel' lib G) lib (local_names ps body) G
                        body {| locals := bind_params ps vs; log := l |} in
                 (r, log st)
             end
        else (Failed Interpreter TypeError, l)
    | VNone | VInt _ | VStr _ | VList _ => (Failed Interpreter TypeError, l)
    end.

(** ** What the text of a function shows *)








(** ** The global names a call depends on *)

Section NamesRead.
Variables (S : list string) (G1 G2 : namespace) (lib : library).
Hypothesis agree : forall x, In x S -> G1 x = G2 x.










End NamesRead.

(** ** Failures are neither made nor caught *)





Section PassingOn.
Variables (lib : library) (G : namespace).





(** *** Every call returns *)





End PassingOn.

(** ** The functions of the notebooks *)

(** A function definition: its name, its parameters and its body. *)
Definition definition := (string * (list string * stmt))%type.


Definition parameters (d : definition) : list string := fst (snd d).

Definition body_of (d : definition) : stmt := snd (snd d).


(** A name space in which the functions are defined as in the notebook,
    whatever else it holds. *)
Definition defines (G : namespace) (defs : list definition) : Prop :=
  forall d, In d defs -> G (fst d) = Some (VFun (parameters d) (body_of d)).

(** [f(args)] run by a cell. *)
Definition call_name (fuel : nat) (lib : library) (G : namespace)
           (f : string) (vs : list value) (l : list entry)
  : status * list entry :=
  match G f with
  | Some fv => call_value fuel lib G fv vs l
  | None => (Failed Interpreter NameError, l)
  end.


(** A library that accepts every call. *)
Definition permissive : library := fun _ _ => None.

Module Toy.

Definition diffuser : definition :=
  ("diffuser", (["qubits"], block [
     (* Apply transformation |s> -> |00..0> (H-gates) *)
     SFor "qubit" (EName "qubits") (SLib "Hadamard" [Pos (EName "qubit")]);
     (* Apply transformation |00..0> -> |11..1> (X-gates) *)
     SFor "qubit" (EName "qubits") (SLib "PauliX" [Pos (EName "qubit")]);
     (* Do multi-controlled-Z gate *)
     SLib "Hadamard" [Pos (ESubscript (EName "qubits") (EInt (-1)))];
     SLib "MultiControlledX"
          [Pos (EButLast (EName "qubits"));
           Pos (ESubscript (EName "qubits") (EInt (-1)))];
     SLib "Hadamard" [Pos (ESubscript (EName "qubits") (EInt (-1)))];
     (* Apply transformation |11..1> -> |00..0> *)
     SFor "qubit" (EName "qubits") (SLib "PauliX" [Pos (EName "qubit")]);
     (* Apply transformation |00..0> -> |s> *)
     SFor "qubit" (EName "qubits") (SLib "Hadamard" [Pos (EName "qubit")])
   ])).

Definition xor : definition :=
  ("xor", (["input_qubits"; "output_qubits"], block [
     SLib "CNOT"
          [Kw "wires"
              (EList [ESubscript (EName "input_qubits") (EInt 0);
                      ESubscript (EName "output_qubits") (EInt 0)])];
     SLib "CNOT"
          [Kw "wires"
              (EList [ESubscript (EName "input_qubits") (EInt 1);
                      ESubscript (EName "output_qubits") (EInt 0)])]
   ])).

Definition clause_circuit : definition :=
  ("clause_circuit", (["clause_list"; "tile_qubits"; "clause_qubits"], block [
     SAssign "i" (EInt 0);
     SFor "clause" (EName "clause_list") (block [
       SCall "xor"
             [EList [ESubscript (EName "tile_qubits")
                                (ESubscript (EName "clause") (EInt 0));
                     ESubscript (EName "tile_qubits")
                                (ESubscript (EName "clause") (EInt 1))];
              EList [ESubscript (EName "clause_qubits") (EName "i")]];
       SAugAdd "i" (EInt 1)
     ])
   ])).

Definition oracle : definition :=
  ("oracle",
   (["clause_list"; "tile_qubits"; "clause_qubits"; "result_qubits"], block [
     (* Compute clauses *)
     SCall "clause_circuit"
           [EName "clause_list"; EName "tile_qubits"; EName "clause_qubits"];
     (* Flip 'output' bit if all clauses are satisfied *)
     SLib "MultiControlledX"
          [Pos (EName "clause_qubits"); Pos (EName "result_qubits")];
     (* Undo clauses *)
     SCall "clause_circuit"
           [EName "clause_list"; EName "tile_qubits"; EName "clause_qubits"]
   ])).

Definition init_states : definition :=
  ("init_states", (["tile_qubits"; "result_qubits"], block [
     (* Initialize qubits in state |s> *)
     SFor "q" (EName "tile_qubits") (SLib "Hadamard" [Pos (EName "q")]);
     (* Initialize 'r' in state |-> *)
     SLib "PauliX" [Pos (ESubscript (EName "result_qubits") (EInt 0))];
     SLib "Hadamard" [Pos (ESubscript (EName "result_qubits") (EInt 0))]
   ])).

Definition grover_iteration : definition :=
  ("grover_iteration",
   (["clause_list"; "tile_qubits"; "clause_qubits"; "result_qubits"], block [
     (* Apply our oracle *)
     SCall "oracle"
           [EName "clause_list"; EName "tile_qubits"; EName "clause_qubits";
            EName "result_qubits"];
     (* Apply our diffuser *)
     SCall "diffuser" [EName "tile_qubits"]
   ])).

Definition grover : definition :=
  ("grover",
   (["clause_list"; "tile_qubits"; "clause_qubits"; "result_qubits"], block [
     (* Initialization *)
     SCall "init_states" [EName "tile_qubits"; EName "result_qubits"];
     (* One Iteration *)
     SCall "grover_iteration"
           [EName "clause_list"; EName "tile_qubits"; EName "clause_qubits";
            EName "result_qubits"]
   ])).

(** The functions of the notebook, each before the functions it calls. *)
Definition functions : list definition :=
  [grover; grover_iteration; oracle; clause_circuit; init_states; xor;
   diffuser].

End Toy.

(** Grover_Introduction.ipynb, the two-qubit example.  The body of the
    QNode [grover_circuit] ends with [return qml.sample()], its last
    statement. *)
Module TwoQubit.

Definition state_preparation_gates : definition :=
  ("state_preparation_gates", ([], block [
     (* Apply the Hadamard gate to both qubits *)
     SFor "i" (ERange (EInt 2)) (SLib "Hadamard" [Kw "wires" (EName "i")])
   ])).

Definition oracle_gates : definition :=
  ("oracle_gates", ([], block [
     SLib "CZ" [Pos (EList [EInt 0; EInt 1])]
   ])).

Definition diffusion_gates : definition :=
  ("diffusion_gates", ([], block [
     SFor "i" (ERange (EInt 2)) (block [
       SLib "Hadamard" [Pos (EName "i")];
       SLib "PauliZ" [Pos (EName "i")]
     ]);
     SLib "CZ" [Pos (EList [EInt 0; EInt 1])];
     SFor "i" (ERange (EInt 2)) (SLib "Hadamard" [Pos (EName "i")])
   ])).

Definition grover_circuit : definition :=
  ("grover_circuit", ([], block [
     SCall "state_preparation_gates" [];
     SCall "oracle_gates" [];
     SCall "diffusion_gates" [];
     SLib "sample" []
   ])).

Definition functions : list definition :=
  [grover_circuit; state_preparation_gates; oracle_gates; diffusion_gates].

End TwoQubit.

(** Grover_Introduction.ipynb, the n-qubit example.  [grover_circuit] is
    again the body of the QNode. *)
Module NQubit.

Definition state_preparation_gates : definition :=
  ("state_preparation_gates", ([], block [
     (* Apply the Hadamard gate to all qubits *)
     SFor "i" (ERange (EName "n_qubits"))
          (SLib "Hadamard" [Kw "wires" (EName "i")])
   ])).

Definition oracle_gates : definition :=
  ("oracle_gates", ([], block [
     SLib "Hadamard" [Pos (ESub (EName "n_qubits") (EInt 1))];
     SLib "MultiControlledX"
          [Kw "wires" (EList [EInt 0; EInt 1; EInt 2; EInt 3]);
           Kw "control_values" (EStr "100")];
     SLib "Hadamard" [Pos (ESub (EName "n_qubits") (EInt 1))]
   ])).

Definition diffusion_gates : definition :=
  ("diffusion_gates", ([], block [
     SFor "i" (ERange (EName "n_qubits")) (SLib "Hadamard" [Pos (EName "i")]);
     SFor "i" (ERange (EName "n_qubits")) (SLib "PauliX" [Pos (EName "i")]);
     SLib "Hadamard" [Pos (ESub (EName "n_qubits") (EInt 1))];
     SLib "MultiControlledX"
          [Kw "wires" (ECopy "i" (ERange (EName "n_qubits")))];
     SLib "Hadamard" [Pos (ESub (EName "n_qubits") (EInt 1))];
     SFor "i" (ERange (EName "n_qubits")) (SLib "PauliX" [Pos (EName "i")]);
     SFor "i" (ERange (EName "n_qubits")) (SLib "Hadamard" [Pos (EName "i")])
   ])).

Definition grover_circuit : definition :=
  ("grover_circuit", ([], block [
     SCall "state_preparation_gates" [];
     SFor "_" (ERange (EName "grover_iterations")) (block [
       SCall "oracle_gates" [];
       SCall "diffusion_gates" []
     ]);
     SLib "sample" []
   ])).

Definition functions : list definition :=
  [grover_circuit; state_preparation_gates; oracle_gates; diffusion_gates].

(** The cell
    [grover_iterations = int(np.ceil(np.sqrt(2**n_qubits)*np.pi/4.0 - 0.5))]. *)
Definition iterations_cell : stmt :=
  SIterations "grover_iterations" (EName "n_qubits").

End NQubit.

(** ** What the texts show, checked by computation *)












End Python.

(* ================================================================== *)
(** ** Properties of the notebook functions as programs *)

Section Programs.
Import Python.
Local Open Scope string_scope.
Local Open Scope list_scope.













End Programs.

(* ================================================================== *)
(** ** The text of [diffuser] and the function [diffuser] *)

Section TextAndFunction.
Import Python.
Local Open Scope string_scope.
Local Open Scope list_scope.

(** The call by which [diffuser] hands an operation to the library. *)
Definition as_call (o : op string) : call :=
  match o with
  | Hadamard w => {| callee := "Hadamard"; arguments := [(None, VStr w)] |}
  | PauliX w => {| callee := "PauliX"; arguments := [(None, VStr w)] |}
  | PauliZ w => {| callee := "PauliZ"; arguments := [(None, VStr w)] |}
  | CZ c t =>
      {| callee := "CZ"; arguments := [(None, VList [VStr c; VStr t])] |}
  | CNOT c t =>
      {| callee := "CNOT"; arguments := [(None, VList [VStr c; VStr t])] |}
  | MultiControlledX cs t _ =>
      {| callee := "MultiControlledX";
         arguments := [(None, VList (map VStr cs)); (None, VStr t)] |}
  end.

Definition accepted (o : op string) : entry := (as_call o, None).

Lemma exec_seq_normal (h : handler) (lib : library) (D : list string)
      (G : namespace) (s1 s2 : stmt) (st st1 : state) :
  exec h lib D G s1 st = (Normal, st1) ->
  exec h lib D G (SSeq s1 s2) st = exec h lib D G s2 st1.
Proof. intros E. cbn [exec]. now rewrite E. Qed.

Lemma exec_for (h : handler) (lib : library) (D : list string)
      (G : namespace) (x : string) (e : expr) (body : stmt) (st : state)
      (its : list value) :
  (let* v := eval D G (locals st) e in items v) = Ok its ->
  exec h lib D G (SFor x e body) st
  = for_loop (fun v st' => exec h lib D G body (assign x v st')) its st.
Proof. intros E. cbn [exec]. now rewrite E. Qed.

(** A loop [for x in ...: qml.g(x)] or [for x in ...: qml.g(k=x)], run
    with a library that accepts every call. *)
Definition gate_arg (k : option string) (e : expr) : arg :=
  match k with
  | None => Pos e
  | Some k' => Kw k' e
  end.

Definition gate_entry (g : string) (k : option string) (v : value) : entry :=
  ({| callee := g; arguments := [(k, v)] |}, None).

Lemma gate_loop_values (h : handler) (D : list string) (G : namespace)
      (x g : string) (k : option string) :
  is_in x D = true ->
  forall (vs : list value) (st : state),
    exists L,
      for_loop (fun v st' =>
                  exec h permissive D G (SLib g [gate_arg k (EName x)])
                       (assign x v st'))
               vs st
      = (Normal, {| locals := L; log := log st ++ map (gate_entry g k) vs |})
      /\ forall y, y <> x -> L y = locals st y.
Proof.
  intros Hx.
  assert (Hstep : forall v st,
            exec h permissive D G (SLib g [gate_arg k (EName x)])
                 (assign x v st)
            = (Normal,
               {| locals := bind_name x v (locals st);
                  log := log st ++ [gate_entry g k v] |})).
  { intros v st. cbn [exec eval_args].
    assert (Ea : eval_arg D G (locals (assign x v st)) (gate_arg k (EName x))
                 = Ok (k, v)).
    { destruct k; cbn [gate_arg eval_arg eval]; unfold lookup; rewrite Hx;
        cbn [assign locals]; unfold bind_name at 1;
        rewrite String.eqb_refl; reflexivity. }
    rewrite Ea. reflexivity. }
  induction vs as [|v vs IH]; intros st.
  - exists (locals st). cbn [map for_loop]. rewrite app_nil_r.
    destruct st. split; reflexivity.
  - cbn [map for_loop]. rewrite Hstep.
    set (st1 := {| locals := bind_name x v (locals st);
                   log := log st ++ [gate_entry g k v] |}).
    destruct (IH st1) as (L & E & HL). exists L. split.
    + rewrite E. unfold st1. cbn [log]. now rewrite <- app_assoc.
    + intros y Hy. rewrite (HL y Hy). unfold st1. cbn [locals].
      unfold bind_name. now rewrite (proj2 (String.eqb_neq y x) Hy).
Qed.

Lemma gate_loop (h : handler) (D : list string) (G : namespace)
      (x g : string) (mk : string -> op string) :
  is_in x D = true ->
  (forall w, as_call (mk w)
             = {| callee := g; arguments := [(None, VStr w)] |}) ->
  forall (ws : list string) (st : state),
    exists L,
      for_loop (fun v st' =>
                  exec h permissive D G (SLib g [Pos (EName x)])
                       (assign x v st'))
               (map VStr ws) st
      = (Normal, {| locals := L; log := log st ++ map accepted (map mk ws) |})
      /\ forall y, y <> x -> L y = locals st y.
Proof.
  intros Hx Hmk ws st.
  destruct (@gate_loop_values h D G x g None Hx (map VStr ws) st)
    as (L & E & HL).
  exists L. split; [|exact HL].
  cbn [gate_arg] in E. rewrite E. do 3 f_equal.
  rewrite !map_map. apply map_ext. intros w.
  unfold accepted, gate_entry. now rewrite Hmk.
Qed.

(** On a list of string wires and with a library that accepts every call,
    the text of [diffuser] issues, call for call, the operations that the
    function [diffuser] above queues. *)
Lemma diffuser_text_queues_diffuser_tape (G : namespace) (fuel : nat)
      (cs : list string) (t : string) (l : list entry) :
  defines G Toy.functions -> (1 <= fuel)%nat ->
  call_name fuel permissive G "diffuser" [VList (map VStr (cs ++ [t]))] l
  = (Normal, l ++ map accepted (diffuser_tape cs t)).
Proof.
  intros Hd Hk. destruct fuel as [|fuel]; [lia|].
  pose proof (Hd Toy.diffuser ltac:(simpl; tauto)) as Ed.
  change (fst Toy.diffuser) with "diffuser" in Ed.
  unfold call_name. rewrite Ed.
  change (parameters Toy.diffuser) with ["qubits"].
  cbn [call_value length Nat.eqb].
  set (D := local_names ["qubits"] (body_of Toy.diffuser)).
  set (h := call_value fuel permissive G).
  set (qs := VList (map VStr (cs ++ [t]))).
  assert (HD : is_in "qubit" D = true) by reflexivity.
  assert (Hq : forall L, L "qubits" = Some qs ->
                         eval D G L (EName "qubits") = Ok qs).
  { intros L HL. cbn [eval]. unfold lookup.
    change (is_in "qubits" D) with true. cbv iota. now rewrite HL. }
  assert (Hlast : forall L, L "qubits" = Some qs ->
            eval D G L (ESubscript (EName "qubits") (EInt (-1)))
            = Ok (VStr t)).
  { intros L HL. cbn [eval]. unfold lookup.
    change (is_in "qubits" D) with true. cbv iota. rewrite HL.
    cbn [Py.bind index qs]. rewrite map_app. apply subscript_last. }
  assert (Hbut : forall L, L "qubits" = Some qs ->
            eval D G L (EButLast (EName "qubits"))
            = Ok (VList (map VStr cs))).
  { intros L HL. cbn [eval]. unfold lookup.
    change (is_in "qubits" D) with true. cbv iota. rewrite HL.
    cbn [Py.bind slice_but_last qs]. unfold but_last.
    rewrite map_app. cbn [map]. now rewrite removelast_last. }
  assert (Hloop : forall g mk st,
            (forall w, as_call (mk w)
                       = {| callee := g; arguments := [(None, VStr w)] |}) ->
            locals st "qubits" = Some qs ->
            exists L,
              exec h permissive D G
                   (SFor "qubit" (EName "qubits")
                         (SLib g [Pos (EName "qubit")])) st
              = (Normal,
                 {| locals := L;
                    log := log st ++ map accepted (map mk (cs ++ [t])) |})
              /\ L "qubits" = Some qs).
  { intros g mk st Hmk HL. cbn [exec]. rewrite (Hq _ HL).
    cbn [Py.bind items qs].
    destruct (@gate_loop h D G "qubit" g mk HD Hmk (cs ++ [t]) st)
      as (L & E & HLL).
    exists L. split; [exact E|]. rewrite HLL by discriminate. exact HL. }
  assert (Hgate : forall g w st,
            eval D G (locals st) w = Ok (VStr t) ->
            exec h permissive D G (SLib g [Pos w]) st
            = (Normal,
               {| locals := locals st;
                  log := log st
                         ++ [({| callee := g;
                                 arguments := [(None, VStr t)] |}, None)] |})).
  { intros g w st Hw. cbn [exec eval_args eval_arg]. now rewrite Hw. }
  unfold body_of, Toy.diffuser. cbn [snd block fold_right].
  set (st0 := {| locals := bind_params ["qubits"] [qs]; log := l |}).
  assert (H0 : locals st0 "qubits" = Some qs) by reflexivity.
  destruct (Hloop "Hadamard" Hadamard st0 (fun w => eq_refl) H0)
    as (L1 & E1 & H1).
  erewrite exec_seq_normal by exact E1.
  match goal with
  | |- context [exec h permissive D G (SSeq (SFor _ _ _) _) ?s] =>
      destruct (Hloop "PauliX" PauliX s (fun w => eq_refl) H1)
        as (L2 & E2 & H2)
  end.
  erewrite exec_seq_normal by exact E2.
  erewrite exec_seq_normal by (apply Hgate, Hlast; exact H2).
  erewrite exec_seq_normal
    by (cbn [exec eval_args eval_arg locals log];
        rewrite (Hbut _ H2), (Hlast _ H2); cbn [Py.bind permissive];
        reflexivity).
  erewrite exec_seq_normal by (apply Hgate, Hlast; exact H2).
  match goal with
  | |- context [exec h permissive D G (SSeq (SFor _ _ _) _) ?s] =>
      destruct (Hloop "PauliX" PauliX s (fun w => eq_refl) H2)
        as (L3 & E3 & H3)
  end.
  erewrite exec_seq_normal by exact E3.
  match goal with
  | |- context [exec h permissive D G (SSeq (SFor _ _ _) _) ?s] =>
      destruct (Hloop "Hadamard" Hadamard s (fun w => eq_refl) H3)
        as (L4 & E4 & H4)
  end.
  erewrite exec_seq_normal by exact E4.
  cbn [exec log]. f_equal.
  unfold diffuser_tape, st0, accepted. cbn [log locals].
  rewrite !map_app, <- !app_assoc. reflexivity.
Qed.

(** With a library that accepts every call, the text of the n-qubit
    [state_preparation_gates] issues one Hadamard call per wire of
    [range(n_qubits)], as the function above queues them. *)
Lemma state_preparation_text_queues_hadamards (G : namespace) (fuel : nat)
      (n : Z) (l : list entry) :
  defines G NQubit.functions -> G "n_qubits" = Some (VInt n) ->
  (1 <= fuel)%nat ->
  call_name fuel permissive G "state_preparation_gates" [] l
  = (Normal, l ++ map (gate_entry "Hadamard" (Some "wires"))
                      (map VInt (range n)))
  /\ Introduction.NQubit.state_preparation_gates
       {| Introduction.NQubit.n_qubits := n;
          Introduction.NQubit.grover_iterations := 0 |}
     = Ok (map Hadamard (range n)).
Proof.
  intros Hd Hn Hk. split.
  - destruct fuel as [|fuel]; [lia|].
    pose proof (Hd NQubit.state_preparation_gates ltac:(simpl; tauto)) as Ed.
    change (fst NQubit.state_preparation_gates)
      with "state_preparation_gates" in Ed.
    unfold call_name. rewrite Ed.
    change (parameters NQubit.state_preparation_gates) with (@nil string).
    cbn [call_value length Nat.eqb].
    set (D := local_names [] (body_of NQubit.state_preparation_gates)).
    unfold body_of, NQubit.state_preparation_gates.
    cbn [snd block fold_right].
    destruct (@gate_loop_values (call_value fuel permissive G) D G "i"
                "Hadamard" (Some "wires") eq_refl (map VInt (range n))
                {| locals := bind_params [] []; log := l |})
      as (L & E & _).
    cbn [gate_arg] in E.
    erewrite exec_seq_normal
      by (erewrite exec_for; [exact E|];
          cbn [eval]; unfold lookup;
          change (is_in "n_qubits" D) with false; cbv iota;
          cbn [locals bind_params]; now rewrite Hn).
    reflexivity.
  - unfold Introduction.NQubit.state_preparation_gates.
    cbn [Introduction.NQubit.n_qubits]. apply for_each_queue.
Qed.

End TextAndFunction.
